(** * decompress-filewriter: the safe write path of an archive extractor

    A shallow embedding of [src/index.ts] (functions [safeMakeDir],
    [preventWritingThroughSymlink] and [write]) together with the part of
    the platform it talks to: Node's [path] module (POSIX flavour), the
    [strip-dirs] package, and a POSIX file system with directories, regular
    files behind inodes, and symbolic links.

    The functions of [src/index.ts] are computations in a world made of the
    file system, the entry objects, the content streams and a trace of the
    calls made; an [await] is the sequencing of two computations, an
    exception is an outcome of its own. *)

From Stdlib Require Import ZArith Lia Bool Ascii.
From stdpp Require Import gmap strings list fin_maps.

Open Scope string_scope.
Open Scope list_scope.
Open Scope nat_scope.

(** ** Characters and strings *)

Definition chars : string → list ascii := String.list_ascii_of_string.
Definition str : list ascii → string := String.string_of_list_ascii.

Definition is_sep (c : ascii) : bool := Ascii.eqb c "/"%char.

(** JS [a.startsWith(b)]. *)
Definition startsWith (a b : string) : bool := String.prefix b a.

(** ** Node's [path] module, POSIX flavour *)

Module Path.

(** [s.split('/')] on the characters of [s]. *)
Fixpoint split_chars (s : list ascii) : list (list ascii) :=
  match s with
  | [] => [[]]
  | c :: s' =>
      if is_sep c then [] :: split_chars s'
      else match split_chars s' with
           | h :: t => (c :: h) :: t
           | [] => [[c]]
           end
  end.

Definition split (s : string) : list string := str <$> split_chars (chars s).

(** [segs.join('/')]. *)
Fixpoint join_segs (segs : list string) : string :=
  match segs with
  | [] => ""
  | [s] => s
  | s :: rest => s +:+ "/" +:+ join_segs rest
  end.

Definition isAbsolute (p : string) : bool :=
  match p with
  | String c _ => is_sep c
  | EmptyString => false
  end.

Definition endsWithSep (p : string) : bool :=
  match rev (chars p) with
  | c :: _ => is_sep c
  | [] => false
  end.

(** One separator-delimited segment of [normalizeString]: [res] is the
    stack of segments kept so far (last one first).  Empty segments and
    ["."] are dropped; [".."] removes the last kept segment unless there
    is none or it is itself [".."], in which case [".."] is kept when
    [allowAboveRoot] holds and dropped otherwise. *)
Definition normalize_step (allowAboveRoot : bool) (res : list string) (seg : string)
  : list string :=
  if String.eqb seg "" || String.eqb seg "." then res
  else if String.eqb seg ".." then
    match res with
    | top :: below =>
        if String.eqb top ".." then seg :: res else below
    | [] => if allowAboveRoot then [seg] else []
    end
  else seg :: res.

Definition normalizeString (p : string) (allowAboveRoot : bool) : string :=
  join_segs (rev (foldl (normalize_step allowAboveRoot) [] (split p))).

Definition normalize (p : string) : string :=
  if String.eqb p "" then "."
  else
    let isAbs := isAbsolute p in
    let trailingSeparator := endsWithSep p in
    let p' := normalizeString p (negb isAbs) in
    if String.eqb p' "" then
      if isAbs then "/" else if trailingSeparator then "./" else "."
    else
      let p'' := if trailingSeparator then p' +:+ "/" else p' in
      if isAbs then "/" +:+ p'' else p''.

(** [path.join(...args)]: the non-empty arguments are glued with ["/"]
    and the result is normalised; without any, the result is ["."]. *)
Definition join_all (args : list string) : string :=
  match filter (λ a, a ≠ "") args with
  | [] => "."
  | kept => normalize (join_segs kept)
  end.

Definition join (a b : string) : string := join_all [a; b].

(** [path.win32.isAbsolute]: a leading separator of either kind, or a
    drive letter followed by a colon and a separator. *)
Definition is_win_sep (c : ascii) : bool :=
  is_sep c || Ascii.eqb c "\"%char.

Definition is_drive_letter (c : ascii) : bool :=
  let n := nat_of_ascii c in
  ((65 <=? n) && (n <=? 90) || (97 <=? n) && (n <=? 122))%nat.

Definition isAbsoluteWin32 (p : string) : bool :=
  match p with
  | String c rest =>
      is_win_sep c ||
      match rest with
      | String c1 (String c2 _) =>
          is_drive_letter c && Ascii.eqb c1 ":"%char && is_win_sep c2
      | _ => false
      end
  | EmptyString => false
  end.

(** The backwards scan of [path.dirname] over the characters at indices
    [length - 1 .. 1], given most recent first.  [Some r] is returned at
    the first separator met after a non-separator; [r] holds the
    characters at indices [end - 1 .. 1]. *)
Fixpoint dirname_scan (matchedSlash : bool) (r : list ascii) : option (list ascii) :=
  match r with
  | [] => None
  | c :: r' =>
      if is_sep c then
        if matchedSlash then dirname_scan true r' else Some r'
      else dirname_scan false r'
  end.

Definition dirname_chars (p : list ascii) : list ascii :=
  match p with
  | [] => chars "."
  | c0 :: rest =>
      let hasRoot := is_sep c0 in
      match dirname_scan true (rev rest) with
      | None => if hasRoot then chars "/" else chars "."
      | Some r =>
          if hasRoot && bool_decide (r = []) then chars "//"
          else c0 :: rev r
      end
  end.

Definition dirname (p : string) : string := str (dirname_chars (chars p)).

(** Number of non-empty segments of a path. *)
Definition nseg_chars (p : list ascii) : nat :=
  length (filter (λ s, s ≠ []) (split_chars p)).

Definition nseg (p : string) : nat := nseg_chars (chars p).

End Path.

(** ** The [strip-dirs] package *)

Module StripDirs.

(** [stripDirs(pathStr, count)] of strip-dirs 3.0 with its default options
    ([disallowOverflow: false]): the path is normalised and cut at the
    separators, a leading ["."] component is dropped, [count] is lowered
    to leave at least the last component, and what remains is joined
    again.  An absolute path is refused ([None] stands for the
    exception). *)
Definition stripDirs (pathStr : string) (count : nat) : option string :=
  if Path.isAbsolute pathStr || Path.isAbsoluteWin32 pathStr then None
  else
    let pathComponents := Path.split (Path.normalize pathStr) in
    let pathComponents :=
      match pathComponents with
      | first :: ((_ :: _) as rest) =>
          if String.eqb first "." then rest else pathComponents
      | _ => pathComponents
      end in
    let count :=
      if (length pathComponents - 1 <? count)%nat
      then (length pathComponents - 1)%nat else count in
    Some (Path.join_all (drop count pathComponents)).

End StripDirs.

(** ** A POSIX file system

    The model keeps what [write] can observe: which names exist, of which
    kind they are, where symbolic links lead and what regular files hold.
    Permissions, owners and link counts are left out, and the clock stands
    still during a call.

    Paths are resolved as the system calls resolve them: name by name from
    the root or from the working directory, [".."] being the parent of the
    directory reached, symbolic links being followed.  [realpath] is this
    resolution, written back as a string.  (Node's [fs.realpath] first
    normalises the string, and the targets of the links it meets, without
    looking at the file system: it may lead elsewhere where [".."] follows
    the name of a symbolic link, and it may succeed where this resolution
    fails because the path goes on after a name that is missing or a
    regular file.  In the paths [write] builds with [path.join] and
    [path.dirname], [".."] can only stand in front and nothing but a
    separator follows the last name.) *)

Inductive errno := ENOENT | ENOTDIR | ELOOP | EEXIST | EISDIR | EPERM | EINVAL.

Inductive res (A : Type) : Type :=
| Ok (a : A)
| Err (e : errno).
Arguments Ok {A} a.
Arguments Err {A} e.

Module Fs.

(** A canonical location: the names on the way from the root. *)
Definition cpath := list string.

Inductive node :=
| Dir (atime mtime : Z)
| File (ino : nat)
| Symlink (target : string).

Record inode := Inode {
  data : list Byte.byte;
  mode : Z;
  atime : Z;
  mtime : Z
}.

Record t := Make {
  nodes : gmap (list string) node;
  inodes : gmap nat inode;
  next_ino : nat;
  cwd : cpath;
  clock : Z
}.

Definition with_nodes (ns : gmap (list string) node) (fs : t) : t :=
  Make ns (inodes fs) (next_ino fs) (cwd fs) (clock fs).

Definition with_inodes (tbl : gmap nat inode) (fs : t) : t :=
  Make (nodes fs) tbl (next_ino fs) (cwd fs) (clock fs).

(** Symbolic links followed in one resolution before [ELOOP]. *)
Definition MAXSYMLINKS : nat := 40.

(** The canonical path as a string. *)
Definition render (p : cpath) : string := "/" +:+ Path.join_segs p.

Definition parent (p : cpath) : cpath := removelast p.

(** The root always is a directory. *)
Definition is_dir (fs : t) (p : cpath) : bool :=
  match p with
  | [] => true
  | _ => match nodes fs !! p with
         | Some (Dir _ _) => true
         | _ => false
         end
  end.

Definition start (base : cpath) (p : string) : cpath :=
  if Path.isAbsolute p then [] else base.

Definition is_skip (s : string) : bool := String.eqb s "" || String.eqb s ".".

(** Path resolution: from the directory [cur], follow the names [segs];
    every symbolic link on the way is followed, up to [fuel] of them
    nested. *)
Fixpoint walk (fuel : nat) (fs : t) : cpath → list string → res cpath :=
  fix go (cur : cpath) (segs : list string) {struct segs} : res cpath :=
    match segs with
    | [] => Ok cur
    | s :: rest =>
        if negb (is_dir fs cur) then Err ENOTDIR
        else if is_skip s then go cur rest
        else if String.eqb s ".." then go (parent cur) rest
        else
          match nodes fs !! (cur ++ [s]) with
          | None => Err ENOENT
          | Some (Symlink tgt) =>
              match fuel with
              | O => Err ELOOP
              | S fuel' =>
                  if String.eqb tgt "" then Err ENOENT
                  else
                    match walk fuel' fs (start cur tgt) (Path.split tgt) with
                    | Ok c => go c rest
                    | Err e => Err e
                    end
              end
          | Some _ => go (cur ++ [s]) rest
          end
    end.

Definition resolve_from (fs : t) (base : cpath) (p : string) : res cpath :=
  if String.eqb p "" then Err ENOENT
  else walk MAXSYMLINKS fs (start base p) (Path.split p).

Definition resolve (fs : t) (p : string) : res cpath :=
  resolve_from fs (cwd fs) p.

(** [realpath(p)]. *)
Definition realpath (fs : t) (p : string) : res string :=
  match resolve fs p with
  | Ok c => Ok (render c)
  | Err e => Err e
  end.

(** Where the last name of a path lives, the last name itself not being
    followed: either the path denotes a directory as such (the root, a
    final ["."] or [".."], a trailing separator), or an entry [name] of
    the directory [d]. *)
Inductive located :=
| AtDir (d : cpath)
| AtEntry (d : cpath) (name : string).

Definition split_last (segs : list string) : option (list string * string) :=
  match rev segs with
  | [] => None
  | name :: init => Some (rev init, name)
  end.

Definition locate_from (fs : t) (base : cpath) (p : string) : res located :=
  if String.eqb p "" then Err ENOENT
  else
    match split_last (filter (λ s, s ≠ "") (Path.split p)) with
    | None => Ok (AtDir [])
    | Some (init, name) =>
        match walk MAXSYMLINKS fs (start base p) init with
        | Err e => Err e
        | Ok d =>
            if negb (is_dir fs d) then Err ENOTDIR
            else if Path.endsWithSep p || String.eqb name "." || String.eqb name ".."
            then match walk MAXSYMLINKS fs d [name; ""] with
                 | Ok d' => Ok (AtDir d')
                 | Err e => Err e
                 end
            else Ok (AtEntry d name)
        end
    end.

Definition locate (fs : t) (p : string) : res located :=
  locate_from fs (cwd fs) p.

(** [readlink(p)]. *)
Definition readlink (fs : t) (p : string) : res string :=
  match locate fs p with
  | Err e => Err e
  | Ok (AtDir _) => Err EINVAL
  | Ok (AtEntry d name) =>
      match nodes fs !! (d ++ [name]) with
      | Some (Symlink tgt) => Ok tgt
      | Some _ => Err EINVAL
      | None => Err ENOENT
      end
  end.

(** [mkdirs(p)], that is [mkdir] with [recursive: true]: the names of [p]
    are visited from the left, the missing ones are created, and anything
    on the way that is not (a link to) a directory is an error. *)
Fixpoint mkdirp (fs : t) (cur : cpath) (segs : list string) : res unit * t :=
  match segs with
  | [] => if is_dir fs cur then (Ok (), fs) else (Err EEXIST, fs)
  | s :: rest =>
      if negb (is_dir fs cur) then (Err ENOTDIR, fs)
      else if is_skip s then mkdirp fs cur rest
      else if String.eqb s ".." then mkdirp fs (parent cur) rest
      else
        match nodes fs !! (cur ++ [s]) with
        | None =>
            mkdirp (with_nodes (<[cur ++ [s] := Dir (clock fs) (clock fs)]> (nodes fs)) fs)
                   (cur ++ [s]) rest
        | Some (Symlink _) =>
            match walk MAXSYMLINKS fs cur [s] with
            | Ok c => mkdirp fs c rest
            | Err e => (Err e, fs)
            end
        | Some _ => mkdirp fs (cur ++ [s]) rest
        end
  end.

Definition mkdirs (fs : t) (p : string) : res unit * t :=
  if String.eqb p "" then (Err ENOENT, fs)
  else mkdirp fs (start (cwd fs) p) (Path.split p).

(** [symlink(target, p)]. *)
Definition symlink (fs : t) (target p : string) : res unit * t :=
  match locate fs p with
  | Err e => (Err e, fs)
  | Ok (AtDir _) => (Err EEXIST, fs)
  | Ok (AtEntry d name) =>
      match nodes fs !! (d ++ [name]) with
      | Some _ => (Err EEXIST, fs)
      | None =>
          if String.eqb target "" then (Err ENOENT, fs)
          else (Ok (), with_nodes (<[d ++ [name] := Symlink target]> (nodes fs)) fs)
      end
  end.

(** [link(existing, p)]: a second name for what [existing] names; a
    directory cannot be linked, and a final symbolic link is not
    followed. *)
Definition link (fs : t) (existing p : string) : res unit * t :=
  match locate fs existing with
  | Err e => (Err e, fs)
  | Ok (AtDir _) => (Err EPERM, fs)
  | Ok (AtEntry d0 name0) =>
      match nodes fs !! (d0 ++ [name0]) with
      | None => (Err ENOENT, fs)
      | Some (Dir _ _) => (Err EPERM, fs)
      | Some n =>
          match locate fs p with
          | Err e => (Err e, fs)
          | Ok (AtDir _) => (Err EEXIST, fs)
          | Ok (AtEntry d name) =>
              match nodes fs !! (d ++ [name]) with
              | Some _ => (Err EEXIST, fs)
              | None => (Ok (), with_nodes (<[d ++ [name] := n]> (nodes fs)) fs)
              end
          end
      end
  end.

(** [utimes(p, atime, mtime)]; the path is followed to its end. *)
Definition utimes (fs : t) (p : string) (at_ mt : Z) : res unit * t :=
  match resolve fs p with
  | Err e => (Err e, fs)
  | Ok c =>
      match nodes fs !! c with
      | Some (Dir _ _) => (Ok (), with_nodes (<[c := Dir at_ mt]> (nodes fs)) fs)
      | Some (File ino) =>
          (Ok (),
           with_inodes
             (alter (λ i, Inode (data i) (mode i) at_ mt) ino (inodes fs)) fs)
      | Some (Symlink _) => (Err ELOOP, fs)
      | None => if bool_decide (c = []) then (Ok (), fs) else (Err ENOENT, fs)
      end
  end.

(** Where [open(p, O_WRONLY | O_CREAT | O_TRUNC)] lands: a symbolic link
    in the last position is followed, also when its target is missing. *)
Fixpoint open_site (fuel : nat) (fs : t) (base : cpath) (p : string)
  : res (cpath * string) :=
  match locate_from fs base p with
  | Err e => Err e
  | Ok (AtDir _) => Err EISDIR
  | Ok (AtEntry d name) =>
      match nodes fs !! (d ++ [name]) with
      | Some (Symlink tgt) =>
          match fuel with
          | O => Err ELOOP
          | S fuel' => open_site fuel' fs d tgt
          end
      | Some (Dir _ _) => Err EISDIR
      | _ => Ok (d, name)
      end
  end.

(** Writing [bytes] through a stream opened by [createWriteStream(p,
    {mode})]: an existing file is truncated and keeps its mode, a missing
    one is created with [mode]. *)
Definition writeFile (fs : t) (p : string) (md : Z) (bytes : list Byte.byte)
  : res unit * t :=
  match open_site MAXSYMLINKS fs (cwd fs) p with
  | Err e => (Err e, fs)
  | Ok (d, name) =>
      match nodes fs !! (d ++ [name]) with
      | Some (File ino) =>
          (Ok (),
           with_inodes
             (alter (λ i, Inode bytes (mode i) (atime i) (clock fs)) ino (inodes fs)) fs)
      | _ =>
          let ino := next_ino fs in
          (Ok (),
           Make (<[d ++ [name] := File ino]> (nodes fs))
                (<[ino := Inode bytes md (clock fs) (clock fs)]> (inodes fs))
                (S ino) (cwd fs) (clock fs))
      end
  end.

(** The bytes behind a path, as [readFile] sees them. *)
Definition readFile (fs : t) (p : string) : option (list Byte.byte) :=
  match resolve fs p with
  | Ok c =>
      match nodes fs !! c with
      | Some (File ino) => data <$> inodes fs !! ino
      | _ => None
      end
  | Err _ => None
  end.

End Fs.

(** ** Entries, streams and options *)

(** Modelled from the spec: the [File] record of
    [@xingrz/decompress-types], whose declaration is not part of the
    sources (the spec's Entry: path, kind, mode, mtime, link target).  The
    fields carry the names under which [write] reads them. *)
Module File.

Inductive kind := file | link | symlink | directory.

#[global] Instance kind_eq_dec : EqDecision kind.
Proof. solve_decision. Defined.

Record t := Make {
  mode : Z;
  mtime : Z;
  path : string;
  type : kind;
  linkname : option string
}.

Definition with_path (p : string) (f : t) : t :=
  Make (mode f) (mtime f) p (type f) (linkname f).

End File.

(** A [Readable]: it starts paused, holding its bytes; [resume] lets them
    flow away unread, [pipeline] hands them to a writer. *)
Module Readable.

Inductive state := Paused | Flowing | Piped | Destroyed.

Record t := Make {
  source : list Byte.byte;
  status : state
}.

End Readable.

(** [DecompressFileWriterOptions].  Entries are objects: a callback gets
    the reference of the entry and the store of all entries; [map]
    returns a reference and the store it leaves behind.  The callbacks are
    taken to return: they raise no exception of their own. *)
Module Options.

Record t := Make {
  filter : option (nat → gmap nat File.t → bool);
  map : option (nat → gmap nat File.t → nat * gmap nat File.t);
  strip : option Z
}.

End Options.

(** ** The world, and computations in it *)

(** What is recorded of a run: the calls that change something, in the
    order they are made, and the two containment tests with the path
    tested and the result ([EvContain] in [safeMakeDir], for the directory
    [dir]; [EvWithin] in [write]). *)
Inductive event :=
| EvContain (dir real : string) (ok : bool)
| EvMkdirs (dir : string)
| EvWithin (real : string) (ok : bool)
| EvLink (existing dest : string)
| EvSymlink (target dest : string)
| EvPipeline (input : nat) (dest : string)
| EvUtimes (dest : string)
| EvResume (input : nat).

Record World := MkWorld {
  fs : Fs.t;
  files : gmap nat File.t;
  streams : gmap nat Readable.t;
  win32 : bool;
  trace : list event
}.

Definition set_fs (x : Fs.t) (w : World) : World :=
  MkWorld x (files w) (streams w) (win32 w) (trace w).
Definition set_files (x : gmap nat File.t) (w : World) : World :=
  MkWorld (fs w) x (streams w) (win32 w) (trace w).
Definition set_streams (x : gmap nat Readable.t) (w : World) : World :=
  MkWorld (fs w) (files w) x (win32 w) (trace w).
Definition emit (e : event) (w : World) : World :=
  MkWorld (fs w) (files w) (streams w) (win32 w) (trace w ++ [e]).

(** The exceptions: the three [Error]s of [src/index.ts], by their
    messages, and those of the calls it makes. *)
Inductive error :=
| RefusingCreateOutside
| RefusingWriteIntoSymlink
| RefusingWriteOutside (real : string)
| SystemError (e : errno)
| StripAbsolutePath
| TypeError.

(** The two errors raised when a path leaves the output directory. *)
Definition is_escape (e : error) : bool :=
  match e with
  | RefusingCreateOutside | RefusingWriteOutside _ => true
  | _ => false
  end.

(** How a computation ends: with a value, with an exception, or cut off
    because the recursion allowance ran out. *)
Inductive outcome (A : Type) : Type :=
| Return (a : A)
| Throw (e : error)
| Unfinished.
Arguments Return {A} a.
Arguments Throw {A} e.
Arguments Unfinished {A}.

Definition M (A : Type) : Type := World → outcome A * World.

Definition ret {A} (a : A) : M A := λ w, (Return a, w).
Definition throw {A} (e : error) : M A := λ w, (Throw e, w).
Definition bind {A B} (m : M A) (k : A → M B) : M B :=
  λ w, match m w with
       | (Return a, w') => k a w'
       | (Throw e, w') => (Throw e, w')
       | (Unfinished, w') => (Unfinished, w')
       end.
Definition try_catch {A} (m : M A) (handler : error → M A) : M A :=
  λ w, match m w with
       | (Throw e, w') => handler e w'
       | r => r
       end.

Declare Scope io_scope.
Delimit Scope io_scope with io.
Notation "x ← m ; k" := (bind m (λ x, k))
  (at level 20, m at level 100, k at level 200, only parsing) : io_scope.
Notation "m ;; k" := (bind m (λ _, k))
  (at level 100, k at level 200, only parsing, right associativity) : io_scope.
Open Scope io_scope.

Definition lift_res {A} (r : res A) : outcome A :=
  match r with
  | Ok a => Return a
  | Err e => Throw (SystemError e)
  end.

(** *** The calls into [fs-extra], [fs] and [stream] *)

Definition realpath (p : string) : M string :=
  λ w, (lift_res (Fs.realpath (fs w) p), w).

Definition readlink (p : string) : M string :=
  λ w, (lift_res (Fs.readlink (fs w) p), w).

Definition mkdirs (p : string) : M unit :=
  λ w, let '(r, fs') := Fs.mkdirs (fs w) p in
       (lift_res r, emit (EvMkdirs p) (set_fs fs' w)).

Definition link (existing dest : string) : M unit :=
  λ w, let '(r, fs') := Fs.link (fs w) existing dest in
       (lift_res r, emit (EvLink existing dest) (set_fs fs' w)).

Definition symlink (target dest : string) : M unit :=
  λ w, let '(r, fs') := Fs.symlink (fs w) target dest in
       (lift_res r, emit (EvSymlink target dest) (set_fs fs' w)).

Definition utimes (dest : string) (atime mtime : Z) : M unit :=
  λ w, let '(r, fs') := Fs.utimes (fs w) dest atime mtime in
       (lift_res r, emit (EvUtimes dest) (set_fs fs' w)).

(** [new Date()]. *)
Definition Date_now : M Z := λ w, (Return (Fs.clock (fs w)), w).

(** [input.resume()]: a paused stream starts flowing. *)
Definition resume (input : nat) : M unit :=
  λ w, (Return (),
        emit (EvResume input)
          (set_streams
             (alter (λ r, match Readable.status r with
                          | Readable.Paused => Readable.Make (Readable.source r) Readable.Flowing
                          | _ => r
                          end) input (streams w)) w)).

(** The bytes a stream still has to give. *)
Definition pending (r : option Readable.t) : list Byte.byte :=
  match r with
  | Some r =>
      match Readable.status r with
      | Readable.Paused => Readable.source r
      | _ => []
      end
  | None => []
  end.

(** [pipeline(input, createWriteStream(dest, {mode}))]: on success the
    stream has been read to its end, on failure it is destroyed. *)
Definition pipeline (input : nat) (dest : string) (mode : Z) : M unit :=
  λ w, let bytes := pending (streams w !! input) in
       let '(r, fs') := Fs.writeFile (fs w) dest mode bytes in
       let st := match r with Ok _ => Readable.Piped | Err _ => Readable.Destroyed end in
       (lift_res r,
        emit (EvPipeline input dest)
          (set_streams
             (alter (λ r, Readable.Make (Readable.source r) st) input (streams w))
             (set_fs fs' w))).

(** Reading and assigning the fields of an entry object. *)
Definition get_file (file : nat) : M File.t :=
  λ w, match files w !! file with
       | Some f => (Return f, w)
       | None => (Throw TypeError, w)
       end.

Definition set_path (file : nat) (p : string) : M unit :=
  λ w, (Return (), set_files (alter (File.with_path p) file (files w)) w).

Definition stripDirs (p : string) (count : Z) : M string :=
  match StripDirs.stripDirs p (Z.to_nat count) with
  | Some p' => ret p'
  | None => throw StripAbsolutePath
  end.

(** [file.linkname!]: used as a string, an absent name is a [TypeError]. *)
Definition the_linkname (f : File.t) : M string :=
  match File.linkname f with
  | Some l => ret l
  | None => throw TypeError
  end.

(** [process.platform === 'win32']. *)
Definition platform_is_win32 : M bool := λ w, (Return (win32 w), w).

Definition call_filter (f : nat → gmap nat File.t → bool) (file : nat) : M bool :=
  λ w, (Return (f file (files w)), w).

Definition call_map (f : nat → gmap nat File.t → nat * gmap nat File.t) (file : nat)
  : M nat :=
  λ w, let '(file', store) := f file (files w) in
       (Return file', set_files store w).

(** The test [real.startsWith(realOutputPath)], recorded with its result. *)
Definition contained (dir real realOutputPath : string) : M bool :=
  λ w, let ok := startsWith real realOutputPath in
       (Return ok, emit (EvContain dir real ok) w).

Definition within (real realOutputPath : string) : M bool :=
  λ w, let ok := startsWith real realOutputPath in
       (Return ok, emit (EvWithin real ok) w).

(** ** [src/index.ts] *)

(** [safeMakeDir]; [fuel] bounds the depth of the recursion. *)
Fixpoint safeMakeDir_rec (fuel : nat) (dir realOutputPath : string) : M string :=
  match fuel with
  | O => λ w, (Unfinished, w)
  | S fuel' =>
      realParentPath ←
        try_catch (realpath dir)
          (λ _, let parent := Path.dirname dir in
                safeMakeDir_rec fuel' parent realOutputPath);
      ok ← contained dir realParentPath realOutputPath;
      if negb ok then throw RefusingCreateOutside
      else
        mkdirs dir;;
        realpath dir
  end.

(** The recursion goes up one directory at a time, so the number of
    segments of [dir] bounds its depth. *)
Definition depth_bound (dir : string) : nat := S (S (Path.nseg dir)).

Definition safeMakeDir (dir realOutputPath : string) : M string :=
  safeMakeDir_rec (depth_bound dir) dir realOutputPath.

(** JS truthiness of a string: every string but the empty one. *)
Definition truthy (s : string) : bool := negb (String.eqb s "").

(** [preventWritingThroughSymlink]; [None] stands for the [return] of the
    [catch] block. *)
Definition preventWritingThroughSymlink (destination : string) : M unit :=
  symlinkPointsTo ←
    try_catch (t ← readlink destination; ret (Some t)) (λ _, ret None);
  match symlinkPointsTo with
  | None => ret ()
  | Some symlinkPointsTo =>
      if truthy symlinkPointsTo then throw RefusingWriteIntoSymlink
      else ret ()
  end.

(** [write]. *)
Definition write (file : nat) (input : option nat) (output : string)
    (opts : option Options.t) : M unit :=
  let strip := default 0%Z (opts ≫= Options.strip) in
  stripped_away ←
    (if (0 <? strip)%Z then
       f ← get_file file;
       p ← stripDirs (File.path f) strip;
       set_path file p;;
       f ← get_file file;
       ret (String.eqb (File.path f) ".")
     else ret false);
  if stripped_away : bool then ret ()
  else
    keep ←
      match opts ≫= Options.filter with
      | Some filter => call_filter filter file
      | None => ret true
      end;
    if negb keep then
      match input with
      | Some input => resume input
      | None => ret ()
      end
    else
      file ←
        match opts ≫= Options.map with
        | Some map => call_map map file
        | None => ret file
        end;
      f ← get_file file;
      let dest := Path.join output (File.path f) in
      now ← Date_now;
      mkdirs output;;
      realOutputPath ← realpath output;
      if decide (File.type f = File.directory) then
        safeMakeDir dest realOutputPath;;
        utimes dest now (File.mtime f)
      else
        safeMakeDir (Path.dirname dest) realOutputPath;;
        (if decide (File.type f = File.file)
         then preventWritingThroughSymlink dest else ret ());;
        realDestinationDir ← realpath (Path.dirname dest);
        ok ← within realDestinationDir realOutputPath;
        if negb ok then throw (RefusingWriteOutside realDestinationDir)
        else
          (match File.type f with
           | File.link =>
               linkname ← the_linkname f;
               link (Path.join output linkname) dest
           | File.symlink =>
               on_win32 ← platform_is_win32;
               if on_win32 : bool then
                 linkname ← the_linkname f;
                 link (Path.join output linkname) dest
               else
                 linkname ← the_linkname f;
                 symlink linkname dest
           | _ => ret ()
           end);;
          match File.type f, input with
          | File.file, Some input =>
              pipeline input dest (File.mode f);;
              utimes dest now (File.mtime f)
          | _, _ => ret ()
          end.

(** ** [test/decompress-filewriter.test.ts] *)

(** [SegmentStream], the stream the tests feed [write] with: a readable
    stream over a buffer, given out in segments of [size] bytes. *)
Module SegmentStream.

Record t := Make {
  source : list Byte.byte;
  offset : nat;
  size : nat
}.

(** The constructor, with the initial values of the fields. *)
Definition new (source : list Byte.byte) : t := Make source 0 20.

(** [_read]: what is pushed, [None] standing for the [null] that ends
    the stream, and the stream after the call. *)
Definition _read (s : t) : option (list Byte.byte) * t :=
  if (length (source s) <=? offset s)%nat then (None, s)
  else
    let buf := take (size s) (drop (offset s) (source s)) in
    (Some buf, Make (source s) (offset s + length buf) (size s)).

(** What the first [n] calls of [_read] push, and whether the end of the
    stream was among it ([_read] is not called again after it). *)
Fixpoint segments (n : nat) (s : t) : list (list Byte.byte) * bool :=
  match n with
  | O => ([], false)
  | S n' =>
      match _read s with
      | (None, _) => ([], true)
      | (Some buf, s') =>
          let '(rest, ended) := segments n' s' in (buf :: rest, ended)
      end
  end.

End SegmentStream.


(** ** Vocabulary for the statements *)

(** What one level of [safeMakeDir] does once [realParentPath] is known. *)
Definition finish_level (dir realOutputPath realParentPath : string) : M string :=
  ok ← contained dir realParentPath realOutputPath;
  if negb ok then throw RefusingCreateOutside
  else
    mkdirs dir;;
    realpath dir.

(** The directory [k] levels above [dir], and the first [n] of them. *)
Fixpoint ancestor (k : nat) (dir : string) : string :=
  match k with
  | O => dir
  | S k' => ancestor k' (Path.dirname dir)
  end.

Fixpoint chain (n : nat) (dir : string) : list string :=
  match n with
  | O => []
  | S n' => dir :: chain n' (Path.dirname dir)
  end.

(** The events of a level that passed its test: the test, then [mkdirs]. *)
Definition level_events (levels : list (string * string)) : list event :=
  levels ≫= λ '(dir, real), [EvContain dir real true; EvMkdirs dir].

(** The last part of [write]: the link for a link entry, the content and
    the times for a file entry. *)
Definition deliver (f : File.t) (input : option nat) (output dest : string) (now : Z)
  : M unit :=
  (match File.type f with
   | File.link =>
       linkname ← the_linkname f;
       link (Path.join output linkname) dest
   | File.symlink =>
       on_win32 ← platform_is_win32;
       if on_win32 : bool then
         linkname ← the_linkname f;
         link (Path.join output linkname) dest
       else
         linkname ← the_linkname f;
         symlink linkname dest
   | _ => ret ()
   end);;
  match File.type f, input with
  | File.file, Some input =>
      pipeline input dest (File.mode f);;
      utimes dest now (File.mtime f)
  | _, _ => ret ()
  end.

(** What [write] does with the entry once stripping, filtering and
    mapping are over (from the computation of [dest] on). *)
Definition place (f : File.t) (input : option nat) (output : string) : M unit :=
  let dest := Path.join output (File.path f) in
  now ← Date_now;
  mkdirs output;;
  realOutputPath ← realpath output;
  if decide (File.type f = File.directory) then
    safeMakeDir dest realOutputPath;;
    utimes dest now (File.mtime f)
  else
    safeMakeDir (Path.dirname dest) realOutputPath;;
    (if decide (File.type f = File.file)
     then preventWritingThroughSymlink dest else ret ());;
    realDestinationDir ← realpath (Path.dirname dest);
    ok ← within realDestinationDir realOutputPath;
    if negb ok then throw (RefusingWriteOutside realDestinationDir)
    else deliver f input output dest now.

(** Whether the symlink guard stops the entry [f] bound for [dest]. *)
Definition guard_blocks (x : Fs.t) (f : File.t) (dest : string) : bool :=
  match File.type f, Fs.readlink x dest with
  | File.file, Ok target => truthy target
  | _, _ => false
  end.

(** The link call [write] makes for a hard or symbolic link entry. *)
Definition link_call (x : Fs.t) (on_win32 : bool) (f : File.t) (output linkname : string)
  : res unit * Fs.t :=
  let dest := Path.join output (File.path f) in
  match File.type f with
  | File.symlink =>
      if on_win32 then Fs.link x (Path.join output linkname) dest
      else Fs.symlink x linkname dest
  | _ => Fs.link x (Path.join output linkname) dest
  end.

Definition link_event (on_win32 : bool) (f : File.t) (output linkname : string) : event :=
  let dest := Path.join output (File.path f) in
  match File.type f with
  | File.symlink =>
      if on_win32 then EvLink (Path.join output linkname) dest
      else EvSymlink linkname dest
  | _ => EvLink (Path.join output linkname) dest
  end.

(** The first part of [write], step by step: stripping (the result tells
    whether the stripped path is ["."]), filtering, letting the content go,
    mapping. *)
Definition strip_step (file : nat) (opts : option Options.t) : M bool :=
  let strip := default 0%Z (opts ≫= Options.strip) in
  if (0 <? strip)%Z then
    f ← get_file file;
    p ← stripDirs (File.path f) strip;
    set_path file p;;
    f ← get_file file;
    ret (String.eqb (File.path f) ".")
  else ret false.

Definition filter_step (file : nat) (opts : option Options.t) : M bool :=
  match opts ≫= Options.filter with
  | Some filter => call_filter filter file
  | None => ret true
  end.

Definition discard (input : option nat) : M unit :=
  match input with
  | Some input => resume input
  | None => ret ()
  end.

Definition map_step (file : nat) (opts : option Options.t) : M nat :=
  match opts ≫= Options.map with
  | Some map => call_map map file
  | None => ret file
  end.

(** The policy as a whole: [None] when [write] returns there, and the
    reference of the entry to be placed otherwise. *)
Definition policy (file : nat) (input : option nat) (opts : option Options.t)
  : M (option nat) :=
  stripped_away ← strip_step file opts;
  if stripped_away : bool then ret None
  else
    keep ← filter_step file opts;
    if negb keep then discard input;; ret None
    else
      file ← map_step file opts;
      ret (Some file).

(** Between two worlds of one run of [place]: the entry objects and the
    platform are the same, and the trace has only grown. *)
Definition follows (w w' : World) : Prop :=
  files w' = files w ∧ win32 w' = win32 w ∧ ∃ evs, trace w' = trace w ++ evs.

Definition steady {A} (m : M A) : Prop :=
  ∀ w r w', m w = (r, w') → follows w w'.

Create HintDb steady discriminated.

(** ** Vocabulary for the further properties *)

(** What path resolution sees of a node: its kind and, for a symbolic
    link, its target. *)
Definition shape (n : Fs.node) : Fs.node :=
  match n with
  | Fs.Dir _ _ => Fs.Dir 0 0
  | Fs.File _ => Fs.File 0
  | Fs.Symlink t => Fs.Symlink t
  end.

(** [x'] has every name of [x], of the same kind and, for a symbolic
    link, with the same target; times and contents may differ, and there
    may be more names. *)
Definition extends (x x' : Fs.t) : Prop :=
  Fs.cwd x' = Fs.cwd x ∧
  ∀ p n, Fs.nodes x !! p = Some n →
         ∃ n', Fs.nodes x' !! p = Some n' ∧ shape n' = shape n.

(** [x'] is [x] with directories added and nothing else changed. *)
Definition adds_dirs (x x' : Fs.t) : Prop :=
  Fs.inodes x' = Fs.inodes x ∧ Fs.next_ino x' = Fs.next_ino x ∧
  Fs.cwd x' = Fs.cwd x ∧ Fs.clock x' = Fs.clock x ∧
  ∀ p, Fs.nodes x' !! p = Fs.nodes x !! p ∨
       (Fs.nodes x !! p = None ∧ ∃ a m, Fs.nodes x' !! p = Some (Fs.Dir a m)).

(** Every name of a regular file has its content and times. *)
Definition well_formed (x : Fs.t) : Prop :=
  ∀ p ino, Fs.nodes x !! p = Some (Fs.File ino) → is_Some (Fs.inodes x !! ino).

Definition has_inode (x : Fs.t) (n : Fs.node) : bool :=
  match n with
  | Fs.File ino => bool_decide (is_Some (Fs.inodes x !! ino))
  | _ => true
  end.

Definition well_formed_b (x : Fs.t) : bool :=
  bool_decide (map_Forall (λ _ n, has_inode x n = true) (Fs.nodes x)).

(** What a computation leaves as it is: [keeps R m] when the worlds before
    and after every run of [m] are related by [R]. *)
Definition keeps (R : World → World → Prop) {A} (m : M A) : Prop :=
  ∀ w r w', m w = (r, w') → R w w'.

(** A relation between the worlds of a run that no bookkeeping disturbs,
    nor the creation of directories ... *)
Class Frame (R : World → World → Prop) : Prop := {
  frame_refl : ∀ w, R w w;
  frame_trans : ∀ w1 w2 w3, R w1 w2 → R w2 w3 → R w1 w3;
  frame_emit : ∀ e w, R w (emit e w);
  frame_files : ∀ x w, R w (set_files x w);
  frame_mkdir : ∀ x w, adds_dirs (fs w) x → R w (set_fs x w)
}.

(** ... nor any call that only adds names or sets times or content ... *)
Class FrameFs (R : World → World → Prop) : Prop :=
  frame_fs : ∀ x w, extends (fs w) x → R w (set_fs x w).

(** ... nor what happens to the streams. *)
Class FrameStreams (R : World → World → Prop) : Prop :=
  frame_streams : ∀ s w, R w (set_streams s w).

Definition dirs_only (w w' : World) : Prop :=
  adds_dirs (fs w) (fs w') ∧ streams w' = streams w.

Definition same_streams (w w' : World) : Prop := streams w' = streams w.

Definition fs_extends (w w' : World) : Prop := extends (fs w) (fs w').

Create HintDb keeps discriminated.

(** What [input.resume()] makes of a stream. *)
Definition flowing (r : Readable.t) : Readable.t :=
  match Readable.status r with
  | Readable.Paused => Readable.Make (Readable.source r) Readable.Flowing
  | _ => r
  end.

(** The directory [write] asks [safeMakeDir] for: the destination of a
    directory entry, the parent of the destination of any other. *)
Definition made_dir (f : File.t) (output : string) : string :=
  let dest := Path.join output (File.path f) in
  if decide (File.type f = File.directory) then dest else Path.dirname dest.

(** The options without the stripping. *)
Definition without_strip (o : Options.t) : Options.t :=
  Options.Make (Options.filter o) (Options.map o) None.

(** The working directory exists. *)
Definition cwd_exists (w : World) : Prop :=
  Fs.is_dir (fs w) (Fs.cwd (fs w)) = true.

(** [m] comes to an end in every world where the working directory
    exists, and leaves the working directory in place. *)
Definition total {A} (m : M A) : Prop :=
  ∀ w, cwd_exists w → (m w).1 ≠ Unfinished ∧ cwd_exists (m w).2.

(** The exceptions of [m] are among [S]. *)
Definition throws_only {A} (S : error → Prop) (m : M A) : Prop :=
  ∀ w e w', m w = (Throw e, w') → S e.

Create HintDb total discriminated.
Create HintDb throws discriminated.

(** ** Sample worlds *)

Module Sample.

Definition bytes : list Byte.byte := [Byte.x68; Byte.x69].
Definition secret : list Byte.byte := [Byte.x72; Byte.x6f; Byte.x6f; Byte.x74].

(** [/out], [/out-evil], [/etc] and the file [/etc/passwd]. *)
Definition disk : Fs.t :=
  Fs.Make
    (<[["etc"; "passwd"] := Fs.File 1]>
       (<[["etc"] := Fs.Dir 0 0]>
          (<[["out-evil"] := Fs.Dir 0 0]>
             (<[["out"] := Fs.Dir 0 0]> ∅))))
    (<[1 := Fs.Inode secret 420 0 0]> ∅)
    2 [] 1000.

(** The same with a symbolic link at [/out/p]. *)
Definition disk_with_link (target : string) : Fs.t :=
  Fs.with_nodes (<[["out"; "p"] := Fs.Symlink target]> (Fs.nodes disk)) disk.

Definition entry (kind : File.kind) (path : string) (linkname : option string)
  : File.t :=
  File.Make 420 500 path kind linkname.

(** One entry object, at reference [0], and one paused stream, also at
    reference [0]. *)
Definition world (x : Fs.t) (f : File.t) : World :=
  MkWorld x {[0 := f]} {[0 := Readable.Make bytes Readable.Paused]} false [].

Definition strip_only (n : Z) : Options.t := Options.Make None None (Some n).

(** The file system of the tests on symbolic links: [/out/generic_dir]
    with a link to its parent in it, and the links of [links] in [/out]. *)
Definition disk_with_links (links : list (string * string)) : Fs.t :=
  Fs.with_nodes
    (foldr (λ '(name, target) ns, <[["out"; name] := Fs.Symlink target]> ns)
       (<[["out"; "generic_dir"; "symlink_to_parent_dir"] := Fs.Symlink "../"]>
          (<[["out"; "generic_dir"] := Fs.Dir 0 0]> (Fs.nodes disk)))
       links)
    disk.

(** [n] times down into [generic_dir] and up again through the link. *)
Fixpoint hops (n : nat) : string :=
  match n with
  | O => ""
  | S n' => "generic_dir/symlink_to_parent_dir/" +:+ hops n'
  end.

End Sample.

Example dirname_ex1 : Path.dirname "/out/a/b" = "/out/a". Proof. reflexivity. Qed.
Example dirname_ex2 : Path.dirname "/out" = "/". Proof. reflexivity. Qed.
Example dirname_ex3 : Path.dirname "/" = "/". Proof. reflexivity. Qed.
Example dirname_ex4 : Path.dirname "a" = ".". Proof. reflexivity. Qed.
Example dirname_ex5 : Path.dirname "a//b" = "a/". Proof. reflexivity. Qed.
Example dirname_ex6 : Path.dirname "//a" = "//". Proof. reflexivity. Qed.
Example dirname_ex7 : Path.dirname "/out/a/" = "/out". Proof. reflexivity. Qed.
Example dirname_ex8 : Path.dirname "" = ".". Proof. reflexivity. Qed.
Example join_ex1 : Path.join "/out" "a/b/../c" = "/out/a/c". Proof. reflexivity. Qed.
Example join_ex2 : Path.join "/out" "../../evil.bin" = "/evil.bin". Proof. reflexivity. Qed.
Example join_ex3 : Path.join "out" "../../evil.bin" = "../evil.bin". Proof. reflexivity. Qed.
Example join_ex4 : Path.join "/out" "a/" = "/out/a/". Proof. reflexivity. Qed.
Example join_ex5 : Path.join "/out" "/abs" = "/out/abs". Proof. reflexivity. Qed.
Example join_ex6 : Path.join "" "" = ".". Proof. reflexivity. Qed.
Example join_ex7 : Path.join "/out" "." = "/out". Proof. reflexivity. Qed.
Example normalize_ex1 : Path.normalize "./a//b/" = "a/b/". Proof. reflexivity. Qed.
Example normalize_ex2 : Path.normalize "a/.." = ".". Proof. reflexivity. Qed.
Example normalize_ex3 : Path.normalize "../../a" = "../../a". Proof. reflexivity. Qed.
Example split_ex1 : Path.split "a/b/" = ["a"; "b"; ""]. Proof. reflexivity. Qed.
Example strip_ex1 : StripDirs.stripDirs "subdir/a/b/c/test.bin" 1 = Some "a/b/c/test.bin".
Proof. reflexivity. Qed.
Example strip_ex2 : StripDirs.stripDirs "a/b" 2 = Some "b". Proof. reflexivity. Qed.
Example strip_ex3 : StripDirs.stripDirs "a/" 1 = Some ".". Proof. reflexivity. Qed.
Example strip_ex4 : StripDirs.stripDirs "a" 1 = Some "a". Proof. reflexivity. Qed.
Example strip_ex5 : StripDirs.stripDirs "./a/b" 1 = Some "b". Proof. reflexivity. Qed.
Example strip_ex6 : StripDirs.stripDirs "/a/b" 1 = None. Proof. reflexivity. Qed.
Example strip_ex7 : StripDirs.stripDirs "" 3 = Some ".". Proof. reflexivity. Qed.

(** ** The test suite, replayed on the model *)

(** 'write file' and 'set mtime'. *)
Example test_write_file :
  let run := write 0 (Some 0) "/out" None
               (Sample.world Sample.disk (Sample.entry File.file "test.bin" None)) in
  run.1 = Return () ∧
  Fs.readFile (fs run.2) "/out/test.bin" = Some Sample.bytes ∧
  Fs.nodes (fs run.2) !! ["out"; "test.bin"] = Some (Fs.File 2) ∧
  Fs.mtime <$> Fs.inodes (fs run.2) !! 2 = Some 500%Z.
Proof. vm_compute. repeat split. Qed.

(** 'write file in subdir'. *)
Example test_write_file_in_subdir :
  let run := write 0 (Some 0) "/out" None
               (Sample.world Sample.disk
                  (Sample.entry File.file "subdir/a/b/c/test.bin" None)) in
  run.1 = Return () ∧
  Fs.readFile (fs run.2) "/out/subdir/a/b/c/test.bin" = Some Sample.bytes.
Proof. vm_compute. repeat split. Qed.

(** 'write symlink': [link] leads to [real]. *)
Example test_write_symlink :
  let x := Fs.Make (<[["out"; "real"] := Fs.File 2]> (Fs.nodes Sample.disk))
             (<[2 := Fs.Inode [] 420 0 0]> (Fs.inodes Sample.disk)) 3 [] 1000 in
  let run := write 0 None "/out" None
               (Sample.world x (Sample.entry File.symlink "link" (Some "real"))) in
  run.1 = Return () ∧
  Fs.realpath (fs run.2) "/out/link" = Ok "/out/real".
Proof. vm_compute. repeat split. Qed.

(** 'write hardlink': one inode under both names. *)
Example test_write_hardlink :
  let x := Fs.Make (<[["out"; "real"] := Fs.File 2]> (Fs.nodes Sample.disk))
             (<[2 := Fs.Inode Sample.bytes 420 0 0]> (Fs.inodes Sample.disk))
             3 [] 1000 in
  let run := write 0 None "/out" None
               (Sample.world x (Sample.entry File.link "link" (Some "real"))) in
  run.1 = Return () ∧
  Fs.readFile (fs run.2) "/out/link" = Some Sample.bytes ∧
  Fs.nodes (fs run.2) !! ["out"; "link"] = Fs.nodes (fs run.2) !! ["out"; "real"].
Proof. vm_compute. repeat split. Qed.

(** 'write directory'. *)
Example test_write_directory :
  let run := write 0 None "/out" None
               (Sample.world Sample.disk (Sample.entry File.directory "test" None)) in
  run.1 = Return () ∧
  Fs.is_dir (fs run.2) ["out"; "test"] = true.
Proof. vm_compute. repeat split. Qed.

(** 'strip option'. *)
Example test_strip_option :
  let run := write 0 (Some 0) "/out" (Some (Sample.strip_only 1))
               (Sample.world Sample.disk
                  (Sample.entry File.file "subdir/a/b/c/test.bin" None)) in
  run.1 = Return () ∧
  Fs.readFile (fs run.2) "/out/a/b/c/test.bin" = Some Sample.bytes ∧
  Fs.nodes (fs run.2) !! ["out"; "subdir"] = None.
Proof. vm_compute. repeat split. Qed.

(** 'filter option': the filtered entry is not written and its stream is
    set flowing; the other one is written. *)
Example test_filter_option :
  let filter (file : nat) (store : gmap nat File.t) : bool :=
    match store !! file with
    | Some f => negb (String.eqb (File.path f) "test1.bin")
    | None => true
    end in
  let opts := Options.Make (Some filter) None None in
  let run1 := write 0 (Some 0) "/out" (Some opts)
                (Sample.world Sample.disk (Sample.entry File.file "test1.bin" None)) in
  let run2 := write 0 (Some 0) "/out" (Some opts)
                (Sample.world Sample.disk (Sample.entry File.file "test2.bin" None)) in
  run1.1 = Return () ∧
  fs run1.2 = Sample.disk ∧
  Readable.status <$> streams run1.2 !! 0 = Some Readable.Flowing ∧
  run2.1 = Return () ∧
  Fs.readFile (fs run2.2) "/out/test2.bin" = Some Sample.bytes.
Proof. vm_compute. repeat split. Qed.

(** 'map option': the callback renames the entry object it is given. *)
Example test_map_option :
  let map (file : nat) (store : gmap nat File.t) : nat * gmap nat File.t :=
    (file, alter (λ f, File.with_path ("unicorn-" +:+ File.path f) f) file store) in
  let opts := Options.Make None (Some map) None in
  let run := write 0 (Some 0) "/out" (Some opts)
               (Sample.world Sample.disk (Sample.entry File.file "test.bin" None)) in
  run.1 = Return () ∧
  Fs.readFile (fs run.2) "/out/unicorn-test.bin" = Some Sample.bytes ∧
  File.path <$> files run.2 !! 0 = Some "unicorn-test.bin".
Proof. vm_compute. repeat split. Qed.

(** 'throw when a location outside the root is given'. *)
Example test_outside_root :
  let run := write 0 (Some 0) "/out" None
               (Sample.world Sample.disk (Sample.entry File.file "../../test.bin" None)) in
  run.1 = Throw RefusingCreateOutside ∧ fs run.2 = Sample.disk.
Proof. vm_compute. repeat split. Qed.

(** 'throw when a location outside the root including symlinks is given'. *)
Example test_outside_root_through_links :
  let x := Sample.disk_with_links [("symlink_to_root", "/")] in
  let path := Sample.hops 20 +:+ "symlink_to_root/tmp/slipped_zip.txt" in
  let run := write 0 (Some 0) "/out" None
               (Sample.world x (Sample.entry File.file path None)) in
  run.1 = Throw RefusingCreateOutside ∧ fs run.2 = x.
Proof. vm_compute. repeat split. Qed.

(** 'throw when a top-level symlink outside the root is given'. *)
Example test_top_level_link_outside_root :
  let x := Sample.disk_with_links [("slipped_zip_2.txt", "/tmp/slipped_zip_2.txt")] in
  let path := Sample.hops 20 +:+ "slipped_zip_2.txt" in
  let run := write 0 (Some 0) "/out" None
               (Sample.world x (Sample.entry File.file path None)) in
  run.1 = Throw RefusingWriteIntoSymlink ∧ fs run.2 = x.
Proof. vm_compute. repeat split. Qed.

(** 'throw when chained symlinks to /tmp/dist allow escape outside root
    directory'. *)
Example test_chained_links_outside_root :
  let x := Sample.disk_with_links
             [("first_link", "second_link");
              ("second_link", "/var/tmp/slipped_zip_3.txt")] in
  let path := Sample.hops 25 +:+ "first_link" in
  let run := write 0 (Some 0) "/out" None
               (Sample.world x (Sample.entry File.file path None)) in
  run.1 = Throw RefusingWriteIntoSymlink ∧ fs run.2 = x.
Proof. vm_compute. repeat split. Qed.


#[global] Arguments startsWith : simpl never.
#[global] Arguments Path.join : simpl never.
#[global] Arguments Path.dirname : simpl never.
#[global] Arguments Path.nseg : simpl never.
#[global] Arguments StripDirs.stripDirs : simpl never.
#[global] Arguments Fs.realpath : simpl never.
#[global] Arguments Fs.resolve : simpl never.
#[global] Arguments Fs.readlink : simpl never.
#[global] Arguments Fs.mkdirs : simpl never.
#[global] Arguments Fs.symlink : simpl never.
#[global] Arguments Fs.link : simpl never.
#[global] Arguments Fs.utimes : simpl never.
#[global] Arguments Fs.writeFile : simpl never.
#[global] Arguments Fs.render : simpl never.
#[global] Arguments Fs.is_dir : simpl never.
#[global] Arguments truthy : simpl never.

(** * Facts about paths *)

Section PathFacts.

Lemma chars_str l : chars (str l) = l.
Proof. apply String.list_ascii_of_string_of_list_ascii. Qed.

Lemma split_chars_nonnil s : Path.split_chars s ≠ [].
Proof.
  destruct s as [|c s]; simpl; [done|].
  destruct (is_sep c); [done|]. by destruct (Path.split_chars s).
Qed.

Lemma split_chars_app_sep a c b :
  is_sep c = true →
  Path.split_chars (a ++ c :: b) = Path.split_chars a ++ Path.split_chars b.
Proof.
  intros Hc. induction a as [|x a IH]; simpl.
  - by rewrite Hc.
  - rewrite IH. destruct (is_sep x); [done|].
    pose proof (split_chars_nonnil a) as Hne.
    by destruct (Path.split_chars a).
Qed.

Lemma nseg_chars_app_sep a c b :
  is_sep c = true →
  Path.nseg_chars (a ++ c :: b) = Path.nseg_chars a + Path.nseg_chars b.
Proof.
  intros Hc. unfold Path.nseg_chars.
  by rewrite split_chars_app_sep, filter_app, length_app.
Qed.

Lemma nseg_chars_pos l :
  (∃ c, c ∈ l ∧ is_sep c = false) → 0 < Path.nseg_chars l.
Proof.
  unfold Path.nseg_chars. induction l as [|x l IH]; intros (c & Hin & Hc).
  - by apply elem_of_nil in Hin.
  - simpl. destruct (is_sep x) eqn:Hx.
    + rewrite filter_cons_False by (intros H; by apply H).
      apply IH. exists c. split; [|done].
      apply elem_of_cons in Hin as [->|]; [congruence|done].
    + pose proof (split_chars_nonnil l).
      destruct (Path.split_chars l) as [|h t]; [done|].
      rewrite filter_cons_True by done. simpl. lia.
Qed.

Lemma dirname_scan_some m r r3 :
  Path.dirname_scan m r = Some r3 →
  ∃ mid c, r = mid ++ c :: r3 ∧ is_sep c = true ∧
           (m = true → ∃ x, x ∈ mid ∧ is_sep x = false).
Proof.
  revert m. induction r as [|x r IH]; intros m; simpl; [done|].
  destruct (is_sep x) eqn:Hx.
  - destruct m.
    + intros (mid & c & -> & Hc & Hex)%IH. exists (x :: mid), c.
      split_and!; [done..|]. intros _. destruct (Hex eq_refl) as (y & ? & ?).
      exists y. split; [by apply list_elem_of_further|done].
    + intros [= ->]. exists [], x. by split_and!.
  - intros (mid & c & -> & Hc & _)%IH. exists (x :: mid), c.
    split_and!; [done..|]. intros _. exists x. split; [apply list_elem_of_here|done].
Qed.

Lemma dirname_chars_cases p :
  Path.dirname_chars p = chars "/" ∨ Path.dirname_chars p = chars "." ∨
  Path.nseg_chars (Path.dirname_chars p) < Path.nseg_chars p.
Proof.
  destruct p as [|c0 rest]; [by right; left|]. simpl.
  destruct (Path.dirname_scan true (rev rest)) as [r3|] eqn:Hscan;
    [|destruct (is_sep c0); auto].
  right; right.
  apply dirname_scan_some in Hscan as (mid & c & Hrev & Hc & Hex).
  destruct (Hex eq_refl) as (x & Hx & Hxsep).
  assert (rest = rev r3 ++ c :: rev mid) as ->.
  { rewrite <-(rev_involutive rest), Hrev, rev_app_distr. simpl.
    by rewrite <-app_assoc. }
  assert (0 < Path.nseg_chars (rev mid)) as Hpos.
  { apply nseg_chars_pos. exists x. split; [|done].
    apply list_elem_of_In, in_rev. rewrite rev_involutive.
    by apply list_elem_of_In. }
  rewrite app_comm_cons, nseg_chars_app_sep by done.
  destruct (is_sep c0) eqn:Hc0; simpl; [|lia].
  case_bool_decide as Hr3; [|lia].
  assert (Path.nseg_chars ["/"%char; "/"%char] = 0) as -> by reflexivity. lia.
Qed.

Lemma dirname_cases p :
  Path.dirname p = "/" ∨ Path.dirname p = "." ∨
  Path.nseg (Path.dirname p) < Path.nseg p.
Proof.
  unfold Path.dirname, Path.nseg. rewrite chars_str.
  destruct (dirname_chars_cases (chars p)) as [H|[H|H]].
  - left. by rewrite H.
  - right; left. by rewrite H.
  - by right; right.
Qed.

Lemma isAbsolute_dirname p :
  Path.isAbsolute p = true → Path.isAbsolute (Path.dirname p) = true.
Proof.
  unfold Path.dirname. destruct p as [|c0 p]; [done|]. simpl. intros Hc0.
  rewrite Hc0. destruct (Path.dirname_scan _ _); simpl; [|done].
  case_bool_decide; simpl; done.
Qed.

End PathFacts.

(** * Facts about the file system *)

Section FsFacts.

Lemma walk_cons fuel x cur s rest :
  Fs.walk fuel x cur (s :: rest) =
  if negb (Fs.is_dir x cur) then Err ENOTDIR
  else if Fs.is_skip s then Fs.walk fuel x cur rest
  else if String.eqb s ".." then Fs.walk fuel x (Fs.parent cur) rest
  else
    match Fs.nodes x !! (cur ++ [s]) with
    | None => Err ENOENT
    | Some (Fs.Symlink tgt) =>
        match fuel with
        | O => Err ELOOP
        | S fuel' =>
            if String.eqb tgt "" then Err ENOENT
            else
              match Fs.walk fuel' x (Fs.start cur tgt) (Path.split tgt) with
              | Ok c => Fs.walk fuel x c rest
              | Err e => Err e
              end
        end
    | Some _ => Fs.walk fuel x (cur ++ [s]) rest
    end.
Proof. by destruct fuel. Qed.

Lemma walk_nil fuel x cur : Fs.walk fuel x cur [] = Ok cur.
Proof. by destruct fuel. Qed.

(** Resolution goes name by name. *)
Lemma walk_step fuel x cur s rest :
  Fs.walk fuel x cur (s :: rest) =
  match Fs.walk fuel x cur [s] with
  | Ok c => Fs.walk fuel x c rest
  | Err e => Err e
  end.
Proof.
  rewrite !walk_cons. destruct (negb (Fs.is_dir x cur)); [done|].
  destruct (Fs.is_skip s); [by rewrite walk_nil|].
  destruct (String.eqb s ".."); [by rewrite walk_nil|].
  destruct (Fs.nodes x !! (cur ++ [s])) as [[]|]; rewrite ?walk_nil; try done.
  destruct fuel; [done|]. destruct (String.eqb target ""); [done|].
  by destruct (Fs.walk fuel x _ _).
Qed.

Lemma mkdirp_cons x cur s rest :
  Fs.mkdirp x cur (s :: rest) =
  if negb (Fs.is_dir x cur) then (Err ENOTDIR, x)
  else if Fs.is_skip s then Fs.mkdirp x cur rest
  else if String.eqb s ".." then Fs.mkdirp x (Fs.parent cur) rest
  else
    match Fs.nodes x !! (cur ++ [s]) with
    | None =>
        Fs.mkdirp
          (Fs.with_nodes
             (<[cur ++ [s] := Fs.Dir (Fs.clock x) (Fs.clock x)]> (Fs.nodes x)) x)
          (cur ++ [s]) rest
    | Some (Fs.Symlink _) =>
        match Fs.walk Fs.MAXSYMLINKS x cur [s] with
        | Ok c => Fs.mkdirp x c rest
        | Err e => (Err e, x)
        end
    | Some _ => Fs.mkdirp x (cur ++ [s]) rest
    end.
Proof. reflexivity. Qed.

(** [mkdirp] along a path that resolves changes nothing; it succeeds when
    the path leads to a directory. *)
Lemma mkdirp_existing x segs : ∀ cur c,
  Fs.walk Fs.MAXSYMLINKS x cur segs = Ok c →
  Fs.mkdirp x cur segs = (if Fs.is_dir x c then Ok () else Err EEXIST, x).
Proof.
  induction segs as [|s rest IH]; intros cur c.
  - rewrite walk_nil. intros [= ->]. simpl. by destruct (Fs.is_dir x c).
  - rewrite walk_step, mkdirp_cons.
    destruct (Fs.walk Fs.MAXSYMLINKS x cur [s]) as [c1|] eqn:Hone; [|done].
    intros Hrest. rewrite walk_cons, walk_nil in Hone.
    destruct (negb (Fs.is_dir x cur)); [done|].
    destruct (Fs.is_skip s); [injection Hone as ->; by apply IH|].
    destruct (String.eqb s ".."); [injection Hone as ->; by apply IH|].
    destruct (Fs.nodes x !! (cur ++ [s])) as [[]|] eqn:Hnode; [..|done].
    + injection Hone as <-. by apply IH.
    + injection Hone as <-. by apply IH.
    + by apply IH.
Qed.

Lemma mkdirs_existing x p c :
  Fs.resolve x p = Ok c →
  Fs.mkdirs x p = (if Fs.is_dir x c then Ok () else Err EEXIST, x).
Proof.
  unfold Fs.resolve, Fs.resolve_from, Fs.mkdirs.
  destruct (String.eqb p ""); [done|]. apply mkdirp_existing.
Qed.

Lemma realpath_resolve x p c :
  Fs.resolve x p = Ok c → Fs.realpath x p = Ok (Fs.render c).
Proof. unfold Fs.realpath. by intros ->. Qed.

Lemma realpath_root x : Fs.realpath x "/" = Ok "/".
Proof. reflexivity. Qed.

Lemma realpath_dot x :
  Fs.is_dir x (Fs.cwd x) = true → Fs.realpath x "." = Ok (Fs.render (Fs.cwd x)).
Proof.
  intros Hcwd. unfold Fs.realpath, Fs.resolve, Fs.resolve_from. simpl.
  unfold Fs.start. simpl. by rewrite Hcwd.
Qed.

End FsFacts.

(** * Facts about computations *)

Section SafeMakeDirFacts.

Lemma safeMakeDir_rec_unfold fuel dir root w :
  safeMakeDir_rec (S fuel) dir root w =
  match Fs.realpath (fs w) dir with
  | Ok real => finish_level dir root real w
  | Err _ =>
      match safeMakeDir_rec fuel (Path.dirname dir) root w with
      | (Return real, w') => finish_level dir root real w'
      | (Throw e, w') => (Throw e, w')
      | (Unfinished, w') => (Unfinished, w')
      end
  end.
Proof.
  simpl. unfold bind at 1, try_catch, realpath.
  destruct (Fs.realpath (fs w) dir); simpl; [done|].
  by destruct (safeMakeDir_rec fuel (Path.dirname dir) root w) as [[]].
Qed.

Lemma finish_level_finished dir root real w :
  (finish_level dir root real w).1 ≠ Unfinished.
Proof.
  unfold finish_level, bind, contained, mkdirs, realpath, throw. simpl.
  destruct (startsWith real root); simpl; [|done].
  destruct (Fs.mkdirs (fs w) dir) as [[] fs']; simpl; [|done].
  by destruct (Fs.realpath fs' dir).
Qed.

(** More fuel does not change a run that came to an end. *)
Lemma safeMakeDir_rec_more_fuel fuel : ∀ fuel' dir root w,
  fuel ≤ fuel' →
  (safeMakeDir_rec fuel dir root w).1 ≠ Unfinished →
  safeMakeDir_rec fuel' dir root w = safeMakeDir_rec fuel dir root w.
Proof.
  induction fuel as [|fuel IH]; intros fuel' dir root w Hle Hfin; [done|].
  destruct fuel' as [|fuel']; [lia|].
  rewrite !safeMakeDir_rec_unfold in *.
  destruct (Fs.realpath (fs w) dir); [done|].
  rewrite (IH fuel'); [done|lia|].
  by destruct (safeMakeDir_rec fuel (Path.dirname dir) root w) as [[]].
Qed.

Lemma safeMakeDir_rec_finished_root fuel root w :
  (safeMakeDir_rec (S fuel) "/" root w).1 ≠ Unfinished.
Proof.
  rewrite safeMakeDir_rec_unfold, realpath_root. apply finish_level_finished.
Qed.

Lemma safeMakeDir_rec_finished_dot fuel root w :
  Fs.is_dir (fs w) (Fs.cwd (fs w)) = true →
  (safeMakeDir_rec (S fuel) "." root w).1 ≠ Unfinished.
Proof.
  intros Hcwd. rewrite safeMakeDir_rec_unfold, realpath_dot by done.
  apply finish_level_finished.
Qed.

(** Two levels more than the path has segments are enough. *)
Lemma safeMakeDir_rec_finished n : ∀ dir root w,
  Path.isAbsolute dir = true ∨ Fs.is_dir (fs w) (Fs.cwd (fs w)) = true →
  Path.nseg dir ≤ n →
  (safeMakeDir_rec (S (S n)) dir root w).1 ≠ Unfinished.
Proof.
  induction n as [|n IH]; intros dir root w Hbase Hn.
  all: rewrite safeMakeDir_rec_unfold.
  all: destruct (Fs.realpath (fs w) dir) eqn:Hreal;
    [apply finish_level_finished|].
  all: match goal with
       | |- context [safeMakeDir_rec ?f (Path.dirname ?d) ?r ?x] =>
           assert ((safeMakeDir_rec f (Path.dirname d) r x).1 ≠ Unfinished)
             as Hrec;
           [|destruct (safeMakeDir_rec f (Path.dirname d) r x) as [[]];
             simpl in *; [apply finish_level_finished|done..]]
       end.
  all: destruct (dirname_cases dir) as [Hd|[Hd|Hd]].
  all: try (rewrite Hd; apply safeMakeDir_rec_finished_root).
  all: try (destruct Hbase as [Habs|Hcwd];
            [apply isAbsolute_dirname in Habs; by rewrite Hd in Habs
            |rewrite Hd; by apply safeMakeDir_rec_finished_dot]).
  - lia.
  - apply IH; [|lia]. destruct Hbase as [Habs|]; [left|by right].
    by apply isAbsolute_dirname.
Qed.

End SafeMakeDirFacts.

(** * The trace of [safeMakeDir] *)

Section SafeMakeDirTrace.

Lemma level_events_snoc levels dir real :
  level_events (levels ++ [(dir, real)]) =
  level_events levels ++ [EvContain dir real true; EvMkdirs dir].
Proof. unfold level_events. by rewrite bind_app. Qed.

(** One level either fails its test and does nothing else, or passes it
    and calls [mkdirs]. *)
Lemma finish_level_trace dir root real w r w' :
  finish_level dir root real w = (r, w') →
  (startsWith real root = true ∧
   trace w' = trace w ++ [EvContain dir real true; EvMkdirs dir] ∧
   ∀ e, r = Throw e → is_escape e = false) ∨
  (startsWith real root = false ∧ r = Throw RefusingCreateOutside ∧
   fs w' = fs w ∧
   trace w' = trace w ++ [EvContain dir real false]).
Proof.
  unfold finish_level, bind, contained, mkdirs, realpath, throw. simpl.
  destruct (startsWith real root); simpl.
  - destruct (Fs.mkdirs (fs w) dir) as [[] fs']; simpl.
    + intros [= <- <-]. left. simpl. rewrite <-app_assoc. split_and!; [done..|].
      intros e. by destruct (Fs.realpath fs' dir); intros [= <-].
    + intros [= <- <-]. left. simpl. rewrite <-app_assoc. split_and!; [done..|].
      by intros ? [= <-].
  - intros [= <- <-]. by right.
Qed.

End SafeMakeDirTrace.

#[global] Arguments safeMakeDir_rec : simpl never.

Section SafeMakeDirExisting.

(** On a path that resolves, [safeMakeDir] does not go up: it tests the
    resolved path and calls [mkdirs], which finds everything in place. *)
Lemma safeMakeDir_rec_existing fuel dir root w c :
  Fs.resolve (fs w) dir = Ok c →
  startsWith (Fs.render c) root = true →
  safeMakeDir_rec (S fuel) dir root w =
  (if Fs.is_dir (fs w) c then Return (Fs.render c)
   else Throw (SystemError EEXIST),
   emit (EvMkdirs dir) (emit (EvContain dir (Fs.render c) true) w)).
Proof.
  intros Hres Hin. rewrite safeMakeDir_rec_unfold, (realpath_resolve _ _ c) by done.
  unfold finish_level, bind, contained, mkdirs, realpath. simpl.
  rewrite Hin. simpl. rewrite (mkdirs_existing _ _ c) by done.
  destruct w as [x ? ? ? ?]. simpl in *.
  destruct (Fs.is_dir x c); simpl; [|done].
  by rewrite (realpath_resolve _ _ c).
Qed.

End SafeMakeDirExisting.


(** * What every step leaves alone *)

Section Steady.

Lemma follows_refl w : follows w w.
Proof. split_and!; [done..|]. exists []. by rewrite app_nil_r. Qed.

Lemma follows_trans w1 w2 w3 : follows w1 w2 → follows w2 w3 → follows w1 w3.
Proof.
  intros (Hf1 & Hp1 & evs1 & Ht1) (Hf2 & Hp2 & evs2 & Ht2).
  split_and!; [congruence..|]. exists (evs1 ++ evs2).
  by rewrite Ht2, Ht1, <-app_assoc.
Qed.

Lemma follows_emit e w : follows w (emit e w).
Proof. split_and!; [done..|]. by exists [e]. Qed.

Lemma follows_set_fs x w : follows w (set_fs x w).
Proof. split_and!; [done..|]. exists []. simpl. by rewrite app_nil_r. Qed.

Lemma follows_set_streams x w : follows w (set_streams x w).
Proof. split_and!; [done..|]. exists []. simpl. by rewrite app_nil_r. Qed.

Lemma steady_ret {A} (a : A) : steady (ret a).
Proof. intros w r w' [= <- <-]. apply follows_refl. Qed.

Lemma steady_throw {A} e : steady (throw (A:=A) e).
Proof. intros w r w' [= <- <-]. apply follows_refl. Qed.

Lemma steady_bind {A B} (m : M A) (k : A → M B) :
  steady m → (∀ a, steady (k a)) → steady (bind m k).
Proof.
  intros Hm Hk w r w'. unfold bind.
  destruct (m w) as [[a| |] w1] eqn:Hmw.
  - intros Hkw. eapply follows_trans; [by eapply Hm|by eapply Hk].
  - intros [= <- <-]. by eapply Hm.
  - intros [= <- <-]. by eapply Hm.
Qed.

Lemma steady_try_catch {A} (m : M A) (h : error → M A) :
  steady m → (∀ e, steady (h e)) → steady (try_catch m h).
Proof.
  intros Hm Hh w r w'. unfold try_catch.
  destruct (m w) as [[a| |] w1] eqn:Hmw.
  - intros [= <- <-]. by eapply Hm.
  - intros Hkw. eapply follows_trans; [by eapply Hm|by eapply Hh].
  - intros [= <- <-]. by eapply Hm.
Qed.

Lemma steady_realpath p : steady (realpath p).
Proof. intros w r w' [= <- <-]. apply follows_refl. Qed.

Lemma steady_readlink p : steady (readlink p).
Proof. intros w r w' [= <- <-]. apply follows_refl. Qed.

Lemma steady_Date_now : steady Date_now.
Proof. intros w r w' [= <- <-]. apply follows_refl. Qed.

Lemma steady_platform : steady platform_is_win32.
Proof. intros w r w' [= <- <-]. apply follows_refl. Qed.

Lemma steady_the_linkname f : steady (the_linkname f).
Proof.
  unfold the_linkname. destruct (File.linkname f);
    [apply steady_ret|apply steady_throw].
Qed.

Lemma steady_mkdirs p : steady (mkdirs p).
Proof.
  intros w r w'. unfold mkdirs. destruct (Fs.mkdirs (fs w) p) as [r0 x].
  intros [= <- <-]. eapply follows_trans; [apply follows_set_fs|apply follows_emit].
Qed.

Lemma steady_link a b : steady (link a b).
Proof.
  intros w r w'. unfold link. destruct (Fs.link (fs w) a b) as [r0 x].
  intros [= <- <-]. eapply follows_trans; [apply follows_set_fs|apply follows_emit].
Qed.

Lemma steady_symlink a b : steady (symlink a b).
Proof.
  intros w r w'. unfold symlink. destruct (Fs.symlink (fs w) a b) as [r0 x].
  intros [= <- <-]. eapply follows_trans; [apply follows_set_fs|apply follows_emit].
Qed.

Lemma steady_utimes p a m : steady (utimes p a m).
Proof.
  intros w r w'. unfold utimes. destruct (Fs.utimes (fs w) p a m) as [r0 x].
  intros [= <- <-]. eapply follows_trans; [apply follows_set_fs|apply follows_emit].
Qed.

Lemma steady_pipeline i p m : steady (pipeline i p m).
Proof.
  intros w r w'. unfold pipeline.
  destruct (Fs.writeFile (fs w) p m _) as [r0 x].
  intros [= <- <-].
  eapply follows_trans; [apply follows_set_fs|].
  eapply follows_trans; [apply follows_set_streams|apply follows_emit].
Qed.

Lemma steady_resume i : steady (resume i).
Proof.
  intros w r w' [= <- <-].
  eapply follows_trans; [apply follows_set_streams|apply follows_emit].
Qed.

Lemma steady_contained d r o : steady (contained d r o).
Proof. intros w r0 w' [= <- <-]. apply follows_emit. Qed.

Lemma steady_within r o : steady (within r o).
Proof. intros w r0 w' [= <- <-]. apply follows_emit. Qed.

End Steady.

#[global] Hint Resolve steady_ret steady_throw steady_bind steady_try_catch
  steady_realpath steady_readlink steady_Date_now steady_platform
  steady_the_linkname steady_mkdirs steady_link steady_symlink steady_utimes
  steady_pipeline steady_resume steady_contained steady_within : steady.
#[global] Hint Extern 5 (steady (if ?b then _ else _)) => destruct b : steady.
#[global] Hint Extern 5 (steady (match ?x with _ => _ end)) => destruct x : steady.

Section GuardCases.

Lemma guard_cases dest w :
  preventWritingThroughSymlink dest w =
  (match Fs.readlink (fs w) dest with
   | Ok target =>
       if truthy target then Throw RefusingWriteIntoSymlink else Return ()
   | Err _ => Return ()
   end, w).
Proof.
  unfold preventWritingThroughSymlink, bind, try_catch, readlink, ret, throw.
  destruct (Fs.readlink (fs w) dest) as [t|]; simpl; [|done].
  by destruct (truthy t).
Qed.

End GuardCases.

Section SteadySource.

Lemma steady_safeMakeDir_rec fuel : ∀ dir root,
  steady (safeMakeDir_rec fuel dir root).
Proof.
  induction fuel as [|fuel IH]; intros dir root.
  - intros w r w' [= <- <-]. apply follows_refl.
  - change (safeMakeDir_rec (S fuel) dir root) with
      (realParentPath ←
         try_catch (realpath dir)
           (λ _, safeMakeDir_rec fuel (Path.dirname dir) root);
       ok ← contained dir realParentPath root;
       if negb ok then throw RefusingCreateOutside
       else mkdirs dir;; realpath dir).
    auto 10 with steady.
Qed.

Lemma steady_safeMakeDir dir root : steady (safeMakeDir dir root).
Proof. apply steady_safeMakeDir_rec. Qed.

Lemma steady_guard dest : steady (preventWritingThroughSymlink dest).
Proof. intros w r w'. rewrite guard_cases. intros [= <- <-]. apply follows_refl. Qed.

Lemma steady_deliver f input output dest now :
  steady (deliver f input output dest now).
Proof. unfold deliver. auto 10 with steady. Qed.

Lemma steady_place f input output : steady (place f input output).
Proof.
  unfold place. pose proof steady_safeMakeDir. pose proof steady_guard.
  pose proof steady_deliver. auto 12 with steady.
Qed.

End SteadySource.

(** * Facts about [write] *)

Section WriteFacts.

(** [write] is its policy followed by the placing of the entry. *)
Lemma write_policy file input output opts w :
  write file input output opts w =
  (r ← policy file input opts;
   match r with
   | Some file' => f ← get_file file'; place f input output
   | None => ret ()
   end) w.
Proof.
  change (write file input output opts) with
    (stripped_away ← strip_step file opts;
     if stripped_away : bool then ret ()
     else
       keep ← filter_step file opts;
       if negb keep then discard input
       else
         file' ← map_step file opts;
         f ← get_file file';
         place f input output).
  unfold policy, bind.
  destruct (strip_step file opts w) as [[[]| |] w1]; try done.
  destruct (filter_step file opts w1) as [[[]| |] w2]; simpl; try done.
  - by destruct (map_step file opts w2) as [[?| |] w3].
  - by destruct (discard input w2) as [[[]| |] w3].
Qed.


(** Without options the entry is placed as it is. *)
Lemma policy_default file input w :
  policy file input None w = (Return (Some file), w).
Proof. reflexivity. Qed.

(** The stripping step: the entry object gets the stripped path. *)
Lemma strip_step_assigns file f opts n p w :
  opts ≫= Options.strip = Some n →
  (0 < n)%Z →
  files w !! file = Some f →
  StripDirs.stripDirs (File.path f) (Z.to_nat n) = Some p →
  strip_step file opts w =
  (Return (String.eqb p "."),
   set_files (alter (File.with_path p) file (files w)) w).
Proof.
  intros Hstrip Hpos Hfile Hp. unfold strip_step. rewrite Hstrip. simpl.
  apply Z.ltb_lt in Hpos. rewrite Hpos.
  unfold bind at 1. unfold get_file at 1. rewrite Hfile.
  unfold bind at 1. unfold stripDirs. rewrite Hp. unfold ret at 1.
  unfold bind at 1. unfold set_path at 1.
  unfold bind at 1. unfold get_file at 1. simpl.
  by rewrite lookup_alter_eq, Hfile.
Qed.

(** When the parent of the destination resolves to a place that passes
    the prefix test, nothing is created on the way to the guard and the
    second test. *)
Lemma place_existing_parent f input output w x1 root c :
  File.type f ≠ File.directory →
  Fs.mkdirs (fs w) output = (Ok (), x1) →
  Fs.realpath x1 output = Ok root →
  Fs.resolve x1 (Path.dirname (Path.join output (File.path f))) = Ok c →
  startsWith (Fs.render c) root = true →
  place f input output w =
  let dest := Path.join output (File.path f) in
  let w2 :=
    emit (EvMkdirs (Path.dirname dest))
      (emit (EvContain (Path.dirname dest) (Fs.render c) true)
         (emit (EvMkdirs output) (set_fs x1 w))) in
  if Fs.is_dir x1 c then
    if guard_blocks x1 f dest then (Throw RefusingWriteIntoSymlink, w2)
    else deliver f input output dest (Fs.clock (fs w))
           (emit (EvWithin (Fs.render c) true) w2)
  else (Throw (SystemError EEXIST), w2).
Proof.
  intros Hkind Hmk Hroot Hres Hin.
  unfold place, safeMakeDir, depth_bound.
  unfold bind at 1. unfold Date_now at 1.
  unfold bind at 1. unfold mkdirs at 1. rewrite Hmk. simpl.
  unfold bind at 1. unfold realpath at 1. simpl. rewrite Hroot. simpl.
  destruct (decide (File.type f = File.directory)) as [|_]; [done|].
  unfold bind at 1.
  rewrite (safeMakeDir_rec_existing _ _ _ _ c) by done. simpl.
  destruct (Fs.is_dir x1 c); [|done].
  unfold bind at 1. unfold guard_blocks.
  destruct (decide (File.type f = File.file)) as [Hfile|Hfile].
  - rewrite guard_cases, Hfile. simpl.
    destruct (Fs.readlink x1 _) as [t|]; [destruct (truthy t); [done|]|].
    all: unfold bind at 1; unfold realpath at 1; simpl;
      rewrite (realpath_resolve _ _ c) by done; simpl.
    all: unfold bind at 1; unfold within at 1; simpl; by rewrite Hin.
  - unfold ret at 1.
    assert (match File.type f with
            | File.file =>
                match Fs.readlink x1 (Path.join output (File.path f)) with
                | Ok target => truthy target
                | Err _ => false
                end
            | _ => false
            end = false) as -> by by destruct (File.type f).
    unfold bind at 1; unfold realpath at 1; simpl.
    rewrite (realpath_resolve _ _ c) by done; simpl.
    unfold bind at 1; unfold within at 1; simpl. by rewrite Hin.
Qed.

(** A directory entry whose destination is not there yet: [safeMakeDir]
    goes up one level, and both levels test the canonical path of the
    parent. *)
Lemma place_new_directory f input output w x1 root c e0 r w' :
  File.type f = File.directory →
  Fs.mkdirs (fs w) output = (Ok (), x1) →
  Fs.realpath x1 output = Ok root →
  Fs.resolve x1 (Path.join output (File.path f)) = Err e0 →
  Fs.resolve x1 (Path.dirname (Path.join output (File.path f))) = Ok c →
  startsWith (Fs.render c) root = true →
  place f input output w = (r, w') →
  (∀ e, r = Throw e → is_escape e = false) ∧
  ∃ rest,
    trace w' =
      trace w ++
      EvMkdirs output ::
      EvContain (Path.dirname (Path.join output (File.path f))) (Fs.render c) true ::
      rest.
Proof.
  intros Hkind Hmk Hroot Hnew Hres Hin.
  unfold place, safeMakeDir, depth_bound.
  unfold bind at 1. unfold Date_now at 1.
  unfold bind at 1. unfold mkdirs at 1. rewrite Hmk. simpl.
  unfold bind at 1. unfold realpath at 1. simpl. rewrite Hroot. simpl.
  destruct (decide (File.type f = File.directory)) as [_|]; [|done].
  unfold bind at 1. rewrite safeMakeDir_rec_unfold. simpl.
  unfold Fs.realpath at 1. rewrite Hnew.
  rewrite (safeMakeDir_rec_existing _ _ _ _ c) by done. simpl.
  destruct (Fs.is_dir x1 c).
  - destruct (finish_level _ _ _ _) as [r3 w3] eqn:Hfl.
    apply finish_level_trace in Hfl as [(_ & Htr & Hne)|(Hno & _)];
      [|by rewrite Hin in Hno].
    simpl in Htr. destruct r3 as [real| |]; simpl.
    + intros Hut. assert (follows w3 w') as (_ & _ & evs & ->).
      { by eapply steady_utimes. }
      split.
      * intros e ->. unfold utimes in Hut.
        destruct (Fs.utimes _ _ _ _) as [[] ?]; by simplify_eq/=.
      * rewrite Htr. eexists. by rewrite <-!app_assoc.
    + intros [= <- <-]. split; [intros ? [= <-]; by apply Hne|].
      rewrite Htr. eexists. by rewrite <-!app_assoc.
    + intros [= <- <-]. split; [done|].
      rewrite Htr. eexists. by rewrite <-!app_assoc.
  - intros [= <- <-]. split; [by intros ? [= <-]|].
    eexists. simpl. by rewrite <-!app_assoc.
Qed.

(** Nothing in the last part of [write] raises an escape error. *)
Lemma deliver_no_escape f input output dest now w e w' :
  deliver f input output dest now w = (Throw e, w') → is_escape e = false.
Proof.
  unfold deliver, bind, the_linkname, platform_is_win32, link, symlink,
    pipeline, utimes, ret, throw.
  intros H. repeat case_match; simplify_eq/=; try done.
  all: repeat match goal with
       | r : res unit |- _ => destruct r
       end; simplify_eq/=; done.
Qed.

(** A link entry: the link call is made with the name as it stands, and
    what it returns is what [write] returns. *)
Lemma deliver_link f input output l now w res x2 :
  File.type f = File.link ∨ File.type f = File.symlink →
  File.linkname f = Some l →
  link_call (fs w) (win32 w) f output l = (res, x2) →
  deliver f input output (Path.join output (File.path f)) now w =
  (lift_res res, emit (link_event (win32 w) f output l) (set_fs x2 w)).
Proof.
  unfold deliver, link_call, link_event, bind, the_linkname, platform_is_win32,
    link, symlink, ret.
  intros [Hk|Hk] Hl; rewrite Hk, Hl; simpl.
  - intros ->. by destruct res as [[]|].
  - destruct (win32 w); intros ->; by destruct res as [[]|].
Qed.

End WriteFacts.

Section PolicyFacts.

Lemma filter_step_result file opts w :
  filter_step file opts w =
  (Return match opts ≫= Options.filter with
          | Some filter => filter file (files w)
          | None => true
          end, w).
Proof. unfold filter_step. by destruct (opts ≫= Options.filter). Qed.

Lemma map_step_result file opts w :
  map_step file opts w =
  match opts ≫= Options.map with
  | Some map =>
      (Return (map file (files w)).1, set_files (map file (files w)).2 w)
  | None => (Return file, w)
  end.
Proof.
  unfold map_step, call_map. destruct (opts ≫= Options.map) as [map|]; [|done].
  by destruct (map file (files w)).
Qed.

Lemma steady_discard input : steady (discard input).
Proof. unfold discard. auto with steady. Qed.

End PolicyFacts.

Section GuardFacts.

(** The guard refuses a symbolic link whose target is not empty ... *)
Lemma guard_refuses_target dest target w :
  Fs.readlink (fs w) dest = Ok target →
  target ≠ "" →
  preventWritingThroughSymlink dest w = (Throw RefusingWriteIntoSymlink, w).
Proof.
  intros Hlink Hne. rewrite guard_cases, Hlink. unfold truthy.
  by apply String.eqb_neq in Hne as ->.
Qed.

(** ... lets through one whose target is empty ... *)
Lemma guard_passes_empty_target dest w :
  Fs.readlink (fs w) dest = Ok "" →
  preventWritingThroughSymlink dest w = (Return (), w).
Proof. intros Hlink. by rewrite guard_cases, Hlink. Qed.

(** ... and lets through what is no symbolic link, or is not there. *)
Lemma guard_passes_no_link dest e w :
  Fs.readlink (fs w) dest = Err e →
  preventWritingThroughSymlink dest w = (Return (), w).
Proof. intros Hlink. by rewrite guard_cases, Hlink. Qed.

(** A file entry bound for a symbolic link with a target is refused
    after its parent directory has been established and before anything
    is opened; the file system stays as [mkdirs(output)] left it. *)
Lemma write_refuses_symlink_with_target
    file file' f input output opts w w0 x1 root c target :
  policy file input opts w = (Return (Some file'), w0) →
  files w0 !! file' = Some f →
  File.type f = File.file →
  Fs.mkdirs (fs w0) output = (Ok (), x1) →
  Fs.realpath x1 output = Ok root →
  Fs.resolve x1 (Path.dirname (Path.join output (File.path f))) = Ok c →
  Fs.is_dir x1 c = true →
  startsWith (Fs.render c) root = true →
  Fs.readlink x1 (Path.join output (File.path f)) = Ok target →
  target ≠ "" →
  ∃ w',
    write file input output opts w = (Throw RefusingWriteIntoSymlink, w') ∧
    fs w' = x1 ∧
    trace w' =
      trace w0 ++
      [EvMkdirs output;
       EvContain (Path.dirname (Path.join output (File.path f))) (Fs.render c) true;
       EvMkdirs (Path.dirname (Path.join output (File.path f)))].
Proof.
  intros Hpol Hfile Hkind Hmk Hroot Hres Hdir Hin Hlink Hne.
  rewrite write_policy. unfold bind at 1. rewrite Hpol.
  unfold bind at 1, get_file at 1. rewrite Hfile.
  rewrite (place_existing_parent _ _ _ _ x1 root c), Hdir; cbv zeta.
  2: by rewrite Hkind.
  2-5: done.
  unfold guard_blocks, truthy. rewrite Hkind, Hlink.
  apply String.eqb_neq in Hne as ->. simpl.
  eexists. split; [done|]. split; [done|]. simpl. by rewrite <-!app_assoc.
Qed.

End GuardFacts.

(** * The claims *)

(** C1 — evaluated where it fails.  The output directory is [/out] and a
    directory [/out-evil] stands next to it.  The file entry
    ["../out-evil/x"] passes both containment tests, because ["/out-evil"]
    begins with ["/out"], and its content is written to [/out-evil/x],
    outside the output directory. *)
Theorem write_lands_beside_the_root :
  let f := Sample.entry File.file "../out-evil/x" None in
  let w := Sample.world Sample.disk f in
  let run := write 0 (Some 0) "/out" None w in
  run.1 = Return () ∧
  Fs.resolve (fs run.2) "/out" = Ok ["out"] ∧
  Fs.nodes (fs w) !! ["out-evil"; "x"] = None ∧
  Fs.resolve (fs run.2) "/out-evil/x" = Ok ["out-evil"; "x"] ∧
  ¬ ["out"] `prefix_of` ["out-evil"; "x"] ∧
  Fs.readFile (fs run.2) "/out-evil/x" = Some Sample.bytes ∧
  trace run.2 =
    [EvMkdirs "/out"; EvContain "/out-evil" "/out-evil" true; EvMkdirs "/out-evil";
     EvWithin "/out-evil" true; EvPipeline 0 "/out-evil/x"; EvUtimes "/out-evil/x"].
Proof.
  vm_compute. split_and!; try done. intros [k Hk]. by simplify_eq/=.
Qed.

(** C2 — evaluated where it fails.  [/out/p] is a symbolic link whose
    target is the empty string: [readlink] succeeds, the target is not
    truthy, and the guard returns without an error. *)
Theorem guard_passes_link_with_empty_target :
  let w := Sample.world (Sample.disk_with_link "") (Sample.entry File.file "p" None) in
  Fs.nodes (fs w) !! ["out"; "p"] = Some (Fs.Symlink "") ∧
  Fs.readlink (fs w) "/out/p" = Ok "" ∧
  preventWritingThroughSymlink "/out/p" w = (Return (), w).
Proof.
  intros w.
  assert (Fs.readlink (fs w) "/out/p" = Ok "") as Hlink by (vm_compute; reflexivity).
  split; [by vm_compute|]. split; [done|].
  by apply guard_passes_empty_target.
Qed.

(** C3 — evaluated where it fails.  With the same link at [/out/p], a file
    entry ["p"] is not refused by the guard: with content, [write] goes on
    to open the destination through the link and ends with the [ENOENT] of
    that; without content, it returns as if the entry had been written. *)
Theorem write_onto_link_with_empty_target :
  let w := Sample.world (Sample.disk_with_link "") (Sample.entry File.file "p" None) in
  Fs.readlink (fs w) "/out/p" = Ok "" ∧
  (write 0 (Some 0) "/out" None w).1 = Throw (SystemError ENOENT) ∧
  EvPipeline 0 "/out/p" ∈ trace (write 0 (Some 0) "/out" None w).2 ∧
  (write 0 None "/out" None w).1 = Return ().
Proof.
  vm_compute. split_and!; [done..| |done].
  repeat first [apply list_elem_of_here | apply list_elem_of_further].
Qed.

(** C4 — Every run of [safeMakeDir] has this trace: for the levels it
    completed, from the highest one down, the containment test, passed, and
    right after it the [mkdirs] of that level; nothing else, unless the run
    ends with the escape error, and then one more event, the failed test,
    which is the last thing done.  That test failed at some level [k'], the
    completed levels are those strictly above it, and no [mkdirs] was
    issued at level [k'] or below. *)
Theorem safeMakeDir_checks_before_creating fuel : ∀ dir root w r w',
  safeMakeDir_rec fuel dir root w = (r, w') →
  ∃ (k : nat) (above : list (string * string)),
    above.*1 = chain (length above) (ancestor k dir) ∧
    Forall (λ l, startsWith l.2 root = true) above ∧
    match r with
    | Return _ => k = 0 ∧ trace w' = trace w ++ level_events (rev above)
    | Throw RefusingCreateOutside =>
        ∃ k' real,
          k = S k' ∧ startsWith real root = false ∧
          trace w' =
            trace w ++ level_events (rev above) ++
            [EvContain (ancestor k' dir) real false]
    | Throw _ => trace w' = trace w ++ level_events (rev above)
    | Unfinished => trace w' = trace w
    end.
Proof.
  induction fuel as [|fuel IH]; intros dir root w r w'.
  { intros [= <- <-]. by exists 0, []. }
  rewrite safeMakeDir_rec_unfold.
  destruct (Fs.realpath (fs w) dir) as [rp|] eqn:Hreal.
  - intros Hfl.
    assert (r ≠ Unfinished) as Hfin.
    { pose proof (finish_level_finished dir root rp w) as H. by rewrite Hfl in H. }
    apply finish_level_trace in Hfl as [(Hok & Htr & Hne)|(Hno & -> & _ & Htr)].
    + exists 0, [(dir, rp)]. split_and!; [done|by apply Forall_singleton|].
      destruct r as [?|err|]; [done| |done].
      specialize (Hne err eq_refl). by destruct err.
    + exists 1, []. split_and!; [done..|]. by exists 0, rp.
  - destruct (safeMakeDir_rec fuel (Path.dirname dir) root w)
      as [[rpp|e1|] w1] eqn:Hrec;
      apply IH in Hrec as (k1 & above1 & Hchain & Hall & Hshape).
    + destruct Hshape as [-> Htr1]. intros Hfl.
      assert (r ≠ Unfinished) as Hfin.
      { pose proof (finish_level_finished dir root rpp w1) as H.
        by rewrite Hfl in H. }
      apply finish_level_trace in Hfl as [(Hok & Htr & Hne)|(Hno & -> & _ & Htr)].
      * exists 0, ((dir, rpp) :: above1). split_and!.
        -- by rewrite fmap_cons, Hchain.
        -- by apply Forall_cons.
        -- assert (trace w' = trace w ++ level_events (rev ((dir, rpp) :: above1)))
             as Hall'.
           { rewrite Htr, Htr1. simpl. by rewrite level_events_snoc, <-app_assoc. }
           destruct r as [?|err|]; [done| |done].
           specialize (Hne err eq_refl). by destruct err.
      * exists 1, above1. split_and!; [done..|]. exists 0, rpp.
        split_and!; [done..|]. rewrite Htr, Htr1. by rewrite <-app_assoc.
    + intros [= <- <-]. destruct e1.
      1: destruct Hshape as (k' & real & -> & ? & ?);
         exists (S (S k')), above1; split_and!; [done..|]; by exists (S k'), real.
      all: by exists (S k1), above1.
    + intros [= <- <-]. by exists 0, [].
Qed.

Lemma safeMakeDir_checks_before_creating_witness :
  let w := Sample.world Sample.disk (Sample.entry File.file "a" None) in
  let run := safeMakeDir "/etc/x/y" "/out" w in
  run = (Throw RefusingCreateOutside, run.2) ∧
  ∃ (k : nat) (above : list (string * string)),
    above.*1 = chain (length above) (ancestor k "/etc/x/y") ∧
    Forall (λ l, startsWith l.2 "/out" = true) above ∧
    ∃ k' real,
      k = S k' ∧ startsWith real "/out" = false ∧
      trace run.2 =
        trace w ++ level_events (rev above) ++
        [EvContain (ancestor k' "/etc/x/y") real false].
Proof.
  intros w run.
  assert (run = (Throw RefusingCreateOutside, run.2)) as Hrun
    by (vm_compute; reflexivity).
  split; [exact Hrun|].
  exact (safeMakeDir_checks_before_creating (depth_bound "/etc/x/y") "/etc/x/y" "/out"
           w (Throw RefusingCreateOutside) run.2 Hrun).
Defined.

(** In that run the test fails two levels up, at [/etc], and no directory
    has been created. *)
Example escape_two_levels_up :
  let w := Sample.world Sample.disk (Sample.entry File.file "a" None) in
  let run := safeMakeDir "/etc/x/y" "/out" w in
  ancestor 2 "/etc/x/y" = "/etc" ∧
  trace run.2 = [EvContain "/etc" "/etc" false] ∧
  fs run.2 = fs w.
Proof. vm_compute. by split_and!. Qed.




(** Where [write] returns because the stripped path is ["."], the content
    stream is left as it was: paused, with its bytes. *)
Example stripped_to_dot_leaves_stream_paused :
  let f := Sample.entry File.file "a/" None in
  let w := Sample.world Sample.disk f in
  let run := write 0 (Some 0) "/out" (Some (Sample.strip_only 1)) w in
  run.1 = Return () ∧
  streams run.2 !! 0 = Some (Readable.Make Sample.bytes Readable.Paused) ∧
  trace run.2 = [].
Proof. vm_compute. by split_and!. Qed.



(** C7 — The recursion of [safeMakeDir] comes to an end on every path: with
    an allowance of two levels more than the path has segments the run
    is never cut off, and any larger allowance gives the same run.  (For a
    relative path the recursion stops at ["."], which resolves because the
    working directory exists; for an absolute one it stops at ["/"] at the
    latest.) *)
Theorem safeMakeDir_terminates dir root w :
  Path.isAbsolute dir = true ∨ Fs.is_dir (fs w) (Fs.cwd (fs w)) = true →
  (safeMakeDir dir root w).1 ≠ Unfinished ∧
  ∀ fuel, depth_bound dir ≤ fuel →
          safeMakeDir_rec fuel dir root w = safeMakeDir dir root w.
Proof.
  intros Hbase. unfold safeMakeDir, depth_bound.
  assert ((safeMakeDir_rec (S (S (Path.nseg dir))) dir root w).1 ≠ Unfinished)
    as Hfin by by apply safeMakeDir_rec_finished.
  split; [done|]. intros fuel Hle. by apply safeMakeDir_rec_more_fuel.
Qed.

Lemma safeMakeDir_terminates_witness :
  let w := Sample.world Sample.disk (Sample.entry File.file "a/b/c" None) in
  (Path.isAbsolute "/out/a/b" = true ∨ Fs.is_dir (fs w) (Fs.cwd (fs w)) = true) ∧
  ((safeMakeDir "/out/a/b" "/out" w).1 ≠ Unfinished ∧
   ∀ fuel, depth_bound "/out/a/b" ≤ fuel →
           safeMakeDir_rec fuel "/out/a/b" "/out" w = safeMakeDir "/out/a/b" "/out" w).
Proof.
  intros w. split; [left; reflexivity|].
  apply (safeMakeDir_terminates "/out/a/b" "/out" w). left. reflexivity.
Defined.



(** The link of the witness leads out of the output directory: the new
    name [/out/l] is a second name of the file [/etc/passwd]. *)
Example link_target_outside_root :
  let f := Sample.entry File.link "l" (Some "../etc/passwd") in
  let run := write 0 None "/out" None (Sample.world Sample.disk f) in
  Fs.realpath Sample.disk (Path.join "/out" "../etc/passwd") = Ok "/etc/passwd" ∧
  startsWith "/etc/passwd" "/out" = false ∧
  run.1 = Return () ∧
  Fs.nodes (fs run.2) !! ["out"; "l"] = Fs.nodes (fs run.2) !! ["etc"; "passwd"] ∧
  Fs.readFile (fs run.2) "/out/l" = Some Sample.secret.
Proof. vm_compute. by split_and!. Qed.

(** The same for a symbolic link whose literal target is outside. *)
Example symlink_target_outside_root :
  let f := Sample.entry File.symlink "l" (Some "/etc/passwd") in
  let run := write 0 None "/out" None (Sample.world Sample.disk f) in
  run.1 = Return () ∧
  Fs.nodes (fs run.2) !! ["out"; "l"] = Some (Fs.Symlink "/etc/passwd") ∧
  Fs.realpath (fs run.2) "/out/l" = Ok "/etc/passwd".
Proof. vm_compute. by split_and!. Qed.



(** The same for a directory entry: [/out-evil/d] is created. *)
Example prefix_sibling_directory :
  let f := Sample.entry File.directory "../out-evil/d" None in
  let run := write 0 None "/out" None (Sample.world Sample.disk f) in
  run.1 = Return () ∧
  Fs.is_dir (fs run.2) ["out-evil"; "d"] = true ∧
  trace run.2 =
    [EvMkdirs "/out"; EvContain "/out-evil" "/out-evil" true; EvMkdirs "/out-evil";
     EvContain "/out-evil/d" "/out-evil" true; EvMkdirs "/out-evil/d";
     EvUtimes "/out-evil/d"].
Proof. vm_compute. by split_and!. Qed.

(** In the witness the parent [/out-evil] is neither the root [/out] nor
    below it. *)
Example prefix_sibling_is_outside :
  Fs.resolve Sample.disk "/out" = Ok ["out"] ∧
  Fs.resolve Sample.disk "/out-evil" = Ok ["out-evil"] ∧
  ¬ ["out"] `prefix_of` ["out-evil"].
Proof.
  split_and!; [by vm_compute..|]. intros [k Hk]. by simplify_eq/=.
Qed.

(** C10 — With [strip > 0], [write] assigns the stripped path to the
    caller's entry object before anything else: the [filter] and [map]
    callbacks are run on the store that holds the reassigned entry, and
    when [write] is over the store is that one, changed further only by
    what [map] did to it.  Without [map] the caller's entry ends with the
    stripped path. *)
Theorem write_strip_mutates_entry file f input output opts n p w r w' :
  Options.strip opts = Some n →
  (0 < n)%Z →
  files w !! file = Some f →
  StripDirs.stripDirs (File.path f) (Z.to_nat n) = Some p →
  write file input output (Some opts) w = (r, w') →
  let stripped := alter (File.with_path p) file (files w) in
  let keep :=
    match Options.filter opts with
    | Some filter => filter file stripped
    | None => true
    end in
  files w' =
    (if String.eqb p "." || negb keep then stripped
     else match Options.map opts with
          | Some map => (map file stripped).2
          | None => stripped
          end) ∧
  (Options.map opts = None → files w' !! file = Some (File.with_path p f)).
Proof.
  intros Hstrip Hpos Hfile Hp Hrun stripped keep.
  assert (files w' =
          (if String.eqb p "." || negb keep then stripped
           else match Options.map opts with
                | Some map => (map file stripped).2
                | None => stripped
                end)) as Hstore.
  { rewrite write_policy in Hrun. unfold policy in Hrun.
    unfold bind at 1 in Hrun. unfold bind at 1 in Hrun.
    rewrite (strip_step_assigns _ f _ n p) in Hrun by done.
    destruct (String.eqb p "."); [by injection Hrun as <- <-|].
    unfold bind at 1 in Hrun. rewrite filter_step_result in Hrun.
    simpl in Hrun. fold stripped in Hrun. fold keep in Hrun. simpl.
    destruct keep; simpl in *.
    - unfold bind at 1 in Hrun. rewrite map_step_result in Hrun. simpl in Hrun.
      fold stripped in Hrun.
      destruct (Options.map opts) as [map|]; simpl in Hrun.
      + unfold bind at 1, get_file at 1 in Hrun. simpl in Hrun.
        destruct ((map file stripped).2 !! (map file stripped).1);
          [|by injection Hrun as <- <-].
        by apply steady_place in Hrun as [-> _].
      + unfold bind at 1, get_file at 1 in Hrun. simpl in Hrun.
        destruct (stripped !! file); [|by injection Hrun as <- <-].
        by apply steady_place in Hrun as [-> _].
    - unfold bind at 1 in Hrun.
      destruct (discard input _) as [[[]| |] w2] eqn:Hd;
        apply steady_discard in Hd as [Hd _]; simpl in *;
        by injection Hrun as <- <-. }
  split; [done|]. intros Hmap. rewrite Hstore, Hmap.
  assert (stripped !! file = Some (File.with_path p f)) as Hnew.
  { subst stripped. by rewrite lookup_alter_eq, Hfile. }
  by destruct (String.eqb p "." || negb keep).
Qed.

Lemma write_strip_mutates_entry_witness :
  let f := Sample.entry File.file "subdir/a/test.bin" None in
  let w := Sample.world Sample.disk f in
  let opts := Sample.strip_only 1 in
  let run := write 0 (Some 0) "/out" (Some opts) w in
  Options.strip opts = Some 1%Z ∧
  (0 < 1)%Z ∧
  files w !! 0 = Some f ∧
  StripDirs.stripDirs (File.path f) (Z.to_nat 1) = Some "a/test.bin" ∧
  run = (run.1, run.2) ∧
  let stripped := alter (File.with_path "a/test.bin") 0 (files w) in
  let keep :=
    match Options.filter opts with
    | Some filter => filter 0 stripped
    | None => true
    end in
  files run.2 =
    (if String.eqb "a/test.bin" "." || negb keep then stripped
     else match Options.map opts with
          | Some map => (map 0 stripped).2
          | None => stripped
          end) ∧
  (Options.map opts = None →
   files run.2 !! 0 = Some (File.with_path "a/test.bin" f)).
Proof.
  intros f w opts run.
  assert (Options.strip opts = Some 1%Z) as H1 by reflexivity.
  assert (0 < 1)%Z as H2 by lia.
  assert (files w !! 0 = Some f) as H3 by reflexivity.
  assert (StripDirs.stripDirs (File.path f) (Z.to_nat 1) = Some "a/test.bin") as H4
    by (vm_compute; reflexivity).
  assert (run = (run.1, run.2)) as H5 by (by destruct run).
  repeat (split; [assumption|]).
  exact (write_strip_mutates_entry 0 f (Some 0) "/out" opts 1%Z "a/test.bin" w
           run.1 run.2 H1 H2 H3 H4 H5).
Defined.

(** * Further facts about the file system *)

Section Extends.

Lemma extends_refl x : extends x x.
Proof. split; [done|]. intros p n ?. by exists n. Qed.

Lemma extends_trans x1 x2 x3 : extends x1 x2 → extends x2 x3 → extends x1 x3.
Proof.
  intros [Hc1 H1] [Hc2 H2]. split; [congruence|].
  intros p n Hn. destruct (H1 _ _ Hn) as (n2 & Hn2 & Hs2).
  destruct (H2 _ _ Hn2) as (n3 & Hn3 & Hs3). exists n3. split; [done|congruence].
Qed.

Lemma adds_dirs_refl x : adds_dirs x x.
Proof. split_and!; try done. intros p. by left. Qed.

Lemma adds_dirs_trans x1 x2 x3 : adds_dirs x1 x2 → adds_dirs x2 x3 → adds_dirs x1 x3.
Proof.
  intros (Ha1 & Hb1 & Hc1 & Hd1 & H1) (Ha2 & Hb2 & Hc2 & Hd2 & H2).
  split_and!; try congruence.
  intros p. destruct (H2 p) as [E2|(N2 & a & m & E2)].
  - rewrite E2. apply H1.
  - right. destruct (H1 p) as [E1|(N1 & a1 & m1 & E1)]; [|congruence].
    split; [congruence|eauto].
Qed.

Lemma adds_dirs_extends x x' : adds_dirs x x' → extends x x'.
Proof.
  intros (_ & _ & Hc & _ & H). split; [done|]. intros p n Hn.
  destruct (H p) as [E|(N & _)]; [|congruence]. exists n. by rewrite E.
Qed.

Lemma adds_dirs_insert x k a m :
  Fs.nodes x !! k = None →
  adds_dirs x (Fs.with_nodes (<[k := Fs.Dir a m]> (Fs.nodes x)) x).
Proof.
  intros Hk. split_and!; try done. intros p. simpl.
  destruct (decide (p = k)) as [->|Hne].
  - right. split; [done|]. exists a, m. by rewrite lookup_insert_eq.
  - left. by rewrite lookup_insert_ne.
Qed.

Lemma is_dir_cons x s c :
  Fs.is_dir x (s :: c) =
  match Fs.nodes x !! (s :: c) with
  | Some (Fs.Dir _ _) => true
  | _ => false
  end.
Proof. reflexivity. Qed.

Lemma is_dir_extends x x' c :
  extends x x' → Fs.is_dir x c = true → Fs.is_dir x' c = true.
Proof.
  intros [_ H]. destruct c as [|s c]; [done|]. rewrite !is_dir_cons.
  destruct (Fs.nodes x !! (s :: c)) as [[]|] eqn:Hn; try done.
  destruct (H _ _ Hn) as (n' & -> & Hs). by destruct n'.
Qed.

Lemma walk_extends x x' fuel :
  extends x x' → ∀ segs cur c,
  Fs.walk fuel x cur segs = Ok c → Fs.walk fuel x' cur segs = Ok c.
Proof.
  intros Hext. induction fuel as [|fuel IHf].
  all: induction segs as [|s rest IHs]; intros cur c; [by rewrite !walk_nil|].
  all: rewrite !walk_cons.
  all: destruct (Fs.is_dir x cur) eqn:Hd; [|done].
  all: rewrite (is_dir_extends _ _ _ Hext Hd); cbn [negb].
  all: destruct (Fs.is_skip s); [apply IHs|].
  all: destruct (String.eqb s ".."); [apply IHs|].
  all: destruct (Fs.nodes x !! (cur ++ [s])) as [n|] eqn:Hn; [|done].
  all: destruct Hext as [Hc Hext].
  all: destruct (Hext _ _ Hn) as (n' & -> & Hs).
  all: destruct n, n'; try done; simpl in Hs; try apply IHs.
  all: injection Hs as ->.
  destruct (String.eqb target ""); [done|].
  destruct (Fs.walk fuel x _ _) as [c1|] eqn:Hw; [|done].
  rewrite (IHf _ _ _ Hw). apply IHs.
Qed.

End Extends.

Section Mkdirs.

Lemma mkdirp_adds_dirs segs : ∀ x cur r x',
  Fs.mkdirp x cur segs = (r, x') → adds_dirs x x'.
Proof.
  induction segs as [|s rest IH]; intros x cur r x'.
  - simpl. destruct (Fs.is_dir x cur); intros [= _ <-]; apply adds_dirs_refl.
  - rewrite mkdirp_cons.
    destruct (negb (Fs.is_dir x cur)); [intros [= _ <-]; apply adds_dirs_refl|].
    destruct (Fs.is_skip s); [apply IH|].
    destruct (String.eqb s ".."); [apply IH|].
    destruct (Fs.nodes x !! (cur ++ [s])) as [[]|] eqn:Hn; try apply IH.
    + destruct (Fs.walk _ _ _ _); [apply IH|].
      intros [= _ <-]; apply adds_dirs_refl.
    + intros Hrec. apply IH in Hrec.
      eapply adds_dirs_trans; [|done]. by apply adds_dirs_insert.
Qed.

Lemma mkdirp_resolves segs : ∀ x cur x',
  Fs.mkdirp x cur segs = (Ok (), x') →
  match Fs.walk Fs.MAXSYMLINKS x' cur segs with
  | Ok c => Fs.is_dir x' c = true
  | Err _ => False
  end.
Proof.
  induction segs as [|s rest IH]; intros x cur x'.
  - simpl. by destruct (Fs.is_dir x cur) eqn:Hd; intros [= <-].
  - intros Hmk. pose proof (mkdirp_adds_dirs _ _ _ _ _ Hmk) as Hadd.
    apply adds_dirs_extends in Hadd. revert Hmk.
    rewrite mkdirp_cons, (walk_cons _ x' cur s rest).
    destruct (Fs.is_dir x cur) eqn:Hd; [|done].
    rewrite (is_dir_extends _ _ _ Hadd Hd). cbn [negb].
    destruct (Fs.is_skip s) eqn:Hsk; [apply IH|].
    destruct (String.eqb s "..") eqn:Hdd; [apply IH|].
    destruct (Fs.nodes x !! (cur ++ [s])) as [n|] eqn:Hn.
    + destruct Hadd as [_ Hadd]. destruct (Hadd _ _ Hn) as (n' & Hn' & Hs).
      rewrite Hn'. destruct n, n'; try done; try apply IH.
      injection Hs as ->.
      destruct (Fs.walk Fs.MAXSYMLINKS x cur [s]) as [c1|] eqn:Hw; [|done].
      intros Hmk. pose proof (mkdirp_adds_dirs _ _ _ _ _ Hmk) as Hadd'.
      apply adds_dirs_extends in Hadd'.
      apply (walk_extends _ _ _ Hadd') in Hw.
      rewrite walk_cons, Hn', walk_nil in Hw.
      rewrite (is_dir_extends _ _ _ Hadd' Hd), Hdd, Hsk in Hw. cbn [negb] in Hw.
      change Fs.MAXSYMLINKS with (S 39) in Hw.
      change Fs.MAXSYMLINKS with (S 39) at 1.
      destruct (String.eqb target ""); [done|].
      destruct (Fs.walk 39 x' _ _) as [c2|]; [|done].
      injection Hw as ->. by apply IH in Hmk.
    + intros Hmk. pose proof (mkdirp_adds_dirs _ _ _ _ _ Hmk) as Hadd'.
      apply adds_dirs_extends in Hadd'. destruct Hadd' as [_ Hadd'].
      destruct (Hadd' (cur ++ [s]) (Fs.Dir (Fs.clock x) (Fs.clock x)))
        as (n' & -> & Hs); [simpl; by rewrite lookup_insert_eq|].
      destruct n'; try done. by apply IH in Hmk.
Qed.

Lemma mkdirs_adds_dirs x p r x' :
  Fs.mkdirs x p = (r, x') → adds_dirs x x'.
Proof.
  unfold Fs.mkdirs. destruct (String.eqb p "").
  - intros [= _ <-]. apply adds_dirs_refl.
  - apply mkdirp_adds_dirs.
Qed.

Lemma mkdirs_resolves x p x' :
  Fs.mkdirs x p = (Ok (), x') →
  ∃ c, Fs.resolve x' p = Ok c ∧ Fs.is_dir x' c = true.
Proof.
  intros Hmk. pose proof (mkdirs_adds_dirs _ _ _ _ Hmk) as (_ & _ & Hcwd & _).
  revert Hmk. unfold Fs.mkdirs, Fs.resolve, Fs.resolve_from.
  destruct (String.eqb p ""); [done|]. rewrite Hcwd. intros Hmk.
  apply mkdirp_resolves in Hmk. destruct (Fs.walk _ _ _ _) as [c|]; [|done].
  by exists c.
Qed.

End Mkdirs.

Section Locate.

Lemma endsWithSep_cons c s :
  s ≠ [] →
  match rev (c :: s) with a :: _ => is_sep a | [] => false end =
  match rev s with a :: _ => is_sep a | [] => false end.
Proof.
  intros Hs. simpl. destruct (rev s) as [|a r] eqn:Hr; [|done].
  apply (f_equal (@rev _)) in Hr. rewrite rev_involutive in Hr. done.
Qed.

Lemma last_split_chars s :
  s ≠ [] →
  match rev s with a :: _ => is_sep a | [] => false end = false →
  last (Path.split_chars s) ≠ Some [].
Proof.
  induction s as [|c s IH]; [done|]. intros _.
  destruct (decide (s = [])) as [->|Hs].
  - simpl. by destruct (is_sep c).
  - rewrite endsWithSep_cons by done. intros Hend. specialize (IH Hs Hend).
    simpl. pose proof (split_chars_nonnil s) as Hnn.
    destruct (Path.split_chars s) as [|h t]; [done|].
    destruct (is_sep c); [done|]. by destruct t.
Qed.

Lemma last_split p :
  p ≠ "" → Path.endsWithSep p = false → last (Path.split p) ≠ Some "".
Proof.
  intros Hp Hend. unfold Path.split. rewrite fmap_last.
  assert (chars p ≠ []) as Hc.
  { intros Hc. apply Hp. by destruct p. }
  pose proof (last_split_chars _ Hc Hend) as Hl.
  destruct (last (Path.split_chars (chars p))) as [l|]; [|done].
  simpl. intros [= Hs]. apply Hl. f_equal.
  rewrite <-(chars_str l), Hs. done.
Qed.

Lemma walk_app fuel x l1 : ∀ l2 cur,
  Fs.walk fuel x cur (l1 ++ l2) =
  match Fs.walk fuel x cur l1 with
  | Ok c => Fs.walk fuel x c l2
  | Err e => Err e
  end.
Proof.
  induction l1 as [|s l1 IH]; intros l2 cur; [by rewrite walk_nil|].
  rewrite <-app_comm_cons, walk_step, (walk_step _ _ _ s l1).
  destruct (Fs.walk fuel x cur [s]); [apply IH|done].
Qed.

Lemma walk_dir_first fuel x cur s rest c :
  Fs.walk fuel x cur (s :: rest) = Ok c → Fs.is_dir x cur = true.
Proof. rewrite walk_cons. by destruct (Fs.is_dir x cur). Qed.

Lemma walk_filter fuel x segs : ∀ cur c,
  last segs ≠ Some "" →
  Fs.walk fuel x cur (filter (λ s, s ≠ "") segs) = Ok c →
  Fs.walk fuel x cur segs = Ok c.
Proof.
  induction segs as [|s rest IH]; intros cur c Hlast; [done|].
  assert (rest ≠ [] → last rest ≠ Some "") as Hrest.
  { intros Hne. by destruct rest. }
  destruct (decide (s = "")) as [->|Hs].
  - rewrite filter_cons_False by naive_solver.
    destruct rest as [|r rest]; [done|].
    intros Hw. apply IH in Hw; [|by apply Hrest].
    rewrite walk_cons, (walk_dir_first _ _ _ _ _ _ Hw). done.
  - rewrite filter_cons_True by done.
    rewrite walk_step, (walk_step _ _ _ s rest).
    destruct (Fs.walk fuel x cur [s]) as [c1|]; [|done].
    destruct rest as [|r rest]; [done|]. apply IH. by apply Hrest.
Qed.

Lemma split_last_app segs init name :
  Fs.split_last segs = Some (init, name) → segs = init ++ [name].
Proof.
  unfold Fs.split_last. destruct (rev segs) as [|n i] eqn:Hr; [done|].
  intros [= <- <-]. apply (f_equal (@rev _)) in Hr.
  by rewrite rev_involutive in Hr.
Qed.

(** What [locate] finds when it finds an entry. *)
Lemma locate_entry x base p d name :
  Fs.locate_from x base p = Ok (Fs.AtEntry d name) →
  p ≠ "" ∧ Path.endsWithSep p = false ∧
  name ≠ "" ∧ name ≠ "." ∧ name ≠ ".." ∧
  Fs.is_dir x d = true ∧
  ∃ init, filter (λ s, s ≠ "") (Path.split p) = init ++ [name] ∧
          Fs.walk Fs.MAXSYMLINKS x (Fs.start base p) init = Ok d.
Proof.
  unfold Fs.locate_from. destruct (String.eqb p "") eqn:Hp; [done|].
  destruct (Fs.split_last _) as [[init n]|] eqn:Hsl; [|done].
  destruct (Fs.walk _ _ _ _) as [d'|] eqn:Hw; [|done].
  destruct (Fs.is_dir x d') eqn:Hd; [|done]. cbn [negb].
  destruct (Path.endsWithSep p) eqn:He; cbn [orb].
  { by destruct (Fs.walk _ x d' _). }
  destruct (String.eqb n ".") eqn:H1; cbn [orb].
  { by destruct (Fs.walk _ x d' _). }
  destruct (String.eqb n "..") eqn:H2.
  { by destruct (Fs.walk _ x d' _). }
  intros [= <- <-]. apply split_last_app in Hsl.
  apply String.eqb_neq in Hp, H1, H2. split_and!; try done.
  - intros ->.
    assert ("" ∈ filter (λ s, s ≠ "") (Path.split p)) as Hin.
    { rewrite Hsl. apply elem_of_app. right. apply list_elem_of_here. }
    apply list_elem_of_filter in Hin as [Hin _]. by apply Hin.
  - by exists init.
Qed.

Lemma locate_extends x x' base p l :
  extends x x' →
  Fs.locate_from x base p = Ok l → Fs.locate_from x' base p = Ok l.
Proof.
  intros Hext. unfold Fs.locate_from. destruct (String.eqb p ""); [done|].
  destruct (Fs.split_last _) as [[init n]|]; [|done].
  generalize Fs.MAXSYMLINKS. intros F.
  destruct (Fs.walk F x (Fs.start base p) init) as [d|] eqn:Hw; [|done].
  rewrite (walk_extends x x' F Hext init _ d Hw).
  destruct (Fs.is_dir x d) eqn:Hd; [|done].
  rewrite (is_dir_extends _ _ _ Hext Hd). cbn [negb].
  destruct (Path.endsWithSep p || String.eqb n "." || String.eqb n ".."); [|done].
  destruct (Fs.walk F x d [n; ""]) as [d'|] eqn:Hw'; [|done].
  by rewrite (walk_extends x x' F Hext _ _ d' Hw').
Qed.

(** A path to an entry that is no symbolic link resolves to that entry. *)
Lemma locate_entry_resolve x base p d name n :
  Fs.locate_from x base p = Ok (Fs.AtEntry d name) →
  Fs.nodes x !! (d ++ [name]) = Some n →
  (∀ t, n ≠ Fs.Symlink t) →
  Fs.resolve_from x base p = Ok (d ++ [name]).
Proof.
  intros Hloc Hn Hnl.
  apply locate_entry in Hloc
    as (Hp & He & Hn0 & Hn1 & Hn2 & Hd & init & Hsplit & Hw).
  unfold Fs.resolve_from. apply String.eqb_neq in Hp as Hp'. rewrite Hp'.
  apply walk_filter; [by apply last_split|].
  rewrite Hsplit, walk_app, Hw, walk_cons, Hd, walk_nil. cbn [negb].
  unfold Fs.is_skip. apply String.eqb_neq in Hn0, Hn1, Hn2.
  rewrite Hn0, Hn1, Hn2, Hn. cbn [orb]. destruct n; naive_solver.
Qed.

End Locate.

Section FsCalls.

Lemma extends_insert x x' k n :
  Fs.cwd x' = Fs.cwd x →
  Fs.nodes x' = <[k := n]> (Fs.nodes x) →
  (∀ m, Fs.nodes x !! k = Some m → shape n = shape m) →
  extends x x'.
Proof.
  intros Hc Hn Hk. split; [done|]. intros p m Hm. rewrite Hn.
  destruct (decide (p = k)) as [->|Hne].
  - exists n. rewrite lookup_insert_eq. split; [done|]. by apply Hk.
  - exists m. by rewrite lookup_insert_ne.
Qed.

Lemma extends_same_nodes x x' :
  Fs.cwd x' = Fs.cwd x → Fs.nodes x' = Fs.nodes x → extends x x'.
Proof. intros Hc Hn. split; [done|]. intros p m Hm. exists m. by rewrite Hn. Qed.

Lemma mkdirs_extends x p r x' : Fs.mkdirs x p = (r, x') → extends x x'.
Proof. intros H. eapply adds_dirs_extends, mkdirs_adds_dirs, H. Qed.

Lemma symlink_extends x t p r x' : Fs.symlink x t p = (r, x') → extends x x'.
Proof.
  unfold Fs.symlink. destruct (Fs.locate x p) as [[d|d name]|].
  1,3: intros [= _ <-]; apply extends_refl.
  destruct (Fs.nodes x !! (d ++ [name])) eqn:Hn.
  { intros [= _ <-]; apply extends_refl. }
  destruct (String.eqb t ""); intros [= _ <-]; [apply extends_refl|].
  apply (extends_insert x _ (d ++ [name]) (Fs.Symlink t)); [done..|].
  intros m. by rewrite Hn.
Qed.

Lemma link_extends x a p r x' : Fs.link x a p = (r, x') → extends x x'.
Proof.
  unfold Fs.link. destruct (Fs.locate x a) as [[d0|d0 name0]|].
  1,3: intros [= _ <-]; apply extends_refl.
  destruct (Fs.nodes x !! (d0 ++ [name0])) as [n|].
  2: intros [= _ <-]; apply extends_refl.
  assert (∀ r0 : res unit * Fs.t,
    match Fs.locate x p with
    | Ok (Fs.AtDir _) => (Err EEXIST, x)
    | Ok (Fs.AtEntry d name) =>
        match Fs.nodes x !! (d ++ [name]) with
        | Some _ => (Err EEXIST, x)
        | None => (Ok (), Fs.with_nodes (<[d ++ [name] := n]> (Fs.nodes x)) x)
        end
    | Err e => (Err e, x)
    end = (r, x') → extends x x') as Hrest.
  { intros _. destruct (Fs.locate x p) as [[d|d name]|].
    1,3: intros [= _ <-]; apply extends_refl.
    destruct (Fs.nodes x !! (d ++ [name])) eqn:Hn;
      intros [= _ <-]; [apply extends_refl|].
    apply (extends_insert x _ (d ++ [name]) n); [done..|].
    intros m. by rewrite Hn. }
  destruct n; try by apply Hrest.
  intros [= _ <-]; apply extends_refl.
Qed.

Lemma utimes_extends x p a m r x' : Fs.utimes x p a m = (r, x') → extends x x'.
Proof.
  unfold Fs.utimes. destruct (Fs.resolve x p) as [c|].
  2: intros [= _ <-]; apply extends_refl.
  destruct (Fs.nodes x !! c) as [[]|] eqn:Hn.
  - intros [= _ <-]. apply (extends_insert x _ c (Fs.Dir a m)); [done..|].
    intros m0 Hm0.
    assert (Some m0 = Some (Fs.Dir atime mtime)) as [= ->]
      by exact (eq_trans (eq_sym Hm0) Hn).
    done.
  - intros [= _ <-]. by apply extends_same_nodes.
  - intros [= _ <-]; apply extends_refl.
  - destruct (bool_decide _); intros [= _ <-]; apply extends_refl.
Qed.

Lemma open_site_node fuel x : ∀ base p d name,
  Fs.open_site fuel x base p = Ok (d, name) →
  Fs.nodes x !! (d ++ [name]) = None ∨
  ∃ ino, Fs.nodes x !! (d ++ [name]) = Some (Fs.File ino).
Proof.
  induction fuel as [|fuel IH]; intros base p d name; simpl.
  all: destruct (Fs.locate_from x base p) as [[d0|d0 name0]|]; [done| |done].
  all: destruct (Fs.nodes x !! (d0 ++ [name0])) as [[]|] eqn:Hn; try done.
  all: try (intros [= <- <-]; eauto).
  apply IH.
Qed.

Lemma writeFile_extends x p md bytes r x' :
  Fs.writeFile x p md bytes = (r, x') → extends x x'.
Proof.
  unfold Fs.writeFile.
  destruct (Fs.open_site _ _ _ _) as [[d name]|] eqn:Hsite.
  2: intros [= _ <-]; apply extends_refl.
  apply open_site_node in Hsite as [Hn|[ino Hn]]; rewrite Hn.
  - intros [= _ <-].
    apply (extends_insert x _ (d ++ [name]) (Fs.File (Fs.next_ino x))); [done..|].
    intros m. by rewrite Hn.
  - intros [= _ <-]. by apply extends_same_nodes.
Qed.

(** Opening a path for writing, when no symbolic link with a target
    stands at its end: the file is the entry the path names. *)
Lemma open_site_plain x p d name :
  Fs.open_site Fs.MAXSYMLINKS x (Fs.cwd x) p = Ok (d, name) →
  match Fs.readlink x p with Ok t => truthy t | Err _ => false end = false →
  Fs.locate x p = Ok (Fs.AtEntry d name).
Proof.
  unfold Fs.readlink, Fs.locate. change Fs.MAXSYMLINKS with (S 39).
  cbn [Fs.open_site].
  destruct (Fs.locate_from x (Fs.cwd x) p) as [[d0|d0 name0]|]; [done| |done].
  destruct (Fs.nodes x !! (d0 ++ [name0])) as [[]|] eqn:Hn; try done.
  - by intros [= <- <-].
  - intros Hopen Ht. unfold truthy in Ht. apply negb_false_iff in Ht.
    apply String.eqb_eq in Ht as ->. by simpl in Hopen.
  - by intros [= <- <-].
Qed.

Lemma adds_dirs_well_formed x x' :
  adds_dirs x x' → well_formed x → well_formed x'.
Proof.
  intros (Hi & _ & _ & _ & H) Hwf p ino Hp. rewrite Hi.
  destruct (H p) as [E|(_ & a & m & E)]; [|congruence].
  apply (Hwf p). congruence.
Qed.

Lemma is_dir_same_nodes x x' c :
  Fs.nodes x' = Fs.nodes x → Fs.is_dir x' c = Fs.is_dir x c.
Proof. intros Hn. destruct c; [done|]. by rewrite !is_dir_cons, Hn. Qed.

Lemma walk_same_nodes x x' fuel :
  Fs.nodes x' = Fs.nodes x → ∀ segs cur,
  Fs.walk fuel x' cur segs = Fs.walk fuel x cur segs.
Proof.
  intros Hn. induction fuel as [|fuel IHf].
  all: induction segs as [|s rest IHs]; intros cur; [by rewrite !walk_nil|].
  all: rewrite !walk_cons, (is_dir_same_nodes _ _ _ Hn), Hn, !IHs.
  all: destruct (negb (Fs.is_dir x cur)); [done|].
  all: destruct (Fs.is_skip s); [done|].
  all: destruct (String.eqb s ".."); [done|].
  all: destruct (Fs.nodes x !! (cur ++ [s])) as [[]|]; try done.
  destruct (String.eqb target ""); [done|]. rewrite IHf.
  destruct (Fs.walk fuel x _ _); [apply IHs|done].
Qed.

Lemma resolve_same_nodes x x' p :
  Fs.cwd x' = Fs.cwd x → Fs.nodes x' = Fs.nodes x →
  Fs.resolve x' p = Fs.resolve x p.
Proof.
  intros Hc Hn. unfold Fs.resolve, Fs.resolve_from. rewrite Hc.
  destruct (String.eqb p ""); [done|]. by apply walk_same_nodes.
Qed.

(** Setting the times of a regular file reached through the path of an
    entry. *)
Lemma utimes_entry x p d name ino a m :
  Fs.locate x p = Ok (Fs.AtEntry d name) →
  Fs.nodes x !! (d ++ [name]) = Some (Fs.File ino) →
  Fs.utimes x p a m =
  (Ok (),
   Fs.with_inodes
     (alter (λ i, Fs.Inode (Fs.data i) (Fs.mode i) a m) ino (Fs.inodes x)) x).
Proof.
  intros Hloc Hnode.
  assert (Fs.resolve x p = Ok (d ++ [name])) as Hres.
  { by apply (locate_entry_resolve _ _ _ _ _ (Fs.File ino)). }
  unfold Fs.utimes. rewrite Hres. unfold Fs.cpath. by rewrite Hnode.
Qed.

(** Content written through a path is what the path gives back, with the
    times set after the writing. *)
Lemma write_then_read x p md bytes a m x1 x2 :
  well_formed x →
  match Fs.readlink x p with Ok t => truthy t | Err _ => false end = false →
  Fs.writeFile x p md bytes = (Ok (), x1) →
  Fs.utimes x1 p a m = (Ok (), x2) →
  ∃ c ino i,
    Fs.resolve x2 p = Ok c ∧
    Fs.nodes x2 !! c = Some (Fs.File ino) ∧
    Fs.inodes x2 !! ino = Some i ∧
    Fs.data i = bytes ∧ Fs.atime i = a ∧ Fs.mtime i = m ∧
    (Fs.nodes x !! c = None ∧ Fs.mode i = md ∨
     ∃ old, Fs.nodes x !! c = Some (Fs.File ino) ∧
            Fs.inodes x !! ino = Some old ∧ Fs.mode i = Fs.mode old) ∧
    Fs.readFile x2 p = Some bytes.
Proof.
  intros Hwf Hguard Hwrite Hut.
  pose proof (writeFile_extends _ _ _ _ _ _ Hwrite) as Hext.
  revert Hwrite. unfold Fs.writeFile.
  destruct (Fs.open_site _ _ _ _) as [[d name]|] eqn:Hsite; [|done].
  pose proof (open_site_plain _ _ _ _ Hsite Hguard) as Hloc.
  apply open_site_node in Hsite.
  assert (Fs.locate x1 p = Ok (Fs.AtEntry d name)) as Hloc1.
  { unfold Fs.locate. rewrite (proj1 Hext).
    apply (locate_extends x x1); [exact Hext|exact Hloc]. }
  assert (∀ ino i0,
    Fs.nodes x1 !! (d ++ [name]) = Some (Fs.File ino) →
    Fs.inodes x1 !! ino = Some i0 →
    Fs.data i0 = bytes →
    (Fs.nodes x !! (d ++ [name]) = None ∧ Fs.mode i0 = md ∨
     ∃ old, Fs.nodes x !! (d ++ [name]) = Some (Fs.File ino) ∧
            Fs.inodes x !! ino = Some old ∧ Fs.mode i0 = Fs.mode old) →
    ∃ c ino i,
      Fs.resolve x2 p = Ok c ∧
      Fs.nodes x2 !! c = Some (Fs.File ino) ∧
      Fs.inodes x2 !! ino = Some i ∧
      Fs.data i = bytes ∧ Fs.atime i = a ∧ Fs.mtime i = m ∧
      (Fs.nodes x !! c = None ∧ Fs.mode i = md ∨
       ∃ old, Fs.nodes x !! c = Some (Fs.File ino) ∧
              Fs.inodes x !! ino = Some old ∧ Fs.mode i = Fs.mode old) ∧
      Fs.readFile x2 p = Some bytes) as Hfin.
  { intros ino i0 Hnode Hino Hdata Hmode.
    rewrite (utimes_entry _ _ _ _ _ _ _ Hloc1 Hnode) in Hut.
    injection Hut as <-.
    exists (d ++ [name]), ino, (Fs.Inode (Fs.data i0) (Fs.mode i0) a m).
    assert (Fs.resolve
              (Fs.with_inodes
                 (alter (λ i, Fs.Inode (Fs.data i) (Fs.mode i) a m) ino
                    (Fs.inodes x1)) x1) p = Ok (d ++ [name])) as Hres.
    { rewrite (resolve_same_nodes x1) by done.
      by apply (locate_entry_resolve _ _ _ _ _ (Fs.File ino)). }
    unfold Fs.readFile. rewrite Hres.
    cbn [Fs.nodes Fs.inodes Fs.with_inodes]. unfold Fs.cpath.
    rewrite Hnode, lookup_alter_eq, Hino. cbn. rewrite Hdata.
    split_and!; done. }
  destruct Hsite as [Hn|[ino Hn]]; rewrite Hn.
  - intros [= <-]. apply (Hfin (Fs.next_ino x) (Fs.Inode bytes md (Fs.clock x) (Fs.clock x))).
    + cbn [Fs.nodes]. by rewrite lookup_insert_eq.
    + cbn [Fs.inodes]. by rewrite lookup_insert_eq.
    + done.
    + by left.
  - intros [= <-]. destruct (Hwf _ _ Hn) as [i0 Hi0].
    apply (Hfin ino (Fs.Inode bytes (Fs.mode i0) (Fs.atime i0) (Fs.clock x))).
    + done.
    + cbn [Fs.inodes Fs.with_inodes]. by rewrite lookup_alter_eq, Hi0.
    + done.
    + right. by exists i0.
Qed.

End FsCalls.

(** * What [safeMakeDir] leaves alone, and when it refuses *)

Section SafeMakeDirFrame.

Lemma finish_level_frame dir root real w r w' :
  finish_level dir root real w = (r, w') →
  adds_dirs (fs w) (fs w') ∧ streams w' = streams w ∧
  ∀ v, r = Return v →
       ∃ c, Fs.resolve (fs w') dir = Ok c ∧ v = Fs.render c ∧
            Fs.is_dir (fs w') c = true.
Proof.
  unfold finish_level, bind, contained, mkdirs, realpath, throw. simpl.
  destruct (startsWith real root); simpl.
  - destruct (Fs.mkdirs (fs w) dir) as [[[]|e] x'] eqn:Hmk; simpl.
    + pose proof (mkdirs_adds_dirs _ _ _ _ Hmk) as Hadd.
      apply mkdirs_resolves in Hmk as (c & Hres & Hdir).
      intros [= <- <-]. simpl. split_and!; [done..|].
      intros v. unfold Fs.realpath. rewrite Hres. intros [= <-]. by exists c.
    + pose proof (mkdirs_adds_dirs _ _ _ _ Hmk) as Hadd.
      intros [= <- <-]. by split_and!.
  - intros [= <- <-]. split_and!; [apply adds_dirs_refl|done..].
Qed.

Lemma safeMakeDir_rec_frame fuel : ∀ dir root w r w',
  safeMakeDir_rec fuel dir root w = (r, w') →
  adds_dirs (fs w) (fs w') ∧ streams w' = streams w ∧
  ∀ v, r = Return v →
       ∃ c, Fs.resolve (fs w') dir = Ok c ∧ v = Fs.render c ∧
            Fs.is_dir (fs w') c = true.
Proof.
  induction fuel as [|fuel IH]; intros dir root w r w'.
  - intros [= <- <-]. split_and!; [apply adds_dirs_refl|done..].
  - rewrite safeMakeDir_rec_unfold.
    destruct (Fs.realpath (fs w) dir); [apply finish_level_frame|].
    destruct (safeMakeDir_rec fuel (Path.dirname dir) root w)
      as [[real| |] w1] eqn:Hrec.
    all: apply IH in Hrec as (Hadd & Hstr & _).
    + intros Hfl. apply finish_level_frame in Hfl as (Hadd' & Hstr' & Hpost).
      split_and!; [by eapply adds_dirs_trans|congruence|done].
    + intros [= <- <-]. by split_and!.
    + intros [= <- <-]. by split_and!.
Qed.

(** The nearest ancestor that exists decides: when its canonical path
    fails the test, the call is refused on the spot. *)
Lemma safeMakeDir_rec_refuses k : ∀ fuel dir root w real,
  k < fuel →
  (∀ j, j < k → ∃ e, Fs.realpath (fs w) (ancestor j dir) = Err e) →
  Fs.realpath (fs w) (ancestor k dir) = Ok real →
  startsWith real root = false →
  safeMakeDir_rec fuel dir root w =
  (Throw RefusingCreateOutside,
   emit (EvContain (ancestor k dir) real false) w).
Proof.
  induction k as [|k IH]; intros fuel dir root w real Hfuel Hmiss Hreal Hout.
  all: destruct fuel as [|fuel]; [lia|]; rewrite safeMakeDir_rec_unfold.
  - simpl in Hreal. rewrite Hreal.
    unfold finish_level, bind, contained, throw. by rewrite Hout.
  - destruct (Hmiss 0) as [e He]; [lia|]. simpl in He. rewrite He.
    rewrite (IH fuel (Path.dirname dir) root w real); [done|lia| |done..].
    intros j Hj. apply (Hmiss (S j)). lia.
Qed.

(** The allowance of [safeMakeDir] is enough for every run that comes to
    an end at all. *)
Lemma safeMakeDir_as_rec fuel dir root w :
  Path.isAbsolute dir = true ∨ Fs.is_dir (fs w) (Fs.cwd (fs w)) = true →
  (safeMakeDir_rec fuel dir root w).1 ≠ Unfinished →
  safeMakeDir dir root w = safeMakeDir_rec fuel dir root w.
Proof.
  intros Hbase Hfin. unfold safeMakeDir, depth_bound.
  pose proof (safeMakeDir_rec_finished (Path.nseg dir) dir root w Hbase
                (le_n _)) as Hfin'.
  rewrite <-(safeMakeDir_rec_more_fuel _ (S (S (Path.nseg dir)) + fuel))
    by (done || lia).
  apply safeMakeDir_rec_more_fuel; [lia|done].
Qed.

End SafeMakeDirFrame.

(** * Frames *)

Section Keeps.

Context (R : World → World → Prop) {HF : Frame R}.

Lemma keeps_ret {A} (a : A) : keeps R (ret a).
Proof. intros w r w' [= <- <-]. apply frame_refl. Qed.

Lemma keeps_throw {A} e : keeps R (throw (A:=A) e).
Proof. intros w r w' [= <- <-]. apply frame_refl. Qed.

Lemma keeps_bind {A B} (m : M A) (k : A → M B) :
  keeps R m → (∀ a, keeps R (k a)) → keeps R (bind m k).
Proof.
  intros Hm Hk w r w'. unfold bind.
  destruct (m w) as [[a|e|] w1] eqn:Hmw; pose proof (Hm _ _ _ Hmw) as H1.
  - intros Hka. eapply frame_trans; [exact H1|]. by eapply Hk.
  - by intros [= <- <-].
  - by intros [= <- <-].
Qed.

Lemma keeps_try_catch {A} (m : M A) (h : error → M A) :
  keeps R m → (∀ e, keeps R (h e)) → keeps R (try_catch m h).
Proof.
  intros Hm Hh w r w'. unfold try_catch.
  destruct (m w) as [[a|e|] w1] eqn:Hmw; pose proof (Hm _ _ _ Hmw) as H1.
  - by intros [= <- <-].
  - intros Hhe. eapply frame_trans; [exact H1|]. by eapply Hh.
  - by intros [= <- <-].
Qed.

Lemma keeps_realpath p : keeps R (realpath p).
Proof. intros w r w' [= <- <-]. apply frame_refl. Qed.

Lemma keeps_readlink p : keeps R (readlink p).
Proof. intros w r w' [= <- <-]. apply frame_refl. Qed.

Lemma keeps_Date_now : keeps R Date_now.
Proof. intros w r w' [= <- <-]. apply frame_refl. Qed.

Lemma keeps_platform : keeps R platform_is_win32.
Proof. intros w r w' [= <- <-]. apply frame_refl. Qed.

Lemma keeps_the_linkname f : keeps R (the_linkname f).
Proof.
  unfold the_linkname. destruct (File.linkname f);
    [apply keeps_ret|apply keeps_throw].
Qed.

Lemma keeps_contained d r o : keeps R (contained d r o).
Proof. intros w r0 w' [= <- <-]. apply frame_emit. Qed.

Lemma keeps_within r o : keeps R (within r o).
Proof. intros w r0 w' [= <- <-]. apply frame_emit. Qed.

Lemma keeps_get_file file : keeps R (get_file file).
Proof.
  intros w r w'. unfold get_file.
  destruct (files w !! file); intros [= <- <-]; apply frame_refl.
Qed.

Lemma keeps_set_path file p : keeps R (set_path file p).
Proof. intros w r0 w' [= <- <-]. apply frame_files. Qed.

Lemma keeps_stripDirs p n : keeps R (stripDirs p n).
Proof.
  unfold stripDirs. destruct (StripDirs.stripDirs p (Z.to_nat n));
    [apply keeps_ret|apply keeps_throw].
Qed.

Lemma keeps_call_filter flt file : keeps R (call_filter flt file).
Proof. intros w r0 w' [= <- <-]. apply frame_refl. Qed.

Lemma keeps_call_map mp file : keeps R (call_map mp file).
Proof.
  intros w r0 w'. unfold call_map. destruct (mp file (files w)).
  intros [= <- <-]. apply frame_files.
Qed.

Lemma keeps_mkdirs p : keeps R (mkdirs p).
Proof.
  intros w r w'. unfold mkdirs.
  destruct (Fs.mkdirs (fs w) p) as [r0 x'] eqn:H. intros [= <- <-].
  eapply frame_trans; [|apply frame_emit].
  apply frame_mkdir, (mkdirs_adds_dirs _ _ _ _ H).
Qed.

Section Links.

Context {HL : FrameFs R}.

Lemma keeps_link a b : keeps R (link a b).
Proof.
  intros w r w'. unfold link.
  destruct (Fs.link (fs w) a b) as [r0 x'] eqn:H. intros [= <- <-].
  eapply frame_trans; [|apply frame_emit].
  apply frame_fs, (link_extends _ _ _ _ _ H).
Qed.

Lemma keeps_symlink a b : keeps R (symlink a b).
Proof.
  intros w r w'. unfold symlink.
  destruct (Fs.symlink (fs w) a b) as [r0 x'] eqn:H. intros [= <- <-].
  eapply frame_trans; [|apply frame_emit].
  apply frame_fs, (symlink_extends _ _ _ _ _ H).
Qed.

Lemma keeps_utimes p a m : keeps R (utimes p a m).
Proof.
  intros w r w'. unfold utimes.
  destruct (Fs.utimes (fs w) p a m) as [r0 x'] eqn:H. intros [= <- <-].
  eapply frame_trans; [|apply frame_emit].
  apply frame_fs, (utimes_extends _ _ _ _ _ _ H).
Qed.

End Links.

Section Streams.

Context {HS : FrameStreams R}.

Lemma keeps_resume i : keeps R (resume i).
Proof.
  intros w r0 w' [= <- <-].
  eapply frame_trans; [|apply frame_emit]. apply frame_streams.
Qed.

Lemma keeps_pipeline {HL : FrameFs R} i p m : keeps R (pipeline i p m).
Proof.
  intros w r w'. unfold pipeline.
  destruct (Fs.writeFile (fs w) p m _) as [r0 x'] eqn:H. intros [= <- <-].
  eapply frame_trans; [|apply frame_emit].
  eapply frame_trans; [|apply frame_streams].
  apply frame_fs, (writeFile_extends _ _ _ _ _ _ H).
Qed.

End Streams.

End Keeps.

#[global] Hint Resolve keeps_ret keeps_throw keeps_bind keeps_try_catch
  keeps_realpath keeps_readlink keeps_Date_now keeps_platform
  keeps_the_linkname keeps_contained keeps_within keeps_resume
  keeps_get_file keeps_set_path keeps_stripDirs keeps_call_filter
  keeps_call_map keeps_mkdirs keeps_link keeps_symlink keeps_utimes
  keeps_pipeline : keeps.
#[global] Hint Extern 5 (keeps _ (if ?b then _ else _)) => destruct b : keeps.
#[global] Hint Extern 5 (keeps _ (match ?x with _ => _ end)) => destruct x : keeps.

Section KeepsSource.

Context (R : World → World → Prop) {HF : Frame R}.

Lemma keeps_safeMakeDir_rec fuel : ∀ dir root,
  keeps R (safeMakeDir_rec fuel dir root).
Proof.
  induction fuel as [|fuel IH]; intros dir root.
  - intros w r w' [= <- <-]. apply frame_refl.
  - change (safeMakeDir_rec (S fuel) dir root) with
      (realParentPath ←
         try_catch (realpath dir)
           (λ _, safeMakeDir_rec fuel (Path.dirname dir) root);
       ok ← contained dir realParentPath root;
       if negb ok then throw RefusingCreateOutside
       else mkdirs dir;; realpath dir).
    auto 10 with keeps.
Qed.

Lemma keeps_safeMakeDir dir root : keeps R (safeMakeDir dir root).
Proof. apply keeps_safeMakeDir_rec. Qed.

Lemma keeps_guard dest : keeps R (preventWritingThroughSymlink dest).
Proof. intros w r w'. rewrite guard_cases. intros [= <- <-]. apply frame_refl. Qed.

(** A file entry without content: nothing but directories. *)
Lemma keeps_place_no_content f output :
  File.type f = File.file → keeps R (place f None output).
Proof.
  intros Hkind. unfold place, deliver. rewrite Hkind. cbv iota.
  pose proof keeps_safeMakeDir. pose proof keeps_guard.
  apply (keeps_bind R); [auto with keeps|intros now].
  apply (keeps_bind R); [auto with keeps|intros _].
  apply (keeps_bind R); [auto with keeps|intros root].
  destruct (decide (File.file = File.directory)); [done|].
  destruct (decide (File.file = File.file)); [|done].
  auto 12 with keeps.
Qed.

Section SourceLinks.

Context {HL : FrameFs R}.

(** An entry that is no file: directories, links and times. *)
Lemma keeps_place_no_file f input output :
  File.type f ≠ File.file → keeps R (place f input output).
Proof.
  intros Hkind. unfold place, deliver.
  pose proof keeps_safeMakeDir. pose proof keeps_guard.
  apply (keeps_bind R); [auto with keeps|intros now].
  apply (keeps_bind R); [auto with keeps|intros _].
  apply (keeps_bind R); [auto with keeps|intros root].
  destruct (File.type f); [done|..].
  1,2: destruct (decide (_ = File.directory)); [done|].
  1,2: destruct (decide (_ = File.file)); [done|].
  3: destruct (decide (File.directory = File.directory)); [|done].
  all: auto 14 with keeps.
Qed.

Context {HS : FrameStreams R}.

Lemma keeps_deliver f input output dest now :
  keeps R (deliver f input output dest now).
Proof. unfold deliver. auto 10 with keeps. Qed.

Lemma keeps_place f input output : keeps R (place f input output).
Proof.
  unfold place. pose proof keeps_safeMakeDir. pose proof keeps_guard.
  pose proof keeps_deliver. auto 12 with keeps.
Qed.

Lemma keeps_policy file input opts : keeps R (policy file input opts).
Proof.
  unfold policy, strip_step, filter_step, discard, map_step.
  auto 12 with keeps.
Qed.

Lemma keeps_write file input output opts :
  keeps R (write file input output opts).
Proof.
  intros w r w'. rewrite write_policy. revert w r w'.
  apply (keeps_bind R); [apply keeps_policy|].
  intros [file'|]; [|by apply keeps_ret].
  apply (keeps_bind R); [by apply keeps_get_file|]. intros f. apply keeps_place.
Qed.

End SourceLinks.

End KeepsSource.

Section Frames.

#[global] Instance dirs_only_frame : Frame dirs_only.
Proof.
  split.
  - intros w. split; [apply adds_dirs_refl|done].
  - intros w1 w2 w3 [H1 S1] [H2 S2].
    split; [by eapply adds_dirs_trans|congruence].
  - intros e w. split; [apply adds_dirs_refl|done].
  - intros x w. split; [apply adds_dirs_refl|done].
  - intros x w H. by split.
Qed.

#[global] Instance same_streams_frame : Frame same_streams.
Proof. split; unfold same_streams; try done. intros; simpl in *; congruence. Qed.

#[global] Instance same_streams_fs : FrameFs same_streams.
Proof. by intros x w _. Qed.

#[global] Instance fs_extends_frame : Frame fs_extends.
Proof.
  split; unfold fs_extends.
  - intros w. apply extends_refl.
  - intros w1 w2 w3. apply extends_trans.
  - intros e w. apply extends_refl.
  - intros x w. apply extends_refl.
  - intros x w. apply adds_dirs_extends.
Qed.

#[global] Instance fs_extends_fs : FrameFs fs_extends.
Proof. by intros x w H. Qed.

#[global] Instance fs_extends_streams : FrameStreams fs_extends.
Proof. intros s w. apply extends_refl. Qed.

End Frames.

(** * Runs that return *)

Section Inversion.

Lemma bind_returns {A B} (m : M A) (k : A → M B) w b w' :
  bind m k w = (Return b, w') →
  ∃ a w1, m w = (Return a, w1) ∧ k a w1 = (Return b, w').
Proof.
  unfold bind. destruct (m w) as [[a|e|] w1]; [|done..]. intros H. by exists a, w1.
Qed.

Lemma symlink_done x t p x' :
  Fs.symlink x t p = (Ok (), x') →
  ∃ d name,
    Fs.locate x p = Ok (Fs.AtEntry d name) ∧
    Fs.nodes x !! (d ++ [name]) = None ∧ t ≠ "" ∧
    x' = Fs.with_nodes (<[d ++ [name] := Fs.Symlink t]> (Fs.nodes x)) x.
Proof.
  unfold Fs.symlink. destruct (Fs.locate x p) as [[d|d name]|]; [done| |done].
  destruct (Fs.nodes x !! (d ++ [name])) eqn:Hn; [done|].
  destruct (String.eqb t "") eqn:Ht; [done|]. intros [= <-].
  apply String.eqb_neq in Ht. by exists d, name.
Qed.

Lemma link_done x a p x' :
  Fs.link x a p = (Ok (), x') →
  ∃ d0 name0 d name n,
    Fs.locate x a = Ok (Fs.AtEntry d0 name0) ∧
    Fs.nodes x !! (d0 ++ [name0]) = Some n ∧ (∀ t m, n ≠ Fs.Dir t m) ∧
    Fs.locate x p = Ok (Fs.AtEntry d name) ∧
    Fs.nodes x !! (d ++ [name]) = None ∧
    x' = Fs.with_nodes (<[d ++ [name] := n]> (Fs.nodes x)) x.
Proof.
  unfold Fs.link. destruct (Fs.locate x a) as [[d0|d0 name0]|]; [done| |done].
  destruct (Fs.nodes x !! (d0 ++ [name0])) as [n|] eqn:Hn0; [|done].
  assert (match Fs.locate x p with
    | Ok (Fs.AtDir _) => (Err EEXIST, x)
    | Ok (Fs.AtEntry d name) =>
        match Fs.nodes x !! (d ++ [name]) with
        | Some _ => (Err EEXIST, x)
        | None => (Ok (), Fs.with_nodes (<[d ++ [name] := n]> (Fs.nodes x)) x)
        end
    | Err e => (Err e, x)
    end = (Ok (), x') →
    ∃ d name,
      Fs.locate x p = Ok (Fs.AtEntry d name) ∧
      Fs.nodes x !! (d ++ [name]) = None ∧
      x' = Fs.with_nodes (<[d ++ [name] := n]> (Fs.nodes x)) x) as Hrest.
  { destruct (Fs.locate x p) as [[d|d name]|]; [done| |done].
    destruct (Fs.nodes x !! (d ++ [name])) eqn:Hn; [done|].
    intros [= <-]. by exists d, name. }
  destruct n; [done|..]; intros H; apply Hrest in H as (d & name & ? & ? & ?).
  all: eexists d0, name0, d, name, _; split_and!; done.
Qed.

Lemma readlink_adds_dirs x x' p t :
  adds_dirs x x' → Fs.readlink x p = Ok t → Fs.readlink x' p = Ok t.
Proof.
  intros Hadd. pose proof (adds_dirs_extends _ _ Hadd) as Hext.
  destruct Hadd as (_ & _ & Hc & _ & Hn).
  unfold Fs.readlink, Fs.locate. rewrite Hc.
  destruct (Fs.locate_from x (Fs.cwd x) p) as [l|] eqn:Hloc; [|done].
  rewrite (locate_extends _ _ _ _ _ Hext Hloc).
  destruct l as [|d name]; [done|].
  destruct (Hn (d ++ [name])) as [->|[-> _]]; done.
Qed.

(** A run of [place] that returns, for an entry that is no directory:
    up to the last part only directories were added, and the guard let
    the entry through. *)
Lemma place_returns f input output w w' :
  File.type f ≠ File.directory →
  place f input output w = (Return (), w') →
  ∃ w2,
    dirs_only w w2 ∧ win32 w2 = win32 w ∧
    guard_blocks (fs w2) f (Path.join output (File.path f)) = false ∧
    deliver f input output (Path.join output (File.path f))
      (Fs.clock (fs w)) w2 = (Return (), w').
Proof.
  intros Hkind H. unfold place in H.
  apply bind_returns in H as (now & w1 & [= <- <-] & H).
  apply bind_returns in H as ([] & w2 & Hmk & H).
  apply bind_returns in H as (root & w3 & Hroot & H).
  assert (w3 = w2) as -> by (unfold realpath in Hroot; congruence).
  destruct (decide (File.type f = File.directory)) as [|_]; [done|].
  apply bind_returns in H as (real & w4 & Hsafe & H).
  apply bind_returns in H as ([] & w5 & Hguard & H).
  apply bind_returns in H as (rd & w6 & Hrd & H).
  assert (w6 = w5) as -> by (unfold realpath in Hrd; congruence).
  apply bind_returns in H as (ok & w7 & [= <- <-] & H).
  destruct (startsWith rd root); [|done]. cbn [negb] in H.
  assert (w5 = w4 ∧
          guard_blocks (fs w4) f (Path.join output (File.path f)) = false)
    as [-> Hpass].
  { unfold guard_blocks.
    destruct (decide (File.type f = File.file)) as [Hfile|Hfile].
    - rewrite guard_cases in Hguard. rewrite Hfile.
      destruct (Fs.readlink (fs w4) _) as [t|]; [|by injection Hguard].
      destruct (truthy t); [done|]. by injection Hguard.
    - injection Hguard as <-. by destruct (File.type f). }
  exists (emit (EvWithin rd true) w4). split_and!; [| |exact Hpass|exact H].
  - eapply frame_trans; [|apply frame_emit].
    eapply frame_trans; [by eapply (keeps_mkdirs dirs_only)|].
    by eapply (keeps_safeMakeDir dirs_only).
  - apply steady_mkdirs in Hmk as (_ & Hw2 & _).
    apply steady_safeMakeDir in Hsafe as (_ & Hw4 & _). simpl. congruence.
Qed.

End Inversion.

Section Further.

Lemma well_formed_check x : well_formed_b x = true → well_formed x.
Proof.
  intros H p ino Hp. apply bool_decide_eq_true_1 in H.
  specialize (H p _ Hp). simpl in H. by apply bool_decide_eq_true_1 in H.
Qed.

End Further.

(** * Further properties *)

(** X1 — an entry the filter turns down, [strip] being absent or not
    positive: [write] returns without an error; if there is a stream it is
    made to flow, and nothing else happens: the file system and the entry
    objects are as they were, and [map] is not called. *)
Theorem write_filtered_out file input output opts flt w :
  opts ≫= Options.filter = Some flt →
  (default 0 (opts ≫= Options.strip) ≤ 0)%Z →
  flt file (files w) = false →
  write file input output opts w =
  match input with
  | Some i =>
      (Return (),
       emit (EvResume i) (set_streams (alter flowing i (streams w)) w))
  | None => (Return (), w)
  end.
Proof.
  intros Hflt Hstrip Hno. rewrite write_policy.
  unfold policy, strip_step, bind at 1.
  apply Z.ltb_ge in Hstrip. rewrite Hstrip. unfold bind at 1, ret at 1.
  unfold bind at 1. rewrite filter_step_result, Hflt, Hno.
  cbn [negb]. by destruct input.
Qed.

Lemma write_filtered_out_witness :
  write 0 (Some 0) "/out"
    (Some (Options.Make (Some (λ _ _, false)) None None))
    (Sample.world Sample.disk (Sample.entry File.file "a" None)) =
  (Return (),
   emit (EvResume 0)
     (set_streams
        (alter flowing 0
           (streams (Sample.world Sample.disk (Sample.entry File.file "a" None))))
        (Sample.world Sample.disk (Sample.entry File.file "a" None)))).
Proof.
  exact (write_filtered_out 0 (Some 0) "/out"
           (Some (Options.Make (Some (λ _ _, false)) None None)) (λ _ _, false)
           (Sample.world Sample.disk (Sample.entry File.file "a" None))
           eq_refl ltac:(simpl; lia) eq_refl).
Defined.

(** X2 — stripping comes first.  With [strip = n > 0], when strip-dirs
    leaves a path other than ["."], [write] goes on exactly as a call
    without [strip] does on the entry object with the stripped path: it is
    the stripped path that [filter] and [map] see and that the destination
    is computed from. *)
Theorem write_strips_first file f input output o n p w :
  Options.strip o = Some n →
  (0 < n)%Z →
  files w !! file = Some f →
  StripDirs.stripDirs (File.path f) (Z.to_nat n) = Some p →
  p ≠ "." →
  write file input output (Some o) w =
  write file input output (Some (without_strip o))
    (set_files (alter (File.with_path p) file (files w)) w).
Proof.
  intros Hstrip Hpos Hfile Hp Hdot. rewrite !write_policy.
  assert (policy file input (Some o) w =
          policy file input (Some (without_strip o))
            (set_files (alter (File.with_path p) file (files w)) w)) as Hpol.
  { unfold policy at 1. unfold bind at 1.
    rewrite (strip_step_assigns _ f _ n p) by done.
    apply String.eqb_neq in Hdot. by rewrite Hdot. }
  unfold bind at 1 3. by rewrite Hpol.
Qed.

Lemma write_strips_first_witness :
  write 0 (Some 0) "/out" (Some (Sample.strip_only 1))
    (Sample.world Sample.disk (Sample.entry File.file "a/b" None)) =
  write 0 (Some 0) "/out" (Some (without_strip (Sample.strip_only 1)))
    (set_files
       (alter (File.with_path "b") 0
          (files (Sample.world Sample.disk (Sample.entry File.file "a/b" None))))
       (Sample.world Sample.disk (Sample.entry File.file "a/b" None))).
Proof.
  exact (write_strips_first 0 (Sample.entry File.file "a/b" None) (Some 0) "/out"
           (Sample.strip_only 1) 1 "b"
           (Sample.world Sample.disk (Sample.entry File.file "a/b" None))
           eq_refl ltac:(lia) eq_refl eq_refl ltac:(discriminate)).
Defined.



(** X5 — whatever its outcome, [safeMakeDir] only adds directories:
    every name that existed keeps its node, the contents of the files and
    the clock are the same, and no stream is touched. *)
Theorem safeMakeDir_only_adds_directories dir root w :
  dirs_only w (safeMakeDir dir root w).2.
Proof.
  destruct (safeMakeDir dir root w) as [r w'] eqn:H.
  by apply (keeps_safeMakeDir dirs_only) in H.
Qed.





(** X7 — a symbolic link with a target is never written through.  When
    the destination of a file entry is a symbolic link whose target is not
    empty, [write] does not return, whatever the output directory and the
    stream; and whichever error ends the run, only directories were added
    before it: no content was written anywhere and no stream was
    touched. *)
Theorem write_never_writes_through_link
    file file' f input output opts w w0 target r w' :
  policy file input opts w = (Return (Some file'), w0) →
  files w0 !! file' = Some f →
  File.type f = File.file →
  Fs.readlink (fs w0) (Path.join output (File.path f)) = Ok target →
  target ≠ "" →
  write file input output opts w = (r, w') →
  (∀ v, r ≠ Return v) ∧ dirs_only w0 w'.
Proof.
  intros Hpol Hfile Hkind Hlink Hne.
  rewrite write_policy. unfold bind at 1. rewrite Hpol.
  unfold bind at 1, get_file at 1. rewrite Hfile.
  unfold place.
  unfold bind at 1. unfold Date_now at 1.
  unfold bind at 1.
  destruct (mkdirs output w0) as [[[]|e|] w1] eqn:Hmk.
  all: pose proof (keeps_mkdirs dirs_only _ _ _ _ Hmk) as H1.
  2,3: by intros [= <- <-].
  unfold bind at 1. unfold realpath at 1.
  destruct (Fs.realpath (fs w1) output) as [root|e]; simpl;
    [|by intros [= <- <-]].
  destruct (decide (File.type f = File.directory)) as [Hd|_]; [congruence|].
  unfold bind at 1.
  destruct (safeMakeDir _ root w1) as [[real|e|] w2] eqn:Hsafe.
  all: pose proof (keeps_safeMakeDir dirs_only _ _ _ _ _ Hsafe) as H2.
  all: pose proof (frame_trans _ _ _ H1 H2) as H12.
  2,3: by intros [= <- <-].
  destruct (decide (File.type f = File.file)) as [_|]; [|done].
  unfold bind at 1.
  rewrite (guard_refuses_target _ target); [by intros [= <- <-]| |done].
  apply (readlink_adds_dirs (fs w0)); [apply H12|done].
Qed.

Lemma write_never_writes_through_link_witness :
  (∀ v,
     (write 0 (Some 0) "/out" None
        (Sample.world (Sample.disk_with_link "d")
           (Sample.entry File.file "p" None))).1 ≠ Return v) ∧
  dirs_only
    (Sample.world (Sample.disk_with_link "d") (Sample.entry File.file "p" None))
    (write 0 (Some 0) "/out" None
       (Sample.world (Sample.disk_with_link "d")
          (Sample.entry File.file "p" None))).2.
Proof.
  apply (write_never_writes_through_link 0 0 (Sample.entry File.file "p" None)
           (Some 0) "/out" None
           (Sample.world (Sample.disk_with_link "d")
              (Sample.entry File.file "p" None))
           (Sample.world (Sample.disk_with_link "d")
              (Sample.entry File.file "p" None))
           "d").
  - reflexivity.
  - reflexivity.
  - reflexivity.
  - vm_compute. reflexivity.
  - discriminate.
  - apply surjective_pairing.
Defined.



Section LinkFacts.

(** The link call of an entry that [write] placed: what the last part of
    [write] is for a link entry. *)
Lemma write_link_returns file file' f l input output opts w w0 w' :
  policy file input opts w = (Return (Some file'), w0) →
  files w0 !! file' = Some f →
  File.type f = File.link ∨ File.type f = File.symlink →
  File.linkname f = Some l →
  write file input output opts w = (Return (), w') →
  ∃ x2, adds_dirs (fs w0) x2 ∧
        link_call x2 (win32 w0) f output l = (Ok (), fs w').
Proof.
  intros Hpol Hfile Hkind Hl.
  rewrite write_policy. unfold bind at 1. rewrite Hpol.
  unfold bind at 1, get_file at 1. rewrite Hfile. intros Hplace.
  apply place_returns in Hplace
    as (w2 & [Hadd Hstr] & Hwin & Hpass & Hdel); [|by destruct Hkind as [->| ->]].
  exists (fs w2). split; [done|].
  destruct (link_call (fs w2) (win32 w2) f output l) as [res x3] eqn:Hcall.
  rewrite (deliver_link _ _ _ l _ _ res x3 Hkind Hl Hcall) in Hdel.
  rewrite <-Hwin, Hcall. destruct res as [[]|]; [|done].
  by injection Hdel as <-.
Qed.

End LinkFacts.

(** X9 — a hard link, also the one made for a symbolic link entry on
    win32.  When [write] returns, the destination is a new name for the
    very node that [join(output, linkname)] names, which is no directory;
    no content was written, and if the node is a regular file both paths
    read the same. *)
Theorem write_link_shares_node file file' f l input output opts w w0 w' :
  policy file input opts w = (Return (Some file'), w0) →
  files w0 !! file' = Some f →
  File.type f = File.link ∨ (File.type f = File.symlink ∧ win32 w0 = true) →
  File.linkname f = Some l →
  write file input output opts w = (Return (), w') →
  ∃ d0 name0 d name nd,
    Fs.locate (fs w') (Path.join output l) = Ok (Fs.AtEntry d0 name0) ∧
    Fs.locate (fs w') (Path.join output (File.path f)) = Ok (Fs.AtEntry d name) ∧
    Fs.nodes (fs w') !! (d0 ++ [name0]) = Some nd ∧
    Fs.nodes (fs w') !! (d ++ [name]) = Some nd ∧
    (∀ t m, nd ≠ Fs.Dir t m) ∧
    Fs.nodes (fs w0) !! (d ++ [name]) = None ∧
    Fs.inodes (fs w') = Fs.inodes (fs w0) ∧
    (∀ ino, nd = Fs.File ino →
            Fs.readFile (fs w') (Path.join output (File.path f)) =
            Fs.readFile (fs w') (Path.join output l)).
Proof.
  intros Hpol Hfile Hkind Hl Hret.
  destruct (write_link_returns _ _ _ _ _ _ _ _ _ _ Hpol Hfile
              ltac:(destruct Hkind as [?|[? _]]; [by left|by right]) Hl Hret)
    as (x2 & Hadd & Hcall).
  assert (Fs.link x2 (Path.join output l) (Path.join output (File.path f)) =
          (Ok (), fs w')) as Hlink.
  { revert Hcall. unfold link_call.
    destruct Hkind as [->|[-> ->]]; done. }
  apply link_done in Hlink
    as (d0 & name0 & d & name & nd & Hsrc & Hnd & Hnodir & Hdst & Hfree & Hfs).
  assert (extends x2 (fs w')) as Hext.
  { rewrite Hfs. apply (extends_insert x2 _ (d ++ [name]) nd); [done..|].
    intros m Hm. by pose proof (eq_trans (eq_sym Hm) Hfree). }
  assert (d0 ++ [name0] ≠ d ++ [name]) as Hdiff.
  { intros E. rewrite E in Hnd. by pose proof (eq_trans (eq_sym Hnd) Hfree). }
  assert (Fs.nodes (fs w') !! (d0 ++ [name0]) = Some nd) as Hnd'.
  { rewrite Hfs. cbn [Fs.nodes Fs.with_nodes]. by rewrite lookup_insert_ne. }
  assert (Fs.nodes (fs w') !! (d ++ [name]) = Some nd) as Hdst'.
  { rewrite Hfs. cbn [Fs.nodes Fs.with_nodes]. by rewrite lookup_insert_eq. }
  assert (Fs.locate (fs w') (Path.join output l) = Ok (Fs.AtEntry d0 name0))
    as Hsrc'.
  { unfold Fs.locate. rewrite (proj1 Hext).
    by apply (locate_extends x2 (fs w')). }
  assert (Fs.locate (fs w') (Path.join output (File.path f)) =
          Ok (Fs.AtEntry d name)) as Hdst''.
  { unfold Fs.locate. rewrite (proj1 Hext).
    by apply (locate_extends x2 (fs w')). }
  exists d0, name0, d, name, nd. split_and!; try done.
  - destruct Hadd as (_ & _ & _ & _ & Hn).
    destruct (Hn (d ++ [name])) as [E|[E _]]; [|exact E].
    exact (eq_trans (eq_sym E) Hfree).
  - rewrite Hfs. cbn [Fs.inodes Fs.with_nodes]. apply Hadd.
  - intros ino ->. unfold Fs.readFile, Fs.resolve.
    rewrite (locate_entry_resolve _ _ _ _ _ _ Hsrc' Hnd') by done.
    rewrite (locate_entry_resolve _ _ _ _ _ _ Hdst'' Hdst') by done.
    unfold Fs.cpath. by rewrite Hnd', Hdst'.
Qed.

Lemma write_link_shares_node_witness :
  ∃ d0 name0 d name nd,
    Fs.locate
      (fs (write 0 None "/out" None
             (Sample.world Sample.disk
                (Sample.entry File.link "h" (Some "../etc/passwd")))).2)
      "/etc/passwd" = Ok (Fs.AtEntry d0 name0) ∧
    Fs.locate
      (fs (write 0 None "/out" None
             (Sample.world Sample.disk
                (Sample.entry File.link "h" (Some "../etc/passwd")))).2)
      "/out/h" = Ok (Fs.AtEntry d name) ∧
    Fs.nodes
      (fs (write 0 None "/out" None
             (Sample.world Sample.disk
                (Sample.entry File.link "h" (Some "../etc/passwd")))).2)
      !! (d0 ++ [name0]) = Some nd ∧
    Fs.nodes
      (fs (write 0 None "/out" None
             (Sample.world Sample.disk
                (Sample.entry File.link "h" (Some "../etc/passwd")))).2)
      !! (d ++ [name]) = Some nd ∧
    (∀ t m, nd ≠ Fs.Dir t m) ∧
    Fs.nodes Sample.disk !! (d ++ [name]) = None ∧
    Fs.inodes
      (fs (write 0 None "/out" None
             (Sample.world Sample.disk
                (Sample.entry File.link "h" (Some "../etc/passwd")))).2) =
      Fs.inodes Sample.disk ∧
    (∀ ino, nd = Fs.File ino →
            Fs.readFile
              (fs (write 0 None "/out" None
                     (Sample.world Sample.disk
                        (Sample.entry File.link "h" (Some "../etc/passwd")))).2)
              "/out/h" =
            Fs.readFile
              (fs (write 0 None "/out" None
                     (Sample.world Sample.disk
                        (Sample.entry File.link "h" (Some "../etc/passwd")))).2)
              "/etc/passwd").
Proof.
  apply (write_link_shares_node 0 0
           (Sample.entry File.link "h" (Some "../etc/passwd")) "../etc/passwd"
           None "/out" None
           (Sample.world Sample.disk
              (Sample.entry File.link "h" (Some "../etc/passwd")))
           (Sample.world Sample.disk
              (Sample.entry File.link "h" (Some "../etc/passwd")))).
  - reflexivity.
  - reflexivity.
  - by left.
  - reflexivity.
  - vm_compute. reflexivity.
Defined.

(** X10 — a symbolic link entry, off win32.  When [write] returns, the
    destination is a symbolic link whose target is the link name of the
    entry, character for character (it is not joined to the output
    directory, and need not exist); the name is not empty, and no content
    was written. *)
Theorem write_symlink_keeps_target file file' f l input output opts w w0 w' :
  policy file input opts w = (Return (Some file'), w0) →
  files w0 !! file' = Some f →
  File.type f = File.symlink →
  win32 w0 = false →
  File.linkname f = Some l →
  write file input output opts w = (Return (), w') →
  Fs.readlink (fs w') (Path.join output (File.path f)) = Ok l ∧
  l ≠ "" ∧
  Fs.inodes (fs w') = Fs.inodes (fs w0).
Proof.
  intros Hpol Hfile Hkind Hwin Hl Hret.
  destruct (write_link_returns _ _ _ _ _ _ _ _ _ _ Hpol Hfile
              (or_intror Hkind) Hl Hret) as (x2 & Hadd & Hcall).
  unfold link_call in Hcall. rewrite Hkind, Hwin in Hcall.
  apply symlink_done in Hcall as (d & name & Hloc & Hfree & Hne & Hfs).
  assert (extends x2 (fs w')) as Hext.
  { rewrite Hfs. apply (extends_insert x2 _ (d ++ [name]) (Fs.Symlink l)); [done..|].
    intros m Hm. by pose proof (eq_trans (eq_sym Hm) Hfree). }
  split_and!; [|done|].
  - unfold Fs.readlink, Fs.locate. rewrite (proj1 Hext).
    rewrite (locate_extends x2 (fs w') _ _ _ Hext Hloc).
    rewrite Hfs. cbn [Fs.nodes Fs.with_nodes]. by rewrite lookup_insert_eq.
  - rewrite Hfs. cbn [Fs.inodes Fs.with_nodes]. apply Hadd.
Qed.

Lemma write_symlink_keeps_target_witness :
  Fs.readlink
    (fs (write 0 None "/out" None
           (Sample.world Sample.disk
              (Sample.entry File.symlink "s" (Some "../../etc/passwd")))).2)
    "/out/s" = Ok "../../etc/passwd" ∧
  "../../etc/passwd" ≠ "" ∧
  Fs.inodes
    (fs (write 0 None "/out" None
           (Sample.world Sample.disk
              (Sample.entry File.symlink "s" (Some "../../etc/passwd")))).2) =
  Fs.inodes Sample.disk.
Proof.
  apply (write_symlink_keeps_target 0 0
           (Sample.entry File.symlink "s" (Some "../../etc/passwd"))
           "../../etc/passwd" None "/out" None
           (Sample.world Sample.disk
              (Sample.entry File.symlink "s" (Some "../../etc/passwd")))
           (Sample.world Sample.disk
              (Sample.entry File.symlink "s" (Some "../../etc/passwd")))).
  - reflexivity.
  - reflexivity.
  - reflexivity.
  - reflexivity.
  - reflexivity.
  - vm_compute. reflexivity.
Defined.

(** X11 — a file entry without a stream ([input] is [null]): whatever
    the outcome, [write] only adds directories; no file is created, none is
    truncated, and no times are set. *)
Theorem write_file_without_content file file' f output opts w w0 :
  policy file None opts w = (Return (Some file'), w0) →
  files w0 !! file' = Some f →
  File.type f = File.file →
  dirs_only w0 (write file None output opts w).2.
Proof.
  intros Hpol Hfile Hkind.
  rewrite write_policy. unfold bind at 1. rewrite Hpol.
  unfold bind at 1, get_file at 1. rewrite Hfile.
  destruct (place f None output w0) as [r w'] eqn:H.
  by apply (keeps_place_no_content dirs_only) in H.
Qed.

Lemma write_file_without_content_witness :
  dirs_only
    (Sample.world Sample.disk (Sample.entry File.file "a/b" None))
    (write 0 None "/out" None
       (Sample.world Sample.disk (Sample.entry File.file "a/b" None))).2.
Proof.
  exact (write_file_without_content 0 0 (Sample.entry File.file "a/b" None)
           "/out" None
           (Sample.world Sample.disk (Sample.entry File.file "a/b" None))
           (Sample.world Sample.disk (Sample.entry File.file "a/b" None))
           eq_refl eq_refl eq_refl).
Defined.



(** X13 — the second containment test repeats the first.  When the
    parent of the destination exists once the output directory is there,
    [write] never throws 'Refusing to write outside output directory': a
    path that would fail the test of line 102 has failed the one of
    [safeMakeDir] before. *)
Theorem write_second_test_agrees
    file file' f input output opts w w0 c r w' :
  policy file input opts w = (Return (Some file'), w0) →
  files w0 !! file' = Some f →
  File.type f ≠ File.directory →
  Fs.resolve (Fs.mkdirs (fs w0) output).2
    (Path.dirname (Path.join output (File.path f))) = Ok c →
  write file input output opts w = (r, w') →
  ∀ real, r ≠ Throw (RefusingWriteOutside real).
Proof.
  intros Hpol Hfile Hkind Hres.
  rewrite write_policy. unfold bind at 1. rewrite Hpol.
  unfold bind at 1, get_file at 1. rewrite Hfile.
  destruct (Fs.mkdirs (fs w0) output) as [[[]|e] x1] eqn:Hmk; simpl in Hres.
  2: { unfold place. unfold bind at 1. unfold Date_now at 1.
       unfold bind at 1. unfold mkdirs at 1. rewrite Hmk. simpl.
       by intros [= <- <-]. }
  destruct (Fs.realpath x1 output) as [root|e] eqn:Hroot.
  2: { unfold place. unfold bind at 1. unfold Date_now at 1.
       unfold bind at 1. unfold mkdirs at 1. rewrite Hmk. simpl.
       unfold bind at 1. unfold realpath at 1. simpl. rewrite Hroot.
       by intros [= <- <-]. }
  destruct (startsWith (Fs.render c) root) eqn:Hin.
  - rewrite (place_existing_parent _ _ _ _ x1 root c) by done. cbv zeta.
    destruct (Fs.is_dir x1 c); [|by intros [= <- <-]].
    destruct (guard_blocks x1 f _); [by intros [= <- <-]|].
    intros Hdel real ->. by apply deliver_no_escape in Hdel.
  - unfold place. unfold bind at 1. unfold Date_now at 1.
    unfold bind at 1. unfold mkdirs at 1. rewrite Hmk. simpl.
    unfold bind at 1. unfold realpath at 1. simpl. rewrite Hroot. simpl.
    destruct (decide (File.type f = File.directory)) as [|_]; [done|].
    unfold bind at 1. unfold safeMakeDir, depth_bound.
    rewrite (safeMakeDir_rec_refuses 0 _ _ _ _ (Fs.render c));
      [by intros [= <- <-]|lia|intros j; lia| |done].
    by apply realpath_resolve.
Qed.

Lemma write_second_test_agrees_witness :
  Fs.resolve (Fs.mkdirs Sample.disk "/out").2 "/etc" = Ok ["etc"] ∧
  ∀ real,
    (write 0 (Some 0) "/out" None
       (Sample.world Sample.disk
          (Sample.entry File.file "../etc/shadow" None))).1 ≠
    Throw (RefusingWriteOutside real).
Proof.
  split; [vm_compute; reflexivity|].
  apply (write_second_test_agrees 0 0
           (Sample.entry File.file "../etc/shadow" None) (Some 0) "/out" None
           (Sample.world Sample.disk
              (Sample.entry File.file "../etc/shadow" None))
           (Sample.world Sample.disk
              (Sample.entry File.file "../etc/shadow" None))
           ["etc"]
           (write 0 (Some 0) "/out" None
              (Sample.world Sample.disk
                 (Sample.entry File.file "../etc/shadow" None))).1
           (write 0 (Some 0) "/out" None
              (Sample.world Sample.disk
                 (Sample.entry File.file "../etc/shadow" None))).2).
  - reflexivity.
  - reflexivity.
  - discriminate.
  - vm_compute. reflexivity.
  - apply surjective_pairing.
Defined.

(** X14 — [write] never removes a name, never turns a name into one of
    another kind and never changes the target of a symbolic link, whatever
    the entry, the options and the outcome. *)
Theorem write_never_removes file input output opts w :
  extends (fs w) (fs (write file input output opts w).2).
Proof.
  destruct (write file input output opts w) as [r w'] eqn:H.
  by apply (keeps_write fs_extends) in H.
Qed.

(** X15 — a directory entry.  When [write] returns, the destination
    resolves to a directory; unless that is the root, its modification time
    is the one of the entry and its access time the time of the call. *)
Theorem write_directory_entry file file' f input output opts w w0 w' :
  policy file input opts w = (Return (Some file'), w0) →
  files w0 !! file' = Some f →
  File.type f = File.directory →
  write file input output opts w = (Return (), w') →
  ∃ c,
    Fs.resolve (fs w') (Path.join output (File.path f)) = Ok c ∧
    Fs.is_dir (fs w') c = true ∧
    (c ≠ [] →
     Fs.nodes (fs w') !! c = Some (Fs.Dir (Fs.clock (fs w0)) (File.mtime f))).
Proof.
  intros Hpol Hfile Hkind.
  rewrite write_policy. unfold bind at 1. rewrite Hpol.
  unfold bind at 1, get_file at 1. rewrite Hfile. intros H.
  unfold place in H.
  apply bind_returns in H as (now & w1 & [= <- <-] & H).
  apply bind_returns in H as ([] & w2 & Hmk & H).
  apply bind_returns in H as (root & w3 & Hroot & H).
  destruct (decide (File.type f = File.directory)) as [_|]; [|done].
  apply bind_returns in H as (real & w4 & Hsafe & H).
  apply safeMakeDir_rec_frame in Hsafe as (_ & _ & Hpost).
  destruct (Hpost real eq_refl) as (c & Hres & _ & Hdir).
  unfold utimes in H.
  destruct (Fs.utimes (fs w4) _ _ _) as [[[]|] x5] eqn:Hut; [|done].
  injection H as <-. simpl.
  pose proof (utimes_extends _ _ _ _ _ _ Hut) as Hext.
  exists c. split_and!.
  - revert Hres. unfold Fs.resolve, Fs.resolve_from. rewrite (proj1 Hext).
    destruct (String.eqb _ ""); [done|]. by apply walk_extends.
  - by apply (is_dir_extends (fs w4)).
  - intros Hc. revert Hut. unfold Fs.utimes. rewrite Hres.
    destruct c as [|s c]; [done|]. rewrite is_dir_cons in Hdir.
    unfold Fs.cpath.
    destruct (Fs.nodes (fs w4) !! (s :: c)) as [[]|]; try done.
    intros [= <-]. cbn [Fs.nodes Fs.with_nodes]. by rewrite lookup_insert_eq.
Qed.

Lemma write_directory_entry_witness :
  ∃ c,
    Fs.resolve
      (fs (write 0 None "/out" None
             (Sample.world Sample.disk
                (Sample.entry File.directory "d/e" None))).2)
      "/out/d/e" = Ok c ∧
    Fs.is_dir
      (fs (write 0 None "/out" None
             (Sample.world Sample.disk
                (Sample.entry File.directory "d/e" None))).2)
      c = true ∧
    (c ≠ [] →
     Fs.nodes
       (fs (write 0 None "/out" None
              (Sample.world Sample.disk
                 (Sample.entry File.directory "d/e" None))).2)
       !! c = Some (Fs.Dir 1000 500)).
Proof.
  apply (write_directory_entry 0 0 (Sample.entry File.directory "d/e" None)
           None "/out" None
           (Sample.world Sample.disk (Sample.entry File.directory "d/e" None))
           (Sample.world Sample.disk (Sample.entry File.directory "d/e" None))).
  - reflexivity.
  - reflexivity.
  - reflexivity.
  - vm_compute. reflexivity.
Defined.

(** * The stream of the tests *)

Section SegmentStreamFacts.

Lemma segments_from n : ∀ s,
  0 < SegmentStream.size s →
  length (SegmentStream.source s) - SegmentStream.offset s < n →
  ∃ segs,
    SegmentStream.segments n s = (segs, true) ∧
    concat segs = drop (SegmentStream.offset s) (SegmentStream.source s) ∧
    Forall (λ c, 0 < length c ≤ SegmentStream.size s) segs.
Proof.
  induction n as [|n IH]; intros [src off sz] Hsz Hn; simpl in *; [lia|].
  unfold SegmentStream._read. simpl.
  destruct (Nat.leb_spec (length src) off) as [Hend|Hmore].
  - exists []. rewrite drop_ge by done. by split_and!.
  - set (buf := take sz (drop off src)).
    assert (length buf = sz `min` (length src - off)) as Hlen.
    { unfold buf. by rewrite length_take, length_drop. }
    destruct (IH (SegmentStream.Make src (off + length buf) sz))
      as (rest & -> & Hcat & Hall); simpl in *; [done|lia|].
    exists (buf :: rest). split_and!; [done| |].
    + simpl. rewrite Hcat, <-drop_drop. unfold buf.
      destruct (Nat.le_gt_cases sz (length (drop off src))) as [Hle|Hgt].
      * rewrite length_take_le by done. apply take_drop.
      * rewrite take_ge by lia. rewrite drop_all. apply app_nil_r.
    + constructor; [lia|done].
Qed.

(** X16 — the stream of the tests gives its source: called again and
    again, [_read] pushes segments of one to twenty bytes whose
    concatenation is the buffer the stream was made from, and then the end
    of the stream; one call more than the buffer has bytes is enough. *)
Theorem segment_stream_gives_source src :
  ∃ segs,
    SegmentStream.segments (S (length src)) (SegmentStream.new src) =
      (segs, true) ∧
    concat segs = src ∧
    Forall (λ c, 0 < length c ≤ 20) segs.
Proof.
  destruct (segments_from (S (length src)) (SegmentStream.new src))
    as (segs & H1 & H2 & H3); simpl; [lia..|].
  exists segs. split_and!; done.
Qed.

End SegmentStreamFacts.

(** * Runs that fail *)

Section Failures.

Lemma bind_cases {A B} (m : M A) (k : A → M B) w r w' :
  bind m k w = (r, w') →
  (∃ a w1, m w = (Return a, w1) ∧ k a w1 = (r, w')) ∨
  ((∀ v, r ≠ Return v) ∧ ∃ r0, m w = (r0, w') ∧ ∀ v, r0 ≠ Return v).
Proof.
  unfold bind. destruct (m w) as [[a|e|] w1].
  - intros H. left. by exists a, w1.
  - intros [= <- <-]. right. split; [done|]. by exists (Throw e).
  - intros [= <- <-]. right. split; [done|]. by exists Unfinished.
Qed.

Lemma utimes_failed x p a m e x' : Fs.utimes x p a m = (Err e, x') → x' = x.
Proof.
  unfold Fs.utimes. destruct (Fs.resolve x p) as [c|]; [|by intros [= _ <-]].
  destruct (Fs.nodes x !! c) as [[]|]; try done.
  - by intros [= _ <-].
  - destruct (bool_decide _); [done|]. by intros [= _ <-].
Qed.

Lemma symlink_failed x t p e x' : Fs.symlink x t p = (Err e, x') → x' = x.
Proof.
  unfold Fs.symlink. destruct (Fs.locate x p) as [[d|d name]|].
  1,3: by intros [= _ <-].
  destruct (Fs.nodes x !! (d ++ [name])); [by intros [= _ <-]|].
  destruct (String.eqb t ""); [by intros [= _ <-]|done].
Qed.

Lemma link_failed x a p e x' : Fs.link x a p = (Err e, x') → x' = x.
Proof.
  unfold Fs.link. destruct (Fs.locate x a) as [[d0|d0 name0]|].
  1,3: by intros [= _ <-].
  destruct (Fs.nodes x !! (d0 ++ [name0])) as [n|]; [|by intros [= _ <-]].
  assert (match Fs.locate x p with
    | Ok (Fs.AtDir _) => (Err EEXIST, x)
    | Ok (Fs.AtEntry d name) =>
        match Fs.nodes x !! (d ++ [name]) with
        | Some _ => (Err EEXIST, x)
        | None => (Ok (), Fs.with_nodes (<[d ++ [name] := n]> (Fs.nodes x)) x)
        end
    | Err e => (Err e, x)
    end = (Err e, x') → x' = x) as Hrest.
  { destruct (Fs.locate x p) as [[d|d name]|].
    1,3: by intros [= _ <-].
    destruct (Fs.nodes x !! (d ++ [name])); [by intros [= _ <-]|done]. }
  destruct n; [by intros [= _ <-]|exact Hrest..].
Qed.

(** The link, or the times, of an entry that is no file: the last call
    of [write], which changes nothing when it fails. *)
Lemma deliver_fails f input output now w r w' :
  File.type f = File.link ∨ File.type f = File.symlink →
  deliver f input output (Path.join output (File.path f)) now w = (r, w') →
  (∀ v, r ≠ Return v) →
  fs w' = fs w ∧ streams w' = streams w.
Proof.
  intros Hkind Hdel Hfail.
  destruct (File.linkname f) as [l|] eqn:Hl.
  - destruct (link_call (fs w) (win32 w) f output l) as [res x2] eqn:Hcall.
    rewrite (deliver_link _ _ _ l _ _ res x2 Hkind Hl Hcall) in Hdel.
    injection Hdel as <- <-. destruct res as [[]|e]; [by destruct (Hfail ())|].
    simpl. split; [|done]. revert Hcall. unfold link_call.
    destruct (File.type f); try destruct (win32 w).
    all: first [apply link_failed|apply symlink_failed].
  - revert Hdel. unfold deliver, bind, the_linkname, platform_is_win32.
    rewrite Hl. destruct Hkind as [-> | ->]; simpl.
    + by intros [= <- <-].
    + destruct (win32 w); by intros [= <- <-].
Qed.

Lemma place_fails f input output w r w' :
  File.type f ≠ File.file →
  place f input output w = (r, w') →
  (∀ v, r ≠ Return v) →
  dirs_only w w'.
Proof.
  intros Hkind H Hfail. unfold place in H.
  apply bind_cases in H as [(now & w1 & [= <- <-] & H)|(_ & r0 & [= <- <-] & _)];
    [|apply frame_refl].
  apply bind_cases in H as [([] & w2 & Hmk & H)|(_ & r0 & Hmk & _)];
    pose proof (keeps_mkdirs dirs_only _ _ _ _ Hmk) as H1; [|done].
  apply bind_cases in H as [(root & w3 & Hroot & H)|(_ & r0 & Hroot & _)];
    pose proof (keeps_realpath dirs_only _ _ _ _ Hroot) as H2;
    pose proof (frame_trans _ _ _ H1 H2) as H12; [|done].
  destruct (decide (File.type f = File.directory)) as [Hdir|Hdir].
  - apply bind_cases in H as [(real & w4 & Hsafe & H)|(_ & r0 & Hsafe & _)];
      pose proof (keeps_safeMakeDir dirs_only _ _ _ _ _ Hsafe) as H3;
      pose proof (frame_trans _ _ _ H12 H3) as H13; [|done].
    unfold utimes in H.
    destruct (Fs.utimes (fs w4) _ _ _) as [[[]|e] x5] eqn:Hut.
    + injection H as <- <-. by destruct (Hfail ()).
    + injection H as <- <-. apply utimes_failed in Hut as ->.
      eapply frame_trans; [exact H13|]. destruct w4. apply frame_emit.
  - apply bind_cases in H as [(real & w4 & Hsafe & H)|(_ & r0 & Hsafe & _)];
      pose proof (keeps_safeMakeDir dirs_only _ _ _ _ _ Hsafe) as H3;
      pose proof (frame_trans _ _ _ H12 H3) as H13; [|done].
    destruct (decide (File.type f = File.file)) as [|_]; [done|].
    apply bind_cases in H as [([] & w5 & [= <-] & H)|(_ & r0 & [= _ <-] & _)];
      [|done].
    apply bind_cases in H as [(rd & w6 & Hrd & H)|(_ & r0 & Hrd & _)];
      pose proof (keeps_realpath dirs_only _ _ _ _ Hrd) as H4;
      pose proof (frame_trans _ _ _ H13 H4) as H14; [|done].
    apply bind_cases in H as [(ok & w7 & [= <- <-] & H)|(_ & r0 & [= _ <-] & _)];
      [|done].
    pose proof (frame_trans _ _ _ H14 (frame_emit (R:=dirs_only)
                  (EvWithin rd (startsWith rd root)) w6)) as H15.
    destruct (startsWith rd root); cbn [negb] in H.
    + apply deliver_fails in H as [Hfs Hstr]; [|by destruct (File.type f); auto|done].
      destruct H15 as [Ha Hs]. split; [by rewrite Hfs|congruence].
    + by injection H as <- <-.
Qed.

End Failures.

(** X17 — mapping.  When [strip] is absent or not positive and the
    filter, if there is one, accepts the entry (it is asked about the
    entry as it is before [map]), [write] goes on exactly as a call without
    options does on the entry that [map] returns. *)
Theorem write_maps_entry file input output o mp w :
  Options.map o = Some mp →
  (default 0 (Options.strip o) ≤ 0)%Z →
  match Options.filter o with
  | Some flt => flt file (files w) = true
  | None => True
  end →
  write file input output (Some o) w =
  write (mp file (files w)).1 input output None
    (set_files (mp file (files w)).2 w).
Proof.
  intros Hmap Hstrip Hflt. rewrite !write_policy.
  assert (policy file input (Some o) w =
          (Return (Some (mp file (files w)).1),
           set_files (mp file (files w)).2 w)) as Hpol.
  { unfold policy, strip_step. simpl.
    apply Z.ltb_ge in Hstrip. rewrite Hstrip.
    unfold bind at 1, ret at 1. unfold bind at 1.
    rewrite filter_step_result. simpl.
    assert (match Options.filter o with
            | Some flt => flt file (files w)
            | None => true
            end = true) as -> by by destruct (Options.filter o).
    cbn [negb]. unfold bind at 1. rewrite map_step_result. simpl.
    by rewrite Hmap. }
  unfold bind at 1 3. by rewrite Hpol, policy_default.
Qed.

Lemma write_maps_entry_witness :
  write 0 (Some 0) "/out"
    (Some (Options.Make None
             (Some (λ _ store, (1, <[1 := Sample.entry File.file "b" None]> store)))
             None))
    (Sample.world Sample.disk (Sample.entry File.file "a" None)) =
  write 1 (Some 0) "/out" None
    (set_files
       (<[1 := Sample.entry File.file "b" None]>
          (files (Sample.world Sample.disk (Sample.entry File.file "a" None))))
       (Sample.world Sample.disk (Sample.entry File.file "a" None))).
Proof.
  exact (write_maps_entry 0 (Some 0) "/out"
           (Options.Make None
              (Some (λ _ store, (1, <[1 := Sample.entry File.file "b" None]> store)))
              None)
           (λ _ store, (1, <[1 := Sample.entry File.file "b" None]> store))
           (Sample.world Sample.disk (Sample.entry File.file "a" None))
           eq_refl ltac:(simpl; lia) I).
Defined.

(** X18 — an entry other than a file whose run does not return has left
    nothing but directories behind: no link was made, no times were set,
    no content was written and no stream was touched. *)
Theorem write_failed_entry_leaves_directories
    file file' f input output opts w w0 r w' :
  policy file input opts w = (Return (Some file'), w0) →
  files w0 !! file' = Some f →
  File.type f ≠ File.file →
  write file input output opts w = (r, w') →
  (∀ v, r ≠ Return v) →
  dirs_only w0 w'.
Proof.
  intros Hpol Hfile Hkind.
  rewrite write_policy. unfold bind at 1. rewrite Hpol.
  unfold bind at 1, get_file at 1. rewrite Hfile.
  by apply place_fails.
Qed.

Lemma write_failed_entry_leaves_directories_witness :
  (∀ v,
     (write 0 None "/out" None
        (Sample.world Sample.disk
           (Sample.entry File.link "a/h" (Some "missing")))).1 ≠ Return v) ∧
  dirs_only
    (Sample.world Sample.disk (Sample.entry File.link "a/h" (Some "missing")))
    (write 0 None "/out" None
       (Sample.world Sample.disk
          (Sample.entry File.link "a/h" (Some "missing")))).2.
Proof.
  assert (∀ v,
     (write 0 None "/out" None
        (Sample.world Sample.disk
           (Sample.entry File.link "a/h" (Some "missing")))).1 ≠ Return v)
    as Hfail.
  { intros v H. vm_compute in H. discriminate H. }
  split; [exact Hfail|].
  apply (write_failed_entry_leaves_directories 0 0
           (Sample.entry File.link "a/h" (Some "missing")) None "/out" None
           (Sample.world Sample.disk
              (Sample.entry File.link "a/h" (Some "missing")))
           (Sample.world Sample.disk
              (Sample.entry File.link "a/h" (Some "missing")))
           (write 0 None "/out" None
              (Sample.world Sample.disk
                 (Sample.entry File.link "a/h" (Some "missing")))).1).
  - reflexivity.
  - reflexivity.
  - discriminate.
  - apply surjective_pairing.
  - exact Hfail.
Defined.

(** X19 — a link never replaces what is there.  When the destination of
    a hard link or symbolic link entry exists, whatever it is, [write] does
    not return, and nothing but directories has been added. *)
Theorem write_link_never_replaces
    file file' f input output opts w w0 d name n r w' :
  policy file input opts w = (Return (Some file'), w0) →
  files w0 !! file' = Some f →
  File.type f = File.link ∨ File.type f = File.symlink →
  Fs.locate (fs w0) (Path.join output (File.path f)) = Ok (Fs.AtEntry d name) →
  Fs.nodes (fs w0) !! (d ++ [name]) = Some n →
  write file input output opts w = (r, w') →
  (∀ v, r ≠ Return v) ∧ dirs_only w0 w'.
Proof.
  intros Hpol Hfile Hkind Hloc Hnode.
  rewrite write_policy. unfold bind at 1. rewrite Hpol.
  unfold bind at 1, get_file at 1. rewrite Hfile. intros Hplace.
  assert (∀ v, r ≠ Return v) as Hfail.
  { intros [] ->.
    apply place_returns in Hplace
      as (w2 & [Hadd Hstr] & Hwin & Hpass & Hdel);
      [|by destruct Hkind as [-> | ->]].
    assert (Fs.locate (fs w2) (Path.join output (File.path f)) =
            Ok (Fs.AtEntry d name)) as Hloc2.
    { unfold Fs.locate. rewrite (proj1 (adds_dirs_extends _ _ Hadd)).
      apply (locate_extends (fs w0)); [by apply adds_dirs_extends|exact Hloc]. }
    assert (Fs.nodes (fs w2) !! (d ++ [name]) = Some n) as Hnode2.
    { destruct Hadd as (_ & _ & _ & _ & Hn).
      destruct (Hn (d ++ [name])) as [E|[E _]].
      - exact (eq_trans E Hnode).
      - by pose proof (eq_trans (eq_sym E) Hnode). }
    destruct (File.linkname f) as [l|] eqn:Hl.
    - destruct (link_call (fs w2) (win32 w2) f output l) as [res x3] eqn:Hcall.
      rewrite (deliver_link _ _ _ l _ _ res x3 Hkind Hl Hcall) in Hdel.
      destruct res as [[]|]; [|done]. revert Hcall. unfold link_call.
      assert (∀ a, Fs.link (fs w2) a (Path.join output (File.path f)) ≠
                   (Ok (), x3)) as Hno_link.
      { intros a Hlink. apply link_done in Hlink
          as (? & ? & d' & name' & ? & _ & _ & _ & Hloc' & Hfree & _).
        rewrite Hloc2 in Hloc'. injection Hloc' as <- <-.
        by pose proof (eq_trans (eq_sym Hfree) Hnode2). }
      assert (∀ t, Fs.symlink (fs w2) t (Path.join output (File.path f)) ≠
                   (Ok (), x3)) as Hno_symlink.
      { intros t Hlink. apply symlink_done in Hlink
          as (d' & name' & Hloc' & Hfree & _).
        rewrite Hloc2 in Hloc'. injection Hloc' as <- <-.
        by pose proof (eq_trans (eq_sym Hfree) Hnode2). }
      destruct (File.type f); try destruct (win32 w2); intros Hcall.
      all: first [by apply Hno_link in Hcall|by apply Hno_symlink in Hcall].
    - revert Hdel. unfold deliver, bind, the_linkname, platform_is_win32.
      rewrite Hl. destruct Hkind as [-> | ->]; simpl; [done|].
      by destruct (win32 w2). }
  split; [done|]. eapply place_fails; [|done..].
  by destruct Hkind as [-> | ->].
Qed.

Lemma write_link_never_replaces_witness :
  (∀ v,
     (write 0 None "/out" None
        (Sample.world (Sample.disk_with_link "d")
           (Sample.entry File.symlink "p" (Some "/etc/passwd")))).1 ≠ Return v) ∧
  dirs_only
    (Sample.world (Sample.disk_with_link "d")
       (Sample.entry File.symlink "p" (Some "/etc/passwd")))
    (write 0 None "/out" None
       (Sample.world (Sample.disk_with_link "d")
          (Sample.entry File.symlink "p" (Some "/etc/passwd")))).2.
Proof.
  apply (write_link_never_replaces 0 0
           (Sample.entry File.symlink "p" (Some "/etc/passwd")) None "/out" None
           (Sample.world (Sample.disk_with_link "d")
              (Sample.entry File.symlink "p" (Some "/etc/passwd")))
           (Sample.world (Sample.disk_with_link "d")
              (Sample.entry File.symlink "p" (Some "/etc/passwd")))
           ["out"] "p" (Fs.Symlink "d")).
  - reflexivity.
  - reflexivity.
  - by right.
  - vm_compute. reflexivity.
  - vm_compute. reflexivity.
  - apply surjective_pairing.
Defined.

(** X20 — a hard link or symbolic link entry without a link name:
    [write] does not return (the use of [file.linkname!] fails), and
    nothing but directories has been added. *)
Theorem write_link_without_name file file' f input output opts w w0 r w' :
  policy file input opts w = (Return (Some file'), w0) →
  files w0 !! file' = Some f →
  File.type f = File.link ∨ File.type f = File.symlink →
  File.linkname f = None →
  write file input output opts w = (r, w') →
  (∀ v, r ≠ Return v) ∧ dirs_only w0 w'.
Proof.
  intros Hpol Hfile Hkind Hl.
  rewrite write_policy. unfold bind at 1. rewrite Hpol.
  unfold bind at 1, get_file at 1. rewrite Hfile. intros Hplace.
  assert (∀ v, r ≠ Return v) as Hfail.
  { intros [] ->.
    apply place_returns in Hplace as (w2 & _ & _ & _ & Hdel);
      [|by destruct Hkind as [-> | ->]].
    revert Hdel. unfold deliver, bind, the_linkname, platform_is_win32.
    rewrite Hl. destruct Hkind as [-> | ->]; simpl; [done|].
    by destruct (win32 w2). }
  split; [done|]. eapply place_fails; [|done..].
  by destruct Hkind as [-> | ->].
Qed.

Lemma write_link_without_name_witness :
  (∀ v,
     (write 0 None "/out" None
        (Sample.world Sample.disk (Sample.entry File.link "h" None))).1 ≠
     Return v) ∧
  dirs_only
    (Sample.world Sample.disk (Sample.entry File.link "h" None))
    (write 0 None "/out" None
       (Sample.world Sample.disk (Sample.entry File.link "h" None))).2.
Proof.
  apply (write_link_without_name 0 0 (Sample.entry File.link "h" None)
           None "/out" None
           (Sample.world Sample.disk (Sample.entry File.link "h" None))
           (Sample.world Sample.disk (Sample.entry File.link "h" None))).
  - reflexivity.
  - reflexivity.
  - by left.
  - reflexivity.
  - apply surjective_pairing.
Defined.

(** * Runs that come to an end *)

Section Total.

Lemma cwd_exists_extends w w' :
  extends (fs w) (fs w') → cwd_exists w → cwd_exists w'.
Proof.
  intros Hext H. unfold cwd_exists. rewrite (proj1 Hext).
  by apply (is_dir_extends (fs w)).
Qed.

Lemma total_keeps {A} (m : M A) :
  keeps fs_extends m → (∀ w, (m w).1 ≠ Unfinished) → total m.
Proof.
  intros Hk Hfin w Hw. split; [apply Hfin|].
  apply (cwd_exists_extends w); [|done].
  apply (Hk w (m w).1). apply surjective_pairing.
Qed.

Lemma total_ret {A} (a : A) : total (ret a).
Proof. by intros w Hw. Qed.

Lemma total_throw {A} e : total (throw (A:=A) e).
Proof. by intros w Hw. Qed.

Lemma total_bind {A B} (m : M A) (k : A → M B) :
  total m → (∀ a, total (k a)) → total (bind m k).
Proof.
  intros Hm Hk w Hw. unfold bind. destruct (Hm w Hw) as [Hfin Hw1].
  destruct (m w) as [[a|e|] w1]; simpl in *; [by apply Hk|done..].
Qed.

Lemma total_try_catch {A} (m : M A) (h : error → M A) :
  total m → (∀ e, total (h e)) → total (try_catch m h).
Proof.
  intros Hm Hh w Hw. unfold try_catch. destruct (Hm w Hw) as [Hfin Hw1].
  destruct (m w) as [[a|e|] w1]; simpl in *; [done|by apply Hh|done].
Qed.

Lemma total_realpath p : total (realpath p).
Proof.
  apply total_keeps; [apply (keeps_realpath fs_extends)|].
  intros w. unfold realpath. simpl. by destruct (Fs.realpath _ _).
Qed.

Lemma total_readlink p : total (readlink p).
Proof.
  apply total_keeps; [apply (keeps_readlink fs_extends)|].
  intros w. unfold readlink. simpl. by destruct (Fs.readlink _ _).
Qed.

Lemma total_Date_now : total Date_now.
Proof. by intros w Hw. Qed.

Lemma total_platform : total platform_is_win32.
Proof. by intros w Hw. Qed.

Lemma total_the_linkname f : total (the_linkname f).
Proof.
  unfold the_linkname. destruct (File.linkname f);
    [apply total_ret|apply total_throw].
Qed.

Lemma total_contained d r o : total (contained d r o).
Proof. by intros w Hw. Qed.

Lemma total_within r o : total (within r o).
Proof. by intros w Hw. Qed.

Lemma total_resume i : total (resume i).
Proof. by intros w Hw. Qed.

Lemma total_get_file file : total (get_file file).
Proof. intros w Hw. unfold get_file. by destruct (files w !! file). Qed.

Lemma total_set_path file p : total (set_path file p).
Proof. by intros w Hw. Qed.

Lemma total_stripDirs p n : total (stripDirs p n).
Proof.
  unfold stripDirs. destruct (StripDirs.stripDirs p (Z.to_nat n));
    [apply total_ret|apply total_throw].
Qed.

Lemma total_call_filter flt file : total (call_filter flt file).
Proof. by intros w Hw. Qed.

Lemma total_call_map mp file : total (call_map mp file).
Proof. intros w Hw. unfold call_map. by destruct (mp file (files w)). Qed.

Lemma total_mkdirs p : total (mkdirs p).
Proof.
  apply total_keeps; [apply (keeps_mkdirs fs_extends)|].
  intros w. unfold mkdirs. by destruct (Fs.mkdirs _ _) as [[] ?].
Qed.

Lemma total_link a b : total (link a b).
Proof.
  apply total_keeps; [apply (keeps_link fs_extends)|].
  intros w. unfold link. by destruct (Fs.link _ _ _) as [[] ?].
Qed.

Lemma total_symlink a b : total (symlink a b).
Proof.
  apply total_keeps; [apply (keeps_symlink fs_extends)|].
  intros w. unfold symlink. by destruct (Fs.symlink _ _ _) as [[] ?].
Qed.

Lemma total_utimes p a m : total (utimes p a m).
Proof.
  apply total_keeps; [apply (keeps_utimes fs_extends)|].
  intros w. unfold utimes. by destruct (Fs.utimes _ _ _ _) as [[] ?].
Qed.

Lemma total_pipeline i p m : total (pipeline i p m).
Proof.
  apply total_keeps; [apply (keeps_pipeline fs_extends)|].
  intros w. unfold pipeline. by destruct (Fs.writeFile _ _ _ _) as [[] ?].
Qed.

Lemma total_safeMakeDir dir root : total (safeMakeDir dir root).
Proof.
  intros w Hw. split.
  - apply safeMakeDir_rec_finished; [by right|done].
  - apply (cwd_exists_extends w); [|done].
    apply (keeps_safeMakeDir fs_extends dir root w
             (safeMakeDir dir root w).1).
    apply surjective_pairing.
Qed.

Lemma total_guard dest : total (preventWritingThroughSymlink dest).
Proof.
  intros w Hw. rewrite guard_cases. simpl. split; [|done].
  destruct (Fs.readlink _ _) as [t|]; [by destruct (truthy t)|done].
Qed.

End Total.

#[global] Hint Resolve total_ret total_throw total_bind total_try_catch
  total_realpath total_readlink total_Date_now total_platform
  total_the_linkname total_contained total_within total_resume
  total_get_file total_set_path total_stripDirs total_call_filter
  total_call_map total_mkdirs total_link total_symlink total_utimes
  total_pipeline total_safeMakeDir total_guard : total.
#[global] Hint Extern 5 (total (if ?b then _ else _)) => destruct b : total.
#[global] Hint Extern 5 (total (match ?x with _ => _ end)) => destruct x : total.

Section TotalSource.

Lemma total_deliver f input output dest now :
  total (deliver f input output dest now).
Proof. unfold deliver. auto 10 with total. Qed.

Lemma total_place f input output : total (place f input output).
Proof. unfold place. pose proof total_deliver. auto 12 with total. Qed.

Lemma total_policy file input opts : total (policy file input opts).
Proof.
  unfold policy, strip_step, filter_step, discard, map_step.
  auto 12 with total.
Qed.

Lemma total_write file input output opts :
  total (write file input output opts).
Proof.
  intros w Hw. rewrite write_policy. revert w Hw.
  apply total_bind; [apply total_policy|]. intros [file'|]; [|apply total_ret].
  apply total_bind; [apply total_get_file|]. intros f. apply total_place.
Qed.

End TotalSource.

(** X21 — [write] comes to an end: when the working directory exists,
    no run of [write] is cut off, whatever the entry, the options and the
    file system; the allowance of [safeMakeDir] is always enough. *)
Theorem write_terminates file input output opts w :
  Fs.is_dir (fs w) (Fs.cwd (fs w)) = true →
  (write file input output opts w).1 ≠ Unfinished.
Proof. intros Hw. by apply total_write. Qed.

Lemma write_terminates_witness :
  Fs.is_dir Sample.disk (Fs.cwd Sample.disk) = true ∧
  (write 0 (Some 0) "/out" None
     (Sample.world Sample.disk
        (Sample.entry File.file "a/b/c/d/e/f.txt" None))).1 ≠ Unfinished.
Proof.
  split; [reflexivity|].
  apply (write_terminates 0 (Some 0) "/out" None
           (Sample.world Sample.disk
              (Sample.entry File.file "a/b/c/d/e/f.txt" None))).
  reflexivity.
Defined.

(** * The errors of a run *)

Section Throws.

Context (ok : error → bool).
Hypothesis ok_system : ∀ c, ok (SystemError c) = true.

Lemma throws_ret {A} (a : A) : throws_only (λ e, ok e = true) (ret a).
Proof. by intros w e w'. Qed.

Lemma throws_throw {A} e :
  ok e = true → throws_only (λ e, ok e = true) (throw (A:=A) e).
Proof. by intros He w e' w' [= <- _]. Qed.

Lemma throws_bind {A B} (m : M A) (k : A → M B) :
  throws_only (λ e, ok e = true) m →
  (∀ a, throws_only (λ e, ok e = true) (k a)) →
  throws_only (λ e, ok e = true) (bind m k).
Proof.
  intros Hm Hk w e w'. unfold bind.
  destruct (m w) as [[a|e0|] w1] eqn:Hmw.
  - apply Hk.
  - intros [= <- <-]. by eapply Hm.
  - done.
Qed.

Lemma throws_try_catch {A} (m : M A) (h : error → M A) :
  (∀ e, throws_only (λ e, ok e = true) (h e)) →
  throws_only (λ e, ok e = true) (try_catch m h).
Proof.
  intros Hh w e w'. unfold try_catch.
  destruct (m w) as [[a|e0|] w1]; [done|apply Hh|done].
Qed.

Lemma throws_lift {A} (r : res A) e : lift_res r = Throw e → ok e = true.
Proof. destruct r; [done|]. intros [= <-]. apply ok_system. Qed.

Lemma throws_realpath p : throws_only (λ e, ok e = true) (realpath p).
Proof. intros w e w' [= H _]. by eapply throws_lift. Qed.

Lemma throws_mkdirs p : throws_only (λ e, ok e = true) (mkdirs p).
Proof.
  intros w e w'. unfold mkdirs. destruct (Fs.mkdirs _ _) as [r x].
  intros [= H _]. by eapply throws_lift.
Qed.

Lemma throws_link a b : throws_only (λ e, ok e = true) (link a b).
Proof.
  intros w e w'. unfold link. destruct (Fs.link _ _ _) as [r x].
  intros [= H _]. by eapply throws_lift.
Qed.

Lemma throws_symlink a b : throws_only (λ e, ok e = true) (symlink a b).
Proof.
  intros w e w'. unfold symlink. destruct (Fs.symlink _ _ _) as [r x].
  intros [= H _]. by eapply throws_lift.
Qed.

Lemma throws_utimes p a m : throws_only (λ e, ok e = true) (utimes p a m).
Proof.
  intros w e w'. unfold utimes. destruct (Fs.utimes _ _ _ _) as [r x].
  intros [= H _]. by eapply throws_lift.
Qed.

Lemma throws_contained d r o : throws_only (λ e, ok e = true) (contained d r o).
Proof. by intros w e w'. Qed.

Lemma throws_within r o : throws_only (λ e, ok e = true) (within r o).
Proof. by intros w e w'. Qed.

Lemma throws_Date_now : throws_only (λ e, ok e = true) Date_now.
Proof. by intros w e w'. Qed.

Lemma throws_platform : throws_only (λ e, ok e = true) platform_is_win32.
Proof. by intros w e w'. Qed.

Hypothesis ok_create : ok RefusingCreateOutside = true.

Lemma throws_safeMakeDir_rec fuel : ∀ dir root,
  throws_only (λ e, ok e = true) (safeMakeDir_rec fuel dir root).
Proof.
  induction fuel as [|fuel IH]; intros dir root; [by intros w e w'|].
  change (safeMakeDir_rec (S fuel) dir root) with
    (realParentPath ←
       try_catch (realpath dir)
         (λ _, safeMakeDir_rec fuel (Path.dirname dir) root);
     ok ← contained dir realParentPath root;
     if negb ok then throw RefusingCreateOutside
     else mkdirs dir;; realpath dir).
  apply throws_bind; [apply throws_try_catch; intros _; apply IH|].
  intros real. apply throws_bind; [apply throws_contained|]. intros [].
  - apply throws_bind; [apply throws_mkdirs|]. intros _. apply throws_realpath.
  - by apply throws_throw.
Qed.

(** A directory entry. *)
Lemma throws_place_directory f input output :
  File.type f = File.directory →
  throws_only (λ e, ok e = true) (place f input output).
Proof.
  intros Hkind. unfold place.
  apply throws_bind; [apply throws_Date_now|]. intros now.
  apply throws_bind; [apply throws_mkdirs|]. intros _.
  apply throws_bind; [apply throws_realpath|]. intros root.
  destruct (decide (File.type f = File.directory)) as [_|]; [|done].
  apply throws_bind; [apply throws_safeMakeDir_rec|]. intros _.
  apply throws_utimes.
Qed.

Hypothesis ok_outside : ∀ real, ok (RefusingWriteOutside real) = true.
Hypothesis ok_type : ok TypeError = true.

(** A hard or symbolic link entry. *)
Lemma throws_place_link f input output :
  File.type f = File.link ∨ File.type f = File.symlink →
  throws_only (λ e, ok e = true) (place f input output).
Proof.
  intros Hkind. unfold place.
  apply throws_bind; [apply throws_Date_now|]. intros now.
  apply throws_bind; [apply throws_mkdirs|]. intros _.
  apply throws_bind; [apply throws_realpath|]. intros root.
  destruct (decide (File.type f = File.directory)) as [Hd|_];
    [by destruct Hkind as [H|H]; rewrite H in Hd|].
  apply throws_bind; [apply throws_safeMakeDir_rec|]. intros _.
  destruct (decide (File.type f = File.file)) as [Hf|_];
    [by destruct Hkind as [H|H]; rewrite H in Hf|].
  apply throws_bind; [apply throws_ret|]. intros _.
  apply throws_bind; [apply throws_realpath|]. intros rd.
  apply throws_bind; [apply throws_within|]. intros [].
  2: by apply throws_throw.
  unfold deliver, the_linkname.
  assert (∀ A (k : string → M A),
    (∀ l, throws_only (λ e, ok e = true) (k l)) →
    throws_only (λ e, ok e = true)
      (bind match File.linkname f with
            | Some l => ret l
            | None => throw TypeError
            end k)) as Hname.
  { intros A k Hk. apply throws_bind; [|done].
    destruct (File.linkname f); [apply throws_ret|by apply throws_throw]. }
  destruct Hkind as [-> | ->].
  - apply throws_bind; [|intros _; apply throws_ret].
    apply Hname. intros l. apply throws_link.
  - apply throws_bind; [|intros _; apply throws_ret].
    apply throws_bind; [apply throws_platform|]. intros [].
    + apply Hname. intros l. apply throws_link.
    + apply Hname. intros l. apply throws_symlink.
Qed.

End Throws.

(** X22 — the errors of entries other than files.  None ends with
    'Refusing to write into a symlink': the guard is for files only.  A
    directory entry ends with 'Refusing to create a directory outside the
    output path' or with the error of a file system call, never with
    'Refusing to write outside output directory': [write] returns before
    the second containment test. *)
Theorem write_errors_of_other_entries
    file file' f input output opts w w0 e w' :
  policy file input opts w = (Return (Some file'), w0) →
  files w0 !! file' = Some f →
  File.type f ≠ File.file →
  write file input output opts w = (Throw e, w') →
  e ≠ RefusingWriteIntoSymlink ∧
  (File.type f = File.directory →
   e = RefusingCreateOutside ∨ ∃ c, e = SystemError c).
Proof.
  intros Hpol Hfile Hkind.
  rewrite write_policy. unfold bind at 1. rewrite Hpol.
  unfold bind at 1, get_file at 1. rewrite Hfile. intros Hplace.
  destruct (File.type f) eqn:Hk; [done|..].
  1,2: split; [|done].
  1,2: apply (throws_place_link
                (λ e, match e with
                      | RefusingWriteIntoSymlink | StripAbsolutePath => false
                      | _ => true
                      end)) in Hplace; [by destruct e|done..|by auto].
  apply (throws_place_directory
           (λ e, match e with
                 | RefusingCreateOutside | SystemError _ => true
                 | _ => false
                 end)) in Hplace; [|done..].
  destruct e; try done; split; eauto.
Qed.

Lemma write_errors_of_other_entries_witness :
  RefusingCreateOutside ≠ RefusingWriteIntoSymlink ∧
  (File.type (Sample.entry File.directory "../etc/x" None) = File.directory →
   RefusingCreateOutside = RefusingCreateOutside ∨
   ∃ c, RefusingCreateOutside = SystemError c).
Proof.
  apply (write_errors_of_other_entries 0 0
           (Sample.entry File.directory "../etc/x" None) None "/out" None
           (Sample.world Sample.disk
              (Sample.entry File.directory "../etc/x" None))
           (Sample.world Sample.disk
              (Sample.entry File.directory "../etc/x" None))
           RefusingCreateOutside
           (write 0 None "/out" None
              (Sample.world Sample.disk
                 (Sample.entry File.directory "../etc/x" None))).2).
  - reflexivity.
  - reflexivity.
  - discriminate.
  - vm_compute. reflexivity.
Defined.

(** X23 — the output directory is made: when [write] returns after
    placing an entry, [output] resolves to a directory. *)
Theorem write_makes_output file file' f input output opts w w0 w' :
  policy file input opts w = (Return (Some file'), w0) →
  files w0 !! file' = Some f →
  write file input output opts w = (Return (), w') →
  ∃ c, Fs.resolve (fs w') output = Ok c ∧ Fs.is_dir (fs w') c = true.
Proof.
  intros Hpol Hfile.
  rewrite write_policy. unfold bind at 1. rewrite Hpol.
  unfold bind at 1, get_file at 1. rewrite Hfile. intros H.
  unfold place in H.
  apply bind_returns in H as (now & w1 & [= <- <-] & H).
  apply bind_returns in H as ([] & w2 & Hmk & H).
  unfold mkdirs in Hmk.
  destruct (Fs.mkdirs (fs w0) output) as [[[]|] x1] eqn:Hmkdirs; [|done].
  injection Hmk as <-.
  apply mkdirs_resolves in Hmkdirs as (c & Hres & Hdir).
  assert (extends x1 (fs w')) as Hext.
  { match type of H with
    | ?m ?w2 = _ =>
        assert (keeps fs_extends m) as Hkeeps;
        [|exact (Hkeeps _ _ _ H)]
    end.
    pose proof fs_extends_frame. pose proof fs_extends_fs.
    pose proof fs_extends_streams.
    pose proof (keeps_safeMakeDir fs_extends).
    pose proof (keeps_guard fs_extends).
    pose proof (keeps_deliver fs_extends).
    auto 12 with keeps. }
  exists c. split.
  - revert Hres. unfold Fs.resolve, Fs.resolve_from. rewrite (proj1 Hext).
    destruct (String.eqb output ""); [done|]. by apply walk_extends.
  - by apply (is_dir_extends x1).
Qed.

Lemma write_makes_output_witness :
  ∃ c,
    Fs.resolve
      (fs (write 0 None "/new/out" None
             (Sample.world Sample.disk (Sample.entry File.directory "d" None))).2)
      "/new/out" = Ok c ∧
    Fs.is_dir
      (fs (write 0 None "/new/out" None
             (Sample.world Sample.disk (Sample.entry File.directory "d" None))).2)
      c = true.
Proof.
  apply (write_makes_output 0 0 (Sample.entry File.directory "d" None) None
           "/new/out" None
           (Sample.world Sample.disk (Sample.entry File.directory "d" None))
           (Sample.world Sample.disk (Sample.entry File.directory "d" None))).
  - reflexivity.
  - reflexivity.
  - vm_compute. reflexivity.
Defined.
